(** * Battleship WebSocket server: placement validation and room state machine

    A shallow embedding of the server's message handler, its placement
    validator and its close handler, with the properties of the
    specification stated and proved over it. *)

From Stdlib Require Import ZArith Lia Bool.
From stdpp Require Import base option list sorting strings.

Local Open Scope string_scope.
Local Open Scope list_scope.
Local Open Scope Z_scope.

Set Warnings "-register-all".

(** ** JavaScript values

    The handler works on the value produced by [JSON.parse], and reads
    properties that may be missing.  Numbers are split by what
    [Number.isInteger] answers: [VNum z] is the integer-valued number [z]
    (the negative zero behaves as [0] in every operation used here), [VFrac]
    stands for any other number (fractional or infinite; [JSON.parse] yields
    no NaN).  A string is the sequence of its code units.  [VObj] lists the
    own properties of an object; the first binding of a name is the one in
    force.  [VUndefined] is the value of a missing property; it does not
    occur inside a parsed message. *)

Inductive jsval : Type :=
  | VUndefined
  | VNull
  | VBool (b : bool)
  | VNum (z : Z)
  | VFrac
  | VStr (s : string)
  | VArr (items : list jsval)
  | VObj (fields : list (string * jsval)).

Fixpoint lookupField (k : string) (fields : list (string * jsval)) : jsval :=
  match fields with
  | [] => VUndefined
  | (k', v) :: rest => if String.eqb k k' then v else lookupField k rest
  end.

(** [v.k] for the property names the server reads ([type], [roomId],
    [placement], [x], [y], [ships], [cells], [length]): none of them is
    inherited from a prototype, and [length] is an own property of arrays and
    strings only.  [None] is the TypeError raised when [v] is [null] or
    [undefined]. *)
Definition getProp (v : jsval) (k : string) : option jsval :=
  match v with
  | VUndefined | VNull => None
  | VObj fields => Some (lookupField k fields)
  | VArr items =>
      Some (if String.eqb k "length" then VNum (Z.of_nat (length items)) else VUndefined)
  | VStr s =>
      Some (if String.eqb k "length" then VNum (Z.of_nat (String.length s)) else VUndefined)
  | VBool _ | VNum _ | VFrac => Some VUndefined
  end.

(** [!!v] *)
Definition truthy (v : jsval) : bool :=
  match v with
  | VUndefined | VNull => false
  | VBool b => b
  | VNum z => negb (z =? 0)
  | VFrac => true
  | VStr s => negb (String.eqb s "")
  | VArr _ | VObj _ => true
  end.

(** [v === n] for a number literal [n] *)
Definition isNum (n : Z) (v : jsval) : bool :=
  match v with
  | VNum z => z =? n
  | _ => false
  end.

(** Whether [String(v)] and the arithmetic [v - w] can convert [v] to a
    primitive value.  The objects of a parsed message have no callable
    property of their own, so an object with an own property [toString] has
    no way to a primitive ([Object.prototype.valueOf] returns the object
    itself) and the conversion raises a TypeError; an array is converted by
    joining the strings of its entries, [null] counting as the empty string,
    and every other value converts. *)
Fixpoint coercible (v : jsval) : bool :=
  match v with
  | VObj fields => negb (existsb (λ kv, String.eqb kv.1 "toString") fields)
  | VArr items => forallb coercible items
  | _ => true
  end.

(** [v === undefined] *)
Definition isUndefined (v : jsval) : bool :=
  match v with
  | VUndefined => true
  | _ => false
  end.

(** ** Grid and ships

<<
  grid values: 0 empty, 1 ship (hidden to opponent), 2 miss, 3 hit
>>
*)

Inductive Cell : Type := Empty | Ship | Miss | Hit.

Global Instance Cell_eq_dec : EqDecision Cell.
Proof. solve_decision. Defined.

Abbreviation Grid := (list (list Cell)) (only parsing).

(** A ship as the server reads it after validation: the [x] and [y] of each
    entry of its [cells] array, in the array's order. *)
Abbreviation ShipCells := (list (Z * Z)) (only parsing).

Definition SIZE : Z := 10.
Definition SHIP_SIZES : list Z := [5; 4; 3; 3; 2].

Definition otherIndex (i : nat) : nat :=
  match i with
  | O => 1%nat
  | _ => 0%nat
  end.

Definition emptyGrid : Grid :=
  replicate (Z.to_nat SIZE) (replicate (Z.to_nat SIZE) Empty).

(** [grid[y][x]]; [None] outside the grid.  Every grid of the server has
    [SIZE] rows of [SIZE] cells, and the code reads and writes a grid only at
    positions it has checked to be inside (placement, shots) or that belong
    to a validated ship (win detection). *)
Definition cellAt (g : Grid) (x y : Z) : option Cell :=
  if (0 <=? x) && (0 <=? y)
  then row ← g !! Z.to_nat y; row !! Z.to_nat x
  else None.

(** [grid[y][x] = v], for a position inside the grid *)
Definition setCell (g : Grid) (x y : Z) (v : Cell) : Grid :=
  alter (λ row, <[Z.to_nat x := v]> row) (Z.to_nat y) g.

(** ** Results of fallible steps: a value, an error reason, or a TypeError
    that escapes the function *)

Inductive res (A : Type) : Type :=
  | Ok (a : A)
  | Err (err : string)
  | Throw.
Arguments Ok {A} a.
Arguments Err {A} err.
Arguments Throw {A}.

Global Instance res_ret : MRet res := λ A a, Ok a.
Global Instance res_bind : MBind res := λ A B f m,
  match m with
  | Ok a => f a
  | Err e => Err e
  | Throw => Throw
  end.

(** ** Placement validator *)

Module Placement.

(** [(a,b) => a-b] sorting of an array of numbers, ascending. *)
Fixpoint insertNum (a : Z) (l : list Z) : list Z :=
  match l with
  | [] => [a]
  | b :: rest => if a <=? b then a :: l else b :: insertNum a rest
  end.

Definition sortNum (l : list Z) : list Z := foldr insertNum [] l.

(** The same sort on the array of sizes, whose entries need not be numbers
    ([undefined] when a ship has no [cells], any value when [cells] is an
    object with a [length] property).  The sort moves the [undefined]
    entries to the end without calling the comparator, and compares every
    other entry with another one as soon as there are two of them; the
    subtraction of the comparator raises a TypeError on an entry that has no
    conversion to a primitive value: [sortThrows].  Otherwise numbers come
    first, in ascending order; for the other entries the engine's order is
    not modelled: lemma [sizes_check_any_order] shows that the comparison
    with the expected sizes does not depend on it. *)
Definition sortThrows (sizes : list jsval) : bool :=
  (2 <=? length (filter (λ v, isUndefined v = false) sizes))%nat &&
  negb (forallb coercible sizes).

Definition sizeLe (a b : jsval) : bool :=
  match a, b with
  | VNum x, VNum y => x <=? y
  | VNum _, _ => true
  | _, VNum _ => false
  | _, _ => true
  end.

Fixpoint insertSize (a : jsval) (l : list jsval) : list jsval :=
  match l with
  | [] => [a]
  | b :: rest => if sizeLe a b then a :: l else b :: insertSize a rest
  end.

Definition sortSizes (l : list jsval) : list jsval := foldr insertSize [] l.

(** [s.cells?.length]; [None] when reading [s.cells] raises. *)
Definition shipSize (s : jsval) : option jsval :=
  match getProp s "cells" with
  | None => None
  | Some VUndefined | Some VNull => Some VUndefined
  | Some c => getProp c "length"
  end.

(** [for (i...) if (sizes[i] !== expected[i])], on arrays of equal length *)
Fixpoint sizesEq (sizes : list jsval) (expected : list Z) : bool :=
  match sizes, expected with
  | [], [] => true
  | s :: sizes', e :: expected' => isNum e s && sizesEq sizes' expected'
  | _, _ => false
  end.

(** [new Set(l).size] *)
Definition setSize (l : list Z) : nat := length (remove_dups l).

(** [for (i=1;i<xs.length;i++) if (xs[i] !== xs[i-1] + 1) return ...] *)
Fixpoint stepOne (xs : list Z) : bool :=
  match xs with
  | a :: (b :: _) as rest => (b =? a + 1) && stepOne rest
  | _ => true
  end.

(** The loop over the cells of one ship: the coordinates of the cells, or
    the first failing check. *)
Fixpoint checkCells (g : Grid) (cells : list jsval) : res (list (Z * Z)) :=
  match cells with
  | [] => Ok []
  | c :: rest =>
      match getProp c "x", getProp c "y" with
      | Some (VNum x), Some (VNum y) =>
          if (x <? 0) || (x >=? SIZE) || (y <? 0) || (y >=? SIZE)
          then Err "Out of bounds"
          else if bool_decide (cellAt g x y = Some Ship)
          then Err "Overlapping ships"
          else pts ← checkCells g rest; Ok ((x, y) :: pts)
      | Some _, Some _ => Err "Invalid coords"
      | _, _ => Throw
      end
  end.

(** One round of [for (const ship of ships)]: the grid with the ship
    written, and the ship's cells. *)
Definition placeShip (g : Grid) (s : jsval) : res (Grid * ShipCells) :=
  match getProp s "cells" with
  | None => Throw
  | Some (VArr cells) =>
      if (length cells <? 2)%nat then Err "Invalid ship cells" else
      pts ← checkCells g cells;
      let allX := setSize pts.*1 in
      let allY := setSize pts.*2 in
      let isHoriz := (allY =? 1)%nat && (allX =? length cells)%nat in
      let isVert := (allX =? 1)%nat && (allY =? length cells)%nat in
      if negb isHoriz && negb isVert then Err "Ship must be straight" else
      match pts with
      | [] => Throw
      | (x0, y0) :: _ =>
          if isHoriz then
            let xs := sortNum pts.*1 in
            if negb (stepOne xs) then Err "Ship cells must be contiguous"
            else Ok (foldl (λ g' x, setCell g' x y0 Ship) g xs, pts)
          else
            let ys := sortNum pts.*2 in
            if negb (stepOne ys) then Err "Ship cells must be contiguous"
            else Ok (foldl (λ g' y, setCell g' x0 y Ship) g ys, pts)
      end
  | Some _ => Err "Invalid ship cells"
  end.

Fixpoint placeShips (g : Grid) (ships : list jsval) : res (Grid * list ShipCells) :=
  match ships with
  | [] => Ok (g, [])
  | s :: rest =>
      '(g1, pts) ← placeShip g s;
      '(g2, fleet) ← placeShips g1 rest;
      Ok (g2, pts :: fleet)
  end.

(** The result [{ ok, err }] / [{ ok, grid, ships }], or the TypeError that
    escapes when an entry of [ships] or of a [cells] array is [null], or when
    the sort of the sizes raises.  The
    code returns the array [ships] it was given; of its objects the server
    later reads the [cells], and of a cell [x] and [y], which validation has
    shown to be integers: [VOk] carries these coordinates, ship by ship. *)
Inductive vresult : Type :=
  | VOk (g : Grid) (ships : list ShipCells)
  | VErr (err : string)
  | VThrow.

Definition validatePlacement (placement : jsval) : vresult :=
  if negb (truthy placement) then VErr "Bad placement format" else
  match getProp placement "ships" with
  | Some (VArr ships) =>
      match mapM shipSize ships with
      | None => VThrow
      | Some sizes =>
          if sortThrows sizes then VThrow else
          let sizes := sortSizes sizes in
          let expected := sortNum SHIP_SIZES in
          if negb (length sizes =? length expected)%nat then VErr "Wrong ship count"
          else if negb (sizesEq sizes expected) then VErr "Wrong ship sizes"
          else
            match placeShips emptyGrid ships with
            | Ok (g, fleet) => VOk g fleet
            | Err e => VErr e
            | Throw => VThrow
            end
      end
  | _ => VErr "Bad placement format"
  end.

End Placement.
Import Placement.

(** ** Rooms

<<
  rooms[roomId] = {
    players: [ { ws, id, ready, grid, ships }, { ... } ],
    turn: 0|1,
    started: bool
  }
>>
    A connection [ws] is identified by a number; [grid] and [ships] are
    [null] ([None]) until a placement is accepted. *)

Module Player.
Record t : Type := mk {
  ws : nat;
  id : string;
  ready : bool;
  grid : option Grid;
  ships : option (list ShipCells)
}.
End Player.

Module Room.
Record t : Type := mk {
  players : list Player.t;
  turn : nat;
  started : bool
}.
End Room.

(** The [Map] of rooms, in insertion order (the order its entries are
    iterated in).  A [Map] holds one entry per key; the room objects it
    holds are mutated in place, which [updRoom] renders by position. *)
Abbreviation store := (list (string * Room.t)) (only parsing).

(** [rooms.get(roomId)], with the position of the entry *)
Fixpoint storeGet (roomId : string) (rooms : store) : option (nat * Room.t) :=
  match rooms with
  | [] => None
  | (rid, r) :: rest =>
      if String.eqb rid roomId then Some (O, r)
      else '(i, r') ← storeGet roomId rest; Some (S i, r')
  end.

(** [rooms.set(roomId, r)]: an existing key keeps its position *)
Fixpoint storeSet (roomId : string) (r : Room.t) (rooms : store) : store :=
  match rooms with
  | [] => [(roomId, r)]
  | (rid, r0) :: rest =>
      if String.eqb rid roomId then (rid, r) :: rest
      else (rid, r0) :: storeSet roomId r rest
  end.

(** In-place mutation of the room object held at position [i] *)
Definition updRoom (i : nat) (r : Room.t) (rooms : store) : store :=
  alter (λ e, (e.1, r)) i rooms.

(** ** Outbound messages *)

Inductive status : Type :=
  | BothConnected         (* "Both players connected. Place ships and press READY." *)
  | PlayerReady (n : nat) (* `Player ${n} is READY.` *)
  | OpponentDisconnected  (* "Opponent disconnected." *).

Inductive outmsg : Type :=
  | MHello
  | MError (message : string)
  | MRoomCreated (roomId : string) (player : nat)
  | MPlayerJoined (player : nat)
  | MRoomJoined (roomId : string) (player : nat)
  | MStatus (message : status)
  | MReadyOk
  | MGameStart (turnPlayer : nat)
  | MShotResult (x y : Z) (hit sunk : bool) (sunkSize : option nat) (win : bool)
  | MGotShot (x y : Z) (hit sunk : bool) (sunkSize : option nat) (lose : bool)
  | MGameOver (winner : nat)
  | MTurn (turnPlayer : nat).

(** The calls of [safeSend], in order: the connection and the message.  (A
    message is put on the wire when the connection is open.) *)
Abbreviation sends := (list (nat * outmsg)) (only parsing).

Definition broadcast (room : Room.t) (obj : outmsg) : sends :=
  map (λ p, (Player.ws p, obj)) (Room.players room).
Arguments broadcast : simpl never.

(** What one run of a handler leaves: the rooms, the sends, and whether it
    ended by an uncaught TypeError. *)
Record outcome : Type := Outcome {
  rooms_after : store;
  sent : sends;
  raised : bool
}.

Definition done (rooms : store) (out : sends) : outcome := Outcome rooms out false.
Definition throws (rooms : store) (out : sends) : outcome := Outcome rooms out true.

(** [return safeSend(ws, { type: "error", message })] *)
Definition reject (rooms : store) (ws : nat) (message : string) : outcome :=
  done rooms [(ws, MError message)].

(** ** Win detection *)

(** [shipCells.every(c => grid[c.y][c.x] === 3)] *)
Definition computeSunk (g : Grid) (shipCells : ShipCells) : bool :=
  forallb (λ c, bool_decide (cellAt g c.1 c.2 = Some Hit)) shipCells.

Definition allShipsSunk (g : Grid) (ships : list ShipCells) : bool :=
  forallb (λ s, computeSunk g s) ships.

(** The loop that looks for the ship owning [(x,y)]: [(sunk, sunkSize)] *)
Fixpoint findSunk (g : Grid) (ships : list ShipCells) (x y : Z) : bool * option nat :=
  match ships with
  | [] => (false, None)
  | s :: rest =>
      if existsb (λ c, (c.1 =? x) && (c.2 =? y)) s
      then (if computeSunk g s then (true, Some (length s)) else (false, None))
      else findSunk g rest x y
  end.

(** ** The message handler *)

(** [r.players.findIndex(p => p.ws === ws)] *)
Fixpoint findIndex (ws : nat) (ps : list Player.t) : option nat :=
  match ps with
  | [] => None
  | p :: rest => if Nat.eqb (Player.ws p) ws then Some O else S <$> findIndex ws rest
  end.

(** The lookup loop at the head of the handler: the first room, in
    iteration order, that holds [ws]; its position, the room and the
    player index. *)
Fixpoint findRoom (ws : nat) (rooms : store) : option (nat * Room.t * nat) :=
  match rooms with
  | [] => None
  | (_, r) :: rest =>
      match findIndex ws (Room.players r) with
      | Some idx => Some (O, r, idx)
      | None => '(i, r', idx) ← findRoom ws rest; Some (S i, r', idx)
      end
  end.

Definition newPlayer (ws : nat) (clientId : string) : Player.t :=
  Player.mk ws clientId false None None.

Definition create_room (ws : nat) (clientId roomId : string) (rooms : store) : outcome :=
  done (storeSet roomId (Room.mk [newPlayer ws clientId] O false) rooms)
       [(ws, MRoomCreated roomId 1)].

Definition join_room (ws : nat) (clientId roomId : string) (rooms : store) : outcome :=
  match storeGet roomId rooms with
  | None => reject rooms ws "Room not found"
  | Some (i, r) =>
      if (2 <=? length (Room.players r))%nat then reject rooms ws "Room full" else
      let r1 := Room.mk (Room.players r ++ [newPlayer ws clientId]) (Room.turn r) (Room.started r) in
      let rooms1 := updRoom i r1 rooms in
      match Room.players r1 !! O with
      | None => throws rooms1 []
      | Some p0 =>
          match Room.players r1 !! 1%nat with
          | None => throws rooms1 [(Player.ws p0, MPlayerJoined 2)]
          | Some p1 =>
              done rooms1
                ([(Player.ws p0, MPlayerJoined 2); (Player.ws p1, MRoomJoined roomId 2)]
                   ++ broadcast r1 (MStatus BothConnected))
          end
      end
  end.

Definition place_ready (ws : nat) (msg : jsval) (rooms : store)
    (found : option (nat * Room.t * nat)) : outcome :=
  match found with
  | None => reject rooms ws "Not in a room"
  | Some (i, room, pIndex) =>
      if (length (Room.players room) <? 2)%nat then reject rooms ws "Waiting for opponent" else
      match getProp msg "placement" with
      | None => throws rooms []
      | Some placement =>
          match validatePlacement placement with
          | VThrow => throws rooms []
          | VErr err => reject rooms ws ("Placement invalid: " +:+ err)
          | VOk g fleet =>
              let ps :=
                alter (λ p, Player.mk (Player.ws p) (Player.id p) true (Some g) (Some fleet))
                      pIndex (Room.players room) in
              let r1 := Room.mk ps (Room.turn room) (Room.started room) in
              let out := (ws, MReadyOk) :: broadcast r1 (MStatus (PlayerReady (pIndex + 1))) in
              match ps !! O with
              | None => throws (updRoom i r1 rooms) out
              | Some p0 =>
                  if negb (Player.ready p0) then done (updRoom i r1 rooms) out else
                  match ps !! 1%nat with
                  | None => throws (updRoom i r1 rooms) out
                  | Some p1 =>
                      if Player.ready p1 && negb (Room.started r1)
                      then
                        let r2 := Room.mk ps O true in
                        done (updRoom i r2 rooms)
                             (out ++ broadcast r2 (MGameStart (Room.turn r2 + 1)))
                      else done (updRoom i r1 rooms) out
                  end
              end
          end
      end
  end.

(** The resolution of a shot that passed every check (from [let hit = false]
    on): [defender] is the player at [otherIndex pIndex], [g] its grid and
    [cell] the value read at [(x,y)]. *)
Definition resolveShot (rooms : store) (i : nat) (room : Room.t) (pIndex : nat)
    (x y : Z) (defender : Player.t) (g : Grid) (cell : Cell) : outcome :=
  let hit := bool_decide (cell = Ship) in
  let g1 := setCell g x y (if hit then Hit else Miss) in
  let defender1 :=
    Player.mk (Player.ws defender) (Player.id defender)
              (Player.ready defender) (Some g1) (Player.ships defender) in
  let r1 :=
    Room.mk (<[otherIndex pIndex := defender1]> (Room.players room))
            (Room.turn room) (Room.started room) in
  let rooms1 := updRoom i r1 rooms in
  match Player.ships defender1, Room.players r1 !! pIndex with
  | Some fleet, Some attacker =>
      let '(sunk, sunkSize) :=
        if hit then findSunk g1 fleet x y else (false, None) in
      let win := allShipsSunk g1 fleet in
      let out :=
        [(Player.ws attacker, MShotResult x y hit sunk sunkSize win);
         (Player.ws defender1, MGotShot x y hit sunk sunkSize win)] in
      if win then done rooms1 (out ++ broadcast r1 (MGameOver (pIndex + 1)))
      else
        let r2 :=
          if hit then r1
          else Room.mk (Room.players r1) (otherIndex (Room.turn r1)) (Room.started r1) in
        done (updRoom i r2 rooms) (out ++ broadcast r2 (MTurn (Room.turn r2 + 1)))
  | _, _ => throws rooms1 []
  end.

Definition shot (ws : nat) (msg : jsval) (rooms : store)
    (found : option (nat * Room.t * nat)) : outcome :=
  match found with
  | None => reject rooms ws "Game not started"
  | Some (i, room, pIndex) =>
      if negb (Room.started room) then reject rooms ws "Game not started" else
      if negb (pIndex =? Room.turn room)%nat then reject rooms ws "Not your turn" else
      match getProp msg "x", getProp msg "y" with
      | Some (VNum x), Some (VNum y) =>
          if (x <? 0) || (x >=? SIZE) || (y <? 0) || (y >=? SIZE)
          then reject rooms ws "Invalid shot coords" else
          match Room.players room !! otherIndex pIndex with
          | None => throws rooms []
          | Some defender =>
              match Player.grid defender with
              | None => throws rooms []
              | Some g =>
                  match cellAt g x y with
                  | None => throws rooms []
                  | Some Miss | Some Hit => reject rooms ws "Already shot there"
                  | Some cell => resolveShot rooms i room pIndex x y defender g cell
                  end
              end
          end
      | Some _, Some _ => reject rooms ws "Invalid shot coords"
      | _, _ => throws rooms []
      end
  end.

(** [safeSend(ws, { type: "hello", ... })] when a connection is accepted *)
Definition onConnection (ws : nat) : sends := [(ws, MHello)].

(** [ws.on("close", ...)]: the first room holding [ws] loses that player;
    the room is deleted when it becomes empty ([rooms.delete(rid)] removes
    the entry the loop is at), otherwise the player left is notified. *)
Fixpoint onClose (ws : nat) (rooms : store) : store * sends :=
  match rooms with
  | [] => ([], [])
  | (rid, r) :: rest =>
      match findIndex ws (Room.players r) with
      | Some idx =>
          let r1 := Room.mk (delete idx (Room.players r)) (Room.turn r) (Room.started r) in
          if (length (Room.players r1) =? 0)%nat then (rest, [])
          else ((rid, r1) :: rest, broadcast r1 (MStatus OpponentDisconnected))
      | None =>
          let '(rest1, out) := onClose ws rest in ((rid, r) :: rest1, out)
      end
  end.

(** The string built-ins applied to the room token of [join_room]:
    [String(v)], [s.trim()] and [s.toUpperCase()].  Their results are only
    compared with the keys of the store.  [js_String v] is the result of
    [String(v)] for a value that has a conversion to a primitive value;
    [String] raises a TypeError on the others. *)
Class JsStrings : Type := {
  js_String : jsval → string;
  js_trim : string → string;
  js_toUpperCase : string → string
}.

Section Handler.

Context {strings : JsStrings}.

(** [String(msg.roomId || "").trim().toUpperCase()]; [None] when reading
    [msg.roomId] or [String] raises. *)
Definition joinToken (msg : jsval) : option string :=
  v ← getProp msg "roomId";
  let arg := if truthy v then v else VStr "" in
  if coercible arg then Some (js_toUpperCase (js_trim (js_String arg))) else None.

(** [ws.on("message", (raw) => ...)] for the connection [ws] with identity
    [clientId]; [raw] is [None] when [JSON.parse] fails, and [roomId] is
    what [makeRoomId()] returns if called. *)
Definition onMessage (ws : nat) (clientId roomId : string) (raw : option jsval)
    (rooms : store) : outcome :=
  match raw with
  | None => reject rooms ws "Invalid JSON"
  | Some msg =>
      match getProp msg "type" with
      | None => throws rooms []
      | Some ty =>
          if negb (truthy ty) then done rooms [] else
          let found := findRoom ws rooms in
          match ty with
          | VStr kind =>
              if String.eqb kind "create_room" then create_room ws clientId roomId rooms
              else if String.eqb kind "join_room" then
                match joinToken msg with
                | None => throws rooms []
                | Some token => join_room ws clientId token rooms
                end
              else if String.eqb kind "place_ready" then place_ready ws msg rooms found
              else if String.eqb kind "shot" then shot ws msg rooms found
              else reject rooms ws "Unknown message type"
          | _ => reject rooms ws "Unknown message type"
          end
      end
  end.

(** ** Runs of the server *)

Inductive event : Type :=
  | EMessage (ws : nat) (clientId roomId : string) (raw : option jsval)
  | EClose (ws : nat).

Definition step (e : event) (rooms : store) : outcome :=
  match e with
  | EMessage ws clientId roomId raw => onMessage ws clientId roomId raw rooms
  | EClose ws => let '(rooms1, out) := onClose ws rooms in done rooms1 out
  end.

(** The events are handled one after the other; an uncaught TypeError ends
    the run. *)
Fixpoint run (es : list event) (rooms : store) : outcome :=
  match es with
  | [] => done rooms []
  | e :: rest =>
      let o := step e rooms in
      if raised o then o
      else
        let o' := run rest (rooms_after o) in
        Outcome (rooms_after o') (sent o ++ sent o') (raised o')
  end.

(** Whether a message asks for a slot: its type is [create_room] or
    [join_room]. *)
Definition attaches (raw : option jsval) : bool :=
  match raw with
  | Some msg =>
      match getProp msg "type" with
      | Some (VStr kind) => String.eqb kind "create_room" || String.eqb kind "join_room"
      | _ => false
      end
  | None => false
  end.

(** A run in which a connection asks for a slot only while it holds none. *)
Fixpoint disciplined (es : list event) (rooms : store) : Prop :=
  match es with
  | [] => True
  | e :: rest =>
      match e with
      | EMessage ws _ _ raw => attaches raw = true → findRoom ws rooms = None
      | EClose _ => True
      end ∧
      (raised (step e rooms) = false → disciplined rest (rooms_after (step e rooms)))
  end.

(** The rooms reached when the connections [a] and [b] send shot messages
    only. *)
Inductive shotsOnly (a b : nat) (rooms : store) : store → Prop :=
  | shotsOnly_refl : shotsOnly a b rooms rooms
  | shotsOnly_step rooms' ws clientId roomId msg :
      shotsOnly a b rooms rooms' → ws = a ∨ ws = b →
      getProp msg "type" = Some (VStr "shot") →
      shotsOnly a b rooms (rooms_after (onMessage ws clientId roomId (Some msg) rooms')).

End Handler.

(** ** Sample data for the scenarios

    Room tokens in the scenarios are upper-case strings without blanks, on
    which the three string built-ins are the identity. *)

Definition tokenString (v : jsval) : string :=
  match v with
  | VStr s => s
  | _ => ""
  end.

Definition sampleStrings : JsStrings :=
  {| js_String := tokenString; js_trim := λ s, s; js_toUpperCase := λ s, s |}.

Definition handle := onMessage (strings := sampleStrings).
Definition runEvents := run (strings := sampleStrings).

(** A fleet, as a client sends it. *)
Definition jcell (x y : Z) : jsval := VObj [("x", VNum x); ("y", VNum y)].
Definition jship (cells : list (Z * Z)) : jsval :=
  VObj [("cells", VArr (map (λ c, jcell c.1 c.2) cells))].
Definition jplacement (ships : list (list (Z * Z))) : jsval :=
  VObj [("ships", VArr (map jship ships))].

Definition fleetA : list ShipCells :=
  [ [(0,0); (1,0); (2,0); (3,0); (4,0)];
    [(0,2); (0,3); (0,4); (0,5)];
    [(5,5); (6,5); (7,5)];
    [(9,7); (9,9); (9,8)];
    [(3,8); (4,8)] ].

(** The same, each ship with a [size] and a [dir] beside its cells. *)
Definition jshipTagged (cells : list (Z * Z)) : jsval :=
  VObj [("size", VNum (Z.of_nat (length cells))); ("dir", VStr "h");
        ("cells", VArr (map (λ c, jcell c.1 c.2) cells))].
Definition jplacementTagged (ships : list (list (Z * Z))) : jsval :=
  VObj [("ships", VArr (map jshipTagged ships)); ("ready", VBool true)].

(** [fleetA] with its ships, and the cells of each ship, in reverse order *)
Definition fleetAReversed : list ShipCells := rev (map (@rev (Z * Z)) fleetA).

(** [fleetA] followed by a sixth entry that is [null]; by a sixth ship. *)
Definition sixWithNull : jsval := VObj [("ships", VArr (map jship fleetA ++ [VNull]))].
Definition sixShips : jsval := jplacement (fleetA ++ [[(6, 0); (7, 0)]]).

Definition msgCreate : jsval := VObj [("type", VStr "create_room")].
Definition msgJoin (token : string) : jsval :=
  VObj [("type", VStr "join_room"); ("roomId", VStr token)].
Definition msgPlace (fleet : list ShipCells) : jsval :=
  VObj [("type", VStr "place_ready"); ("placement", jplacement fleet)].
Definition msgShot (x y : Z) : jsval :=
  VObj [("type", VStr "shot"); ("x", VNum x); ("y", VNum y)].

Definition msgOf (ws : nat) (m : jsval) : event := EMessage ws "uuid" "ROOM01" (Some m).

(** Two connections, 1 and 2, set up a game. *)
Definition setup : list event :=
  [ msgOf 1 msgCreate; msgOf 2 (msgJoin "ROOM01");
    msgOf 1 (msgPlace fleetA); msgOf 2 (msgPlace fleetA) ].

(** The same fleet with its first ship one row lower. *)
Definition fleetB : list ShipCells :=
  [(0,1); (1,1); (2,1); (3,1); (4,1)] :: tail fleetA.

(** The rooms once both players are ready. *)
Definition afterSetup : store :=
  Eval vm_compute in rooms_after (runEvents setup []).

(** Connection 1 then hits the cell (0,0) of connection 2. *)
Definition afterFirstHit : store :=
  Eval vm_compute in
    rooms_after (handle 1 "uuid" "ROOM01" (Some (msgShot 0 0)) afterSetup).

(** Connection 1 hits every cell of the fleet of connection 2 but the last
    one, (4,8). *)
Definition beforeWin : store :=
  Eval vm_compute in
    rooms_after
      (runEvents (map (λ c, msgOf 1 (msgShot c.1 c.2)) (removelast (concat fleetA)))
                 afterSetup).

(** Connection 2 leaves the started game. *)
Definition afterLeave : store :=
  Eval vm_compute in rooms_after (runEvents [EClose 2] afterSetup).

(** The rooms after the winning shot of connection 1 at (4,8). *)
Definition afterWin : store :=
  rooms_after (handle 1 "uuid" "ROOM01" (Some (msgShot 4 8)) beforeWin).

(** The cell [(x,y)] of the grid of slot [j] of the room at position [i] *)
Definition slotCell (rooms : store) (i j : nat) (x y : Z) : option Cell :=
  e ← rooms !! i; p ← Room.players e.2 !! j; g ← Player.grid p; cellAt g x y.

Definition slotShips (rooms : store) (i j : nat) : option (list ShipCells) :=
  e ← rooms !! i; p ← Room.players e.2 !! j; Player.ships p.

(** * The specification's notions *)

(** ** Valid placements, in the specification's words

    A placement is a list of ships, each a list of integer coordinate
    pairs; the multiset of ship sizes is {5,4,3,3,2}; every coordinate lies
    in [0,9]x[0,9]; no two ships occupy the same cell; each ship lies on a
    single row or a single column, and is contiguous along the varying
    axis. *)

Module PlacementSpec.

(** [a, a+1, ..., a+n-1] *)
Fixpoint upFrom (a : Z) (n : nat) : list Z :=
  match n with
  | O => []
  | S n' => a :: upFrom (a + 1) n'
  end.

Definition inBounds (c : Z * Z) : Prop :=
  0 ≤ c.1 < SIZE ∧ 0 ≤ c.2 < SIZE.

(** The shape of every grid the server builds: [SIZE] rows of [SIZE] cells *)
Definition wfGrid (g : Grid) : Prop :=
  length g = Z.to_nat SIZE ∧ Forall (λ row, length row = Z.to_nat SIZE) g.

(** An integer coordinate pair *)
Definition cellOf (c : jsval) : option (Z * Z) :=
  match c with
  | VObj fields =>
      match lookupField "x" fields, lookupField "y" fields with
      | VNum x, VNum y => Some (x, y)
      | _, _ => None
      end
  | _ => None
  end.

(** A ship: an object whose [cells] is a list of coordinate pairs *)
Definition shipOf (s : jsval) : option ShipCells :=
  match s with
  | VObj fields =>
      match lookupField "cells" fields with
      | VArr cells => mapM cellOf cells
      | _ => None
      end
  | _ => None
  end.

(** A placement: an object whose [ships] is a list of ships *)
Definition fleetOf (placement : jsval) : option (list ShipCells) :=
  match placement with
  | VObj fields =>
      match lookupField "ships" fields with
      | VArr ships => mapM shipOf ships
      | _ => None
      end
  | _ => None
  end.

(** The multiset of ship sizes is {5,4,3,3,2}. *)
Definition sizesOk (fleet : list ShipCells) : Prop :=
  length <$> fleet ≡ₚ [5; 4; 3; 3; 2]%nat.

Definition allInBounds (fleet : list ShipCells) : Prop :=
  Forall (Forall inBounds) fleet.

(** No two ships occupy the same cell. *)
Definition noOverlap (fleet : list ShipCells) : Prop :=
  ∀ i j s t c, i ≠ j → fleet !! i = Some s → fleet !! j = Some t → c ∈ s → c ∉ t.

(** The cells lie on a single row, or on a single column, and the
    coordinates along it are consecutive integers in some order. *)
Definition straightContiguous (s : ShipCells) : Prop :=
  (∃ y a, Forall (λ c, c.2 = y) s ∧ s.*1 ≡ₚ upFrom a (length s)) ∨
  (∃ x a, Forall (λ c, c.1 = x) s ∧ s.*2 ≡ₚ upFrom a (length s)).

Definition validPlacement (placement : jsval) : Prop :=
  ∃ fleet, fleetOf placement = Some fleet ∧ sizesOk fleet ∧ allInBounds fleet ∧
           noOverlap fleet ∧ Forall straightContiguous fleet.

(** The validator accepts the placement. *)
Definition accepted (placement : jsval) : Prop :=
  ∃ g fleet, validatePlacement placement = VOk g fleet.

(** The grid shows a ship exactly on the cells of [marked], and is empty
    elsewhere. *)
Definition marks (g : Grid) (marked : list (Z * Z)) : Prop :=
  wfGrid g ∧
  ∀ x y, inBounds (x, y) →
         cellAt g x y = Some (if decide ((x, y) ∈ marked) then Ship else Empty).

End PlacementSpec.
Import PlacementSpec.

(** ** Slots

    The connections that hold a slot, room by room and slot by slot; a
    connection that holds several slots is listed once for each. *)

Definition connections (rooms : store) : list nat :=
  e ← rooms; Player.ws <$> Room.players e.2.

(** ** How a message may change a slot

    [slotChange ws msg p p'] relates a slot before and after the message
    [msg] of the connection [ws]: the connection of the slot stays, and
    either its grid and fleet stay; or the message is a [place_ready] of the
    slot's connection, whose validated grid (ships on the fleet's cells,
    empty elsewhere) and fleet are stored; or the message is a shot, the
    fleet stays, and the grid changes at the targeted cell only, from [Ship]
    to [Hit] or from [Empty] to [Miss]. *)

Definition slotChange (ws : nat) (msg : jsval) (p p' : Player.t) : Prop :=
  Player.ws p' = Player.ws p ∧
  ((Player.grid p' = Player.grid p ∧ Player.ships p' = Player.ships p) ∨
   (∃ placement g fleet,
      getProp msg "type" = Some (VStr "place_ready") ∧ Player.ws p = ws ∧
      getProp msg "placement" = Some placement ∧
      validatePlacement placement = VOk g fleet ∧ marks g (concat fleet) ∧
      Player.grid p' = Some g ∧ Player.ships p' = Some fleet) ∨
   (∃ g g' x y,
      getProp msg "type" = Some (VStr "shot") ∧
      getProp msg "x" = Some (VNum x) ∧ getProp msg "y" = Some (VNum y) ∧
      Player.grid p = Some g ∧ Player.grid p' = Some g' ∧
      Player.ships p' = Player.ships p ∧
      ((cellAt g x y = Some Ship ∧ cellAt g' x y = Some Hit) ∨
       (cellAt g x y = Some Empty ∧ cellAt g' x y = Some Miss)) ∧
      ∀ x' y', (x', y') ≠ (x, y) → cellAt g' x' y' = cellAt g x' y')).

(** ** Well-formed rooms

    A slot has neither grid nor fleet, or a grid of [SIZE] rows of [SIZE]
    cells and a fleet whose cells lie inside it. *)

Definition wfPlayer (p : Player.t) : Prop :=
  match Player.grid p, Player.ships p with
  | None, None => True
  | Some g, Some fleet => wfGrid g ∧ allInBounds fleet
  | _, _ => False
  end.

Definition wfRooms (rooms : store) : Prop :=
  Forall (λ e, Forall wfPlayer (Room.players e.2)) rooms.

(** ** A room after a win

    The connection [ws], at slot [pIndex] of the room at position [i], holds
    the turn of the started room, facing [ws'] at slot [pIndex']; every ship
    of the other slot is sunk. *)

Definition wonRoom (ws ws' : nat) (i pIndex pIndex' : nat) (rooms : store) : Prop :=
  ∃ room defender g fleet,
    findRoom ws rooms = Some (i, room, pIndex) ∧
    findRoom ws' rooms = Some (i, room, pIndex') ∧
    Room.started room = true ∧ Room.turn room = pIndex ∧
    Room.players room !! otherIndex pIndex = Some defender ∧
    Player.grid defender = Some g ∧ Player.ships defender = Some fleet ∧
    allShipsSunk g fleet = true.

(** ** Shots sent in a row by one connection *)

Definition shotsFrom (ws : nat) (clientId roomId : string) (msgs : list jsval) : list event :=
  map (λ m, EMessage ws clientId roomId (Some m)) msgs.

(** ** Outputs without error messages *)

Definition isError (m : outmsg) : bool :=
  match m with
  | MError _ => true
  | _ => false
  end.

Definition noErrors (out : sends) : bool := forallb (λ cm, negb (isError cm.2)) out.
Arguments noErrors : simpl never.

(** ** Invariants of the rooms

    The shape of a stored room: one or two players, the turn at slot 0 or
    slot 1, and at slot 0 until the game starts. *)

Definition roomShape (room : Room.t) : Prop :=
  (1 ≤ length (Room.players room) ≤ 2)%nat ∧ (Room.turn room < 2)%nat ∧
  (Room.started room = false → Room.turn room = O).

Definition shapedRooms (rooms : store) : Prop := Forall (λ e, roomShape e.2) rooms.

(** The grid shows [Ship] or [Hit] exactly on the cells of the fleet. *)
Definition placedOn (g : Grid) (fleet : list ShipCells) : Prop :=
  ∀ x y, inBounds (x, y) →
    (cellAt g x y = Some Ship ∨ cellAt g x y = Some Hit) ↔ (x, y) ∈ concat fleet.

(** A slot that is not ready has neither grid nor fleet; a ready slot has a
    grid of [SIZE] rows of [SIZE] cells and a fleet of the five sizes, inside
    the grid, without a shared cell, on whose cells, and only there, the grid
    shows a ship or a hit. *)
Definition soundPlayer (p : Player.t) : Prop :=
  match Player.grid p, Player.ships p with
  | None, None => Player.ready p = false
  | Some g, Some fleet =>
      Player.ready p = true ∧ wfGrid g ∧ sizesOk fleet ∧ allInBounds fleet ∧
      noOverlap fleet ∧ placedOn g fleet
  | _, _ => False
  end.

Definition soundRooms (rooms : store) : Prop :=
  Forall (λ e, Forall soundPlayer (Room.players e.2)) rooms.

(** The connections of the slots of a room, in slot order *)
Definition roomConnections (room : Room.t) : list nat := Player.ws <$> Room.players room.

(** [null] or [undefined] *)
Definition nullish (v : jsval) : Prop := v = VNull ∨ v = VUndefined.

(** ** Fleets

    The conditions of a valid placement, on the fleet it decodes to. *)
Definition validFleet (fleet : list ShipCells) : Prop :=
  sizesOk fleet ∧ allInBounds fleet ∧ noOverlap fleet ∧ Forall straightContiguous fleet.

(** A ship on a single row whose cells differ in [x]; on a single column
    whose cells differ in [y]. *)
Definition rowShip (pts : ShipCells) : Prop :=
  (∃ y, Forall (λ c, c.2 = y) pts) ∧ NoDup pts.*1.
Definition colShip (pts : ShipCells) : Prop :=
  (∃ x, Forall (λ c, c.1 = x) pts) ∧ NoDup pts.*2.

(** What a reason of the validator says of the ship [s], when the cells of
    [taken] are those of the ships listed before it. *)
Definition shipDefect (taken : list (Z * Z)) (s : jsval) (e : string) : Prop :=
  (e = "Invalid ship cells" ∧
   ∀ cells, getProp s "cells" = Some (VArr cells) → (length cells < 2)%nat) ∨
  ∃ cells, getProp s "cells" = Some (VArr cells) ∧
    ((e = "Invalid coords" ∧ ∃ c, c ∈ cells ∧ ¬ nullish c ∧ cellOf c = None) ∨
     (e = "Out of bounds" ∧ ∃ c xy, c ∈ cells ∧ cellOf c = Some xy ∧ ¬ inBounds xy) ∨
     (e = "Overlapping ships" ∧ ∃ c xy, c ∈ cells ∧ cellOf c = Some xy ∧ xy ∈ taken) ∨
     (∃ pts, mapM cellOf cells = Some pts ∧
        ((e = "Ship must be straight" ∧ ¬ rowShip pts ∧ ¬ colShip pts) ∨
         (e = "Ship cells must be contiguous" ∧ (rowShip pts ∨ colShip pts) ∧
          ¬ straightContiguous pts)))).

(** The same ships with the same cells, the ships and the cells of each
    ship listed in any order. *)
Definition sameFleet (fleet fleet' : list ShipCells) : Prop :=
  ∃ mid, fleet ≡ₚ mid ∧ Forall2 (≡ₚ) mid fleet'.

(** * Properties *)

(** ** Sorting and the contiguity check *)

Section Sorting.

Lemma insertNum_perm a l : insertNum a l ≡ₚ a :: l.
Proof.
  induction l as [|b l IH]; simpl; [done|].
  destruct (a <=? b); [done|].
  rewrite IH. apply perm_swap.
Qed.

Lemma sortNum_perm l : sortNum l ≡ₚ l.
Proof.
  induction l as [|a l IH]; simpl; [done|].
  unfold sortNum in *. rewrite insertNum_perm. by rewrite IH.
Qed.

Lemma insertNum_sorted a l : Sorted Z.le l → Sorted Z.le (insertNum a l).
Proof.
  induction 1 as [|b l Hs IH Hhd]; simpl.
  - repeat constructor.
  - destruct (Z.leb_spec a b).
    + constructor; [by constructor|]. by constructor.
    + constructor; [done|].
      destruct Hhd as [|c l Hbc]; simpl.
      * constructor. lia.
      * destruct (a <=? c); constructor; lia.
Qed.

Lemma sortNum_sorted l : Sorted Z.le (sortNum l).
Proof.
  induction l as [|a l IH]; simpl; [constructor|].
  by apply insertNum_sorted.
Qed.

Lemma sortNum_unique l1 l2 : l1 ≡ₚ l2 → sortNum l1 = sortNum l2.
Proof.
  intros Hp. apply (Sorted_unique Z.le); try apply sortNum_sorted.
  by rewrite !sortNum_perm.
Qed.

Lemma sortNum_of_sorted l : Sorted Z.le l → sortNum l = l.
Proof.
  intros Hs. apply (Sorted_unique Z.le); [apply sortNum_sorted|done|apply sortNum_perm].
Qed.

Lemma length_sortNum l : length (sortNum l) = length l.
Proof. by rewrite sortNum_perm. Qed.

Lemma length_upFrom a n : length (upFrom a n) = n.
Proof. revert a; induction n; intros; simpl; auto. Qed.

Lemma elem_of_upFrom a n x : x ∈ upFrom a n ↔ a ≤ x < a + Z.of_nat n.
Proof.
  revert a; induction n as [|n IH]; intros a; simpl.
  - rewrite elem_of_nil. lia.
  - rewrite elem_of_cons, IH. lia.
Qed.

Lemma upFrom_sorted a n : Sorted Z.le (upFrom a n).
Proof.
  revert a; induction n as [|n IH]; intros a; simpl; [constructor|].
  constructor; [apply IH|]. destruct n; simpl; constructor. lia.
Qed.

Lemma upFrom_NoDup a n : NoDup (upFrom a n).
Proof.
  revert a; induction n as [|n IH]; intros a; simpl; constructor; [|apply IH].
  rewrite elem_of_upFrom. lia.
Qed.

Lemma stepOne_upFrom l : stepOne l = true ↔ ∃ a, l = upFrom a (length l).
Proof.
  induction l as [|a [|b l] IH].
  - split; [by exists 0|done].
  - split; [by exists a|done].
  - change (stepOne (a :: b :: l)) with ((b =? a + 1) && stepOne (b :: l)).
    rewrite andb_true_iff, IH, Z.eqb_eq. split.
    + intros [-> [a' Ha']]. exists a. simpl in *. by injection Ha' as <- <-.
    + intros [a' Ha']. simpl in Ha'. injection Ha' as <- -> Hl.
      split; [done|]. exists (a + 1). simpl. by rewrite <- Hl.
Qed.

(** The sorted coordinates step by one exactly when the coordinates are a
    rearrangement of a run of consecutive integers. *)
Lemma contiguous_iff xs :
  stepOne (sortNum xs) = true ↔ ∃ a, xs ≡ₚ upFrom a (length xs).
Proof.
  rewrite stepOne_upFrom, length_sortNum. split; intros [a Ha]; exists a.
  - by rewrite <- Ha, sortNum_perm.
  - rewrite (sortNum_unique _ _ Ha). apply sortNum_of_sorted, upFrom_sorted.
Qed.

End Sorting.

(** ** Set sizes *)

Section SetSize.

Lemma length_remove_dups_le (l : list Z) : (length (remove_dups l) ≤ length l)%nat.
Proof.
  induction l as [|x l IH]; simpl; [lia|].
  case_decide; simpl; lia.
Qed.

Lemma setSize_full (l : list Z) : setSize l = length l ↔ NoDup l.
Proof.
  unfold setSize. induction l as [|x l IH]; simpl.
  - split; [constructor|done].
  - pose proof (length_remove_dups_le l). rewrite NoDup_cons. case_decide; simpl.
    + split; [lia|]. by intros [? _].
    + split.
      * intros Hl. split; [done|]. apply IH. lia.
      * intros [_ Hnd]. f_equal. by apply IH.
Qed.

Lemma setSize_one (l : list Z) :
  setSize l = 1%nat ↔ ∃ y, l ≠ [] ∧ Forall (λ z, z = y) l.
Proof.
  unfold setSize. split.
  - intros Hl. destruct (remove_dups l) as [|y [|]] eqn:Hr; try done.
    exists y. split.
    + intros ->. done.
    + apply Forall_forall. intros z Hz.
      apply elem_of_remove_dups in Hz. rewrite Hr in Hz.
      by apply list_elem_of_singleton in Hz.
  - intros (y & Hne & Hall).
    induction Hall as [|x l -> Hall IH]; [done|]. simpl.
    destruct l as [|x' l'].
    + done.
    + case_decide as Hin; [by apply IH|].
      exfalso. apply Hin. inversion Hall; subst. left.
Qed.

End SetSize.

(** ** Grids *)

Section Grids.

Lemma wfGrid_empty : wfGrid emptyGrid.
Proof.
  split; [apply length_replicate|].
  apply Forall_replicate, length_replicate.
Qed.

Lemma cellAt_empty x y : inBounds (x, y) → cellAt emptyGrid x y = Some Empty.
Proof.
  intros [[? ?] [? ?]]; cbn [fst snd] in *. unfold cellAt, emptyGrid, SIZE in *.
  rewrite !(proj2 (Z.leb_le _ _)) by lia. cbn [andb].
  rewrite lookup_replicate_2 by lia. cbn [mbind option_bind].
  by rewrite lookup_replicate_2 by lia.
Qed.

Lemma wfGrid_setCell g x y v : wfGrid g → wfGrid (setCell g x y v).
Proof.
  intros [Hl Hrows]. split; unfold setCell.
  - by rewrite length_alter.
  - apply Forall_alter; [done|]. intros row _ Hrow.
    by rewrite length_insert.
Qed.

Lemma cellAt_is_Some g x y : wfGrid g → inBounds (x, y) → is_Some (cellAt g x y).
Proof.
  intros [Hl Hrows] [[? ?] [? ?]]; simpl in *. unfold cellAt, SIZE in *.
  rewrite !(proj2 (Z.leb_le _ _)) by lia. simpl.
  destruct (lookup_lt_is_Some_2 g (Z.to_nat y)) as [row Hrow]; [lia|].
  rewrite Hrow. simpl. apply lookup_lt_is_Some_2.
  pose proof (Forall_lookup_1 _ _ _ _ Hrows Hrow) as Hlen. simpl in Hlen. lia.
Qed.

Lemma cellAt_setCell_eq g x y v :
  wfGrid g → inBounds (x, y) → cellAt (setCell g x y v) x y = Some v.
Proof.
  intros Hwf Hin. destruct (cellAt_is_Some g x y Hwf Hin) as [c Hc].
  destruct Hin as [[? ?] [? ?]]; simpl in *. unfold cellAt, setCell in *.
  rewrite !(proj2 (Z.leb_le _ _)) in * by lia. simpl in *.
  rewrite list_lookup_alter_eq.
  destruct (g !! Z.to_nat y) as [row|]; simpl in *; [|done].
  apply list_lookup_insert_eq. by eapply lookup_lt_Some.
Qed.

Lemma cellAt_setCell_ne g x y v x' y' :
  0 ≤ x → 0 ≤ y → (x', y') ≠ (x, y) → cellAt (setCell g x y v) x' y' = cellAt g x' y'.
Proof.
  intros Hx Hy Hne. unfold cellAt, setCell.
  destruct (Z.leb_spec 0 x'), (Z.leb_spec 0 y'); simpl; try done.
  destruct (decide (Z.to_nat y = Z.to_nat y')) as [Heq|Hneq].
  - rewrite Heq, list_lookup_alter_eq.
    destruct (g !! Z.to_nat y') as [row|]; simpl; [|done].
    apply list_lookup_insert_ne. intros Hxx. apply Hne. f_equal; lia.
  - by rewrite list_lookup_alter_ne.
Qed.

Lemma cellAt_setCell g x y v x' y' :
  wfGrid g → inBounds (x, y) →
  cellAt (setCell g x y v) x' y' =
    if decide ((x', y') = (x, y)) then Some v else cellAt g x' y'.
Proof.
  intros Hwf Hin. case_decide as Heq.
  - injection Heq as -> ->. by apply cellAt_setCell_eq.
  - destruct Hin as [[? ?] [? ?]]; simpl in *. by apply cellAt_setCell_ne.
Qed.

Lemma cellAt_setCell_same g x y v c :
  cellAt g x y = Some c → cellAt (setCell g x y v) x y = Some v.
Proof.
  unfold cellAt, setCell. destruct (_ && _); [|done].
  rewrite list_lookup_alter_eq.
  destruct (g !! Z.to_nat y) as [row|]; cbn; [|done].
  intros Hc. apply list_lookup_insert_eq. by eapply lookup_lt_Some.
Qed.

Lemma cellAt_setCell_other g x y v x' y' :
  cellAt g x y ≠ None → (x', y') ≠ (x, y) →
  cellAt (setCell g x y v) x' y' = cellAt g x' y'.
Proof.
  intros Hc Hne. apply cellAt_setCell_ne; [| |done].
  - unfold cellAt in Hc. destruct (Z.leb_spec 0 x); [done|]. by cbn in Hc.
  - unfold cellAt in Hc. destruct (Z.leb_spec 0 y); [done|].
    by rewrite andb_false_r in Hc.
Qed.

End Grids.

(** ** The placement validator *)

Section Validator.

Local Instance VNum_inj : Inj (=) (=) VNum.
Proof. by intros ?? [=]. Qed.

Lemma cellOf_getProp c x y :
  cellOf c = Some (x, y) ↔
  getProp c "x" = Some (VNum x) ∧ getProp c "y" = Some (VNum y).
Proof.
  destruct c as [| | | | | |items|fields]; simpl; try (split; [done|intros [? ?]; done]).
  destruct (lookupField "x" fields), (lookupField "y" fields);
    split; try done; try (intros [? ?]; done).
  - by intros [= -> ->].
  - by intros [[= ->] [= ->]].
Qed.

Lemma shipOf_getProp s pts :
  shipOf s = Some pts ↔
  ∃ cells, getProp s "cells" = Some (VArr cells) ∧ mapM cellOf cells = Some pts.
Proof.
  destruct s as [| | | | | |items|fields]; simpl;
    try (split; [done|intros (? & ? & ?); done]).
  destruct (lookupField "cells" fields); split; try done;
    try (intros (? & ? & ?); done); eauto.
  by intros (? & [= <-] & ?).
Qed.

Lemma shipOf_shipSize s pts :
  shipOf s = Some pts → shipSize s = Some (VNum (Z.of_nat (length pts))).
Proof.
  intros (cells & Hc & Hm)%shipOf_getProp. unfold shipSize. rewrite Hc. simpl.
  by rewrite (length_mapM _ _ _ Hm).
Qed.

Lemma outOfBounds_false x y :
  (x <? 0) || (x >=? SIZE) || (y <? 0) || (y >=? SIZE) = false ↔ inBounds (x, y).
Proof.
  unfold inBounds, SIZE. cbn [fst snd].
  rewrite !orb_false_iff, !Z.ltb_ge, !Z.geb_leb, !Z.leb_gt. lia.
Qed.

Lemma checkCells_cons g c cells pts :
  checkCells g (c :: cells) = Ok pts ↔
  ∃ x y pts', cellOf c = Some (x, y) ∧ inBounds (x, y) ∧
              cellAt g x y ≠ Some Ship ∧ checkCells g cells = Ok pts' ∧
              pts = (x, y) :: pts'.
Proof.
  cbn [checkCells]. split.
  - destruct (getProp c "x") as [vx|] eqn:Hx; [|done].
    destruct (getProp c "y") as [vy|] eqn:Hy; [|by destruct vx].
    destruct vx as [| | |x| | | |]; try done.
    destruct vy as [| | |y| | | |]; try done.
    destruct (_ || _) eqn:Hb; [done|]. apply outOfBounds_false in Hb.
    case_bool_decide as Hs; [done|].
    destruct (checkCells g cells) as [pts'| |]; cbn; try done.
    intros [= <-]. exists x, y, pts'.
    split; [by apply cellOf_getProp|done].
  - intros (x & y & pts' & [-> ->]%cellOf_getProp & Hb%outOfBounds_false & Hs & -> & ->).
    rewrite Hb. by rewrite bool_decide_false.
Qed.

Lemma checkCells_Ok g cells pts :
  checkCells g cells = Ok pts ↔
  mapM cellOf cells = Some pts ∧ Forall inBounds pts ∧
  Forall (λ c, cellAt g c.1 c.2 ≠ Some Ship) pts.
Proof.
  revert pts. induction cells as [|c cells IH]; intros pts.
  - simpl. split.
    + intros [= <-]. by repeat split.
    + by intros ([= <-] & _).
  - rewrite checkCells_cons. change (mapM cellOf (c :: cells)) with
      (p ← cellOf c; k ← mapM cellOf cells; mret (p :: k)). split.
    + intros (x & y & pts' & -> & Hb & Hs & (-> & Hbs & Hss)%IH & ->). cbn.
      split; [done|]. split; by constructor.
    + intros (Hm & Hbs & Hss).
      destruct (cellOf c) as [[x y]|]; [|done]. cbn in Hm.
      destruct (mapM cellOf cells) as [pts'|]; [|done]. cbn in Hm.
      injection Hm as <-.
      apply Forall_cons_1 in Hbs as [Hb Hbs]. apply Forall_cons_1 in Hss as [Hs Hss].
      exists x, y, pts'. split_and!; try done. by apply IH.
Qed.

(** Writing a list of cells into a grid. *)
Lemma write_cells g cs :
  wfGrid g → Forall inBounds cs →
  let g' := foldl (λ g0 c, setCell g0 c.1 c.2 Ship) g cs in
  wfGrid g' ∧
  ∀ x y, cellAt g' x y = if decide ((x, y) ∈ cs) then Some Ship else cellAt g x y.
Proof.
  revert g. induction cs as [|[cx cy] cs IH]; intros g Hwf Hb; cbn [foldl].
  - split; [done|]. intros x y. by rewrite decide_False by apply not_elem_of_nil.
  - apply Forall_cons_1 in Hb as [Hc Hb].
    destruct (IH (setCell g cx cy Ship) (wfGrid_setCell _ _ _ _ Hwf) Hb) as [Hwf' Hcell].
    split; [done|]. intros x y. rewrite Hcell.
    cbn [fst snd]. rewrite cellAt_setCell by done.
    destruct (decide ((x, y) ∈ cs)) as [Hin|Hnin].
    + rewrite decide_True; [done|by right].
    + destruct (decide ((x, y) = (cx, cy))) as [->|Hne].
      * rewrite decide_True; [done|left].
      * rewrite decide_False; [done|]. by intros [?|?]%elem_of_cons.
Qed.

Lemma marks_write g marked cs pts :
  marks g marked → Forall inBounds cs → (∀ c, c ∈ cs ↔ c ∈ pts) →
  marks (foldl (λ g0 c, setCell g0 c.1 c.2 Ship) g cs) (marked ++ pts).
Proof.
  intros [Hwf Hm] Hb Hsame.
  destruct (write_cells g cs Hwf Hb) as [Hwf' Hcell].
  split; [done|]. intros x y Hxy. rewrite Hcell, (Hm x y Hxy).
  destruct (decide ((x, y) ∈ cs)) as [Hin|Hnin].
  - rewrite decide_True; [done|]. apply elem_of_app. right. by apply Hsame.
  - destruct (decide ((x, y) ∈ marked)) as [Hm'|Hm'].
    + rewrite decide_True; [done|]. apply elem_of_app. by left.
    + rewrite decide_False; [done|]. intros [?|?%Hsame]%elem_of_app; done.
Qed.

Lemma marks_empty : marks emptyGrid [].
Proof.
  split; [apply wfGrid_empty|]. intros x y Hxy.
  rewrite decide_False by apply not_elem_of_nil. by apply cellAt_empty.
Qed.

Lemma marks_free g marked pts :
  marks g marked → Forall inBounds pts →
  Forall (λ c, cellAt g c.1 c.2 ≠ Some Ship) pts ↔ Forall (λ c, c ∉ marked) pts.
Proof.
  intros [_ Hm] Hb. rewrite !Forall_forall. split; intros H [x y] Hin.
  - specialize (H _ Hin). cbn in H.
    rewrite (Hm x y) in H by (by eapply Forall_forall in Hb).
    by case_decide.
  - cbn. rewrite (Hm x y) by (by eapply Forall_forall in Hb).
    specialize (H _ Hin). by rewrite decide_False.
Qed.

Lemma row_cells (pts : list (Z * Z)) y0 c :
  Forall (λ c, c.2 = y0) pts →
  c ∈ (λ x, (x, y0)) <$> sortNum pts.*1 ↔ c ∈ pts.
Proof.
  intros Hy. rewrite list_elem_of_fmap. setoid_rewrite sortNum_perm.
  setoid_rewrite list_elem_of_fmap. rewrite Forall_forall in Hy. split.
  - intros (x & -> & [x' y'] & -> & Hin). cbn. by rewrite <- (Hy _ Hin).
  - intros Hin. exists c.1. split; [|by exists c].
    rewrite <- (Hy _ Hin). by destruct c.
Qed.

Lemma column_cells (pts : list (Z * Z)) x0 c :
  Forall (λ c, c.1 = x0) pts →
  c ∈ (λ y, (x0, y)) <$> sortNum pts.*2 ↔ c ∈ pts.
Proof.
  intros Hx. rewrite list_elem_of_fmap. setoid_rewrite sortNum_perm.
  setoid_rewrite list_elem_of_fmap. rewrite Forall_forall in Hx. split.
  - intros (y & -> & [x' y'] & -> & Hin). cbn. by rewrite <- (Hx _ Hin).
  - intros Hin. exists c.2. split; [|by exists c].
    rewrite <- (Hx _ Hin). by destruct c.
Qed.

Lemma placeShip_sound g s g' pts marked :
  marks g marked → placeShip g s = Ok (g', pts) →
  shipOf s = Some pts ∧ (2 ≤ length pts)%nat ∧ Forall inBounds pts ∧
  Forall (λ c, c ∉ marked) pts ∧ straightContiguous pts ∧ marks g' (marked ++ pts).
Proof.
  intros Hm. unfold placeShip.
  destruct (getProp s "cells") as [[| | | | | |cells|]|] eqn:Hcells; try done.
  destruct (Nat.ltb_spec (length cells) 2) as [|Hlen]; [done|].
  destruct (checkCells g cells) as [pts0| |] eqn:Hcheck; cbn; try done.
  apply checkCells_Ok in Hcheck as (Hdec & Hb & Hfree).
  pose proof (length_mapM _ _ _ Hdec) as Hl. rewrite Hl in *.
  destruct (_ && _) eqn:Hstraight; [done|]. cbn.
  destruct pts0 as [|[x0 y0] rest] eqn:Hpts; [done|]. rewrite <- Hpts in *.
  assert (Hhead : (x0, y0) ∈ pts0) by (rewrite Hpts; left).
  destruct ((setSize pts0.*2 =? 1)%nat && (setSize pts0.*1 =? length pts0)%nat)
    eqn:Hhoriz.
  - apply andb_true_iff in Hhoriz as [HY HX].
    apply Nat.eqb_eq, setSize_one in HY as (y & _ & HY).
    apply Forall_fmap in HY. cbn in HY.
    assert (y = y0) as -> by (by rewrite Forall_forall in HY; rewrite <- (HY _ Hhead)).
    destruct (stepOne (sortNum pts0.*1)) eqn:Hstep; [|done]. cbn.
    intros [= <- <-]. split_and!; try done.
    + apply shipOf_getProp. eauto.
    + by eapply marks_free.
    + left. exists y0. apply contiguous_iff in Hstep as [a Ha].
      exists a. rewrite length_fmap in Ha. done.
    + rewrite <- (foldl_fmap (λ g0 c, setCell g0 c.1 c.2 Ship) g _ (λ x, (x, y0))).
      apply marks_write; [done| |intros c; by apply row_cells].
      apply Forall_forall. intros c Hc%row_cells; [|done].
      by eapply Forall_forall in Hb.
  - assert (Hvert : (setSize pts0.*1 =? 1)%nat && (setSize pts0.*2 =? length pts0)%nat = true).
    { cbn in Hstraight. by apply negb_false_iff in Hstraight. }
    apply andb_true_iff in Hvert as [HX HY].
    apply Nat.eqb_eq, setSize_one in HX as (x & _ & HX).
    apply Forall_fmap in HX. cbn in HX.
    assert (x = x0) as -> by (by rewrite Forall_forall in HX; rewrite <- (HX _ Hhead)).
    destruct (stepOne (sortNum pts0.*2)) eqn:Hstep; [|done]. cbn.
    intros [= <- <-]. split_and!; try done.
    + apply shipOf_getProp. eauto.
    + by eapply marks_free.
    + right. exists x0. apply contiguous_iff in Hstep as [a Ha].
      exists a. rewrite length_fmap in Ha. done.
    + rewrite <- (foldl_fmap (λ g0 c, setCell g0 c.1 c.2 Ship) g _ (λ y, (x0, y))).
      apply marks_write; [done| |intros c; by apply column_cells].
      apply Forall_forall. intros c Hc%column_cells; [|done].
      by eapply Forall_forall in Hb.
Qed.

Lemma placeShip_complete g s pts marked :
  marks g marked → shipOf s = Some pts → (2 ≤ length pts)%nat →
  Forall inBounds pts → Forall (λ c, c ∉ marked) pts → straightContiguous pts →
  ∃ g', placeShip g s = Ok (g', pts).
Proof.
  intros Hm (cells & Hcells & Hdec)%shipOf_getProp Hlen Hb Hfree Hline.
  unfold placeShip. rewrite Hcells.
  pose proof (length_mapM _ _ _ Hdec) as Hl. rewrite Hl.
  destruct (Nat.ltb_spec (length pts) 2) as [|_]; [lia|].
  rewrite (proj2 (checkCells_Ok g cells pts)); cycle 1.
  { split_and!; try done. by eapply marks_free. }
  cbn. destruct pts as [|[x0 y0] rest] eqn:Hpts; [simpl in Hlen; lia|].
  rewrite <- Hpts in *.
  assert (Hne1 : pts.*1 ≠ []) by (by rewrite Hpts).
  assert (Hne2 : pts.*2 ≠ []) by (by rewrite Hpts).
  destruct Hline as [(y & a & Hy & Hx)|(x & a & Hx & Hy)].
  - assert (HY : setSize pts.*2 = 1%nat).
    { apply setSize_one. exists y. split; [done|]. by apply Forall_fmap. }
    assert (HX : setSize pts.*1 = length pts).
    { rewrite <- (length_fmap fst pts). apply setSize_full.
      rewrite Hx. apply upFrom_NoDup. }
    rewrite HY, HX, !Nat.eqb_refl. cbn.
    rewrite (proj2 (contiguous_iff pts.*1)); [cbn; eauto|].
    exists a. by rewrite length_fmap.
  - assert (HX : setSize pts.*1 = 1%nat).
    { apply setSize_one. exists x. split; [done|]. by apply Forall_fmap. }
    assert (HY : setSize pts.*2 = length pts).
    { rewrite <- (length_fmap snd pts). apply setSize_full.
      rewrite Hy. apply upFrom_NoDup. }
    rewrite HY, HX, !Nat.eqb_refl.
    destruct (Nat.eqb_spec (length pts) 1) as [|_]; [lia|]. cbn.
    rewrite (proj2 (contiguous_iff pts.*2)); [cbn; eauto|].
    exists a. by rewrite length_fmap.
Qed.

Lemma noOverlap_cons s fleet :
  noOverlap (s :: fleet) ↔
  Forall (λ t, ∀ c, c ∈ s → c ∉ t) fleet ∧ noOverlap fleet.
Proof.
  unfold noOverlap. split.
  - intros H. split.
    + apply Forall_lookup. intros j t Ht c Hc.
      by apply (H O (S j) s t c).
    + intros i j s' t c Hij Hs' Ht. by apply (H (S i) (S j) s' t c); [lia|..].
  - intros [Hs Hrest] [|i] [|j] s' t c Hij; cbn; try done.
    + intros [= <-] Ht. by eapply (Forall_lookup_1 _ _ _ _ Hs Ht).
    + intros Hs' [= <-] Hc Hc'. by eapply (Forall_lookup_1 _ _ _ _ Hs Hs').
    + apply Hrest. lia.
Qed.

Lemma placeShips_sound ships : ∀ g g' fleet marked,
  marks g marked → placeShips g ships = Ok (g', fleet) →
  mapM shipOf ships = Some fleet ∧ Forall (λ s, 2 ≤ length s)%nat fleet ∧
  allInBounds fleet ∧ Forall (Forall (λ c, c ∉ marked)) fleet ∧
  Forall straightContiguous fleet ∧ noOverlap fleet ∧
  marks g' (marked ++ concat fleet).
Proof.
  induction ships as [|s ships IH]; intros g g' fleet marked Hm; cbn [placeShips].
  - intros [= <- <-]. rewrite app_nil_r. split_and!; try done. constructor.
  - destruct (placeShip g s) as [[g1 pts]| |] eqn:Hs; cbn; try done.
    destruct (placeShip_sound _ _ _ _ _ Hm Hs) as (Hdec & Hlen & Hb & Hfree & Hline & Hm1).
    destruct (placeShips g1 ships) as [[g2 fleet']| |] eqn:Hrest; cbn; try done.
    intros [= <- <-].
    destruct (IH _ _ _ _ Hm1 Hrest) as (Hdecs & Hlens & Hbs & Hfrees & Hlines & Hno & Hm2).
    change (mapM shipOf (s :: ships)) with
      (p ← shipOf s; k ← mapM shipOf ships; mret (p :: k)).
    rewrite Hdec, Hdecs. cbn. split_and!; try by constructor.
    + constructor; [done|]. eapply Forall_impl; [apply Hfrees|].
      intros t Ht. eapply Forall_impl; [apply Ht|].
      intros c Hc Hin. apply Hc, elem_of_app. by left.
    + apply noOverlap_cons. split; [|done].
      eapply Forall_impl; [apply Hfrees|]. intros t Ht c Hc Hct.
      rewrite Forall_forall in Ht. apply (Ht c Hct), elem_of_app. by right.
    + by rewrite (assoc (++)).
Qed.

Lemma placeShips_complete ships : ∀ g fleet marked,
  marks g marked → mapM shipOf ships = Some fleet →
  Forall (λ s, 2 ≤ length s)%nat fleet → allInBounds fleet →
  Forall (Forall (λ c, c ∉ marked)) fleet → Forall straightContiguous fleet →
  noOverlap fleet →
  ∃ g', placeShips g ships = Ok (g', fleet).
Proof.
  induction ships as [|s ships IH]; intros g fleet marked Hm Hdec Hlen Hb Hfree Hline Hno.
  - injection Hdec as <-. by exists g.
  - change (mapM shipOf (s :: ships)) with
      (p ← shipOf s; k ← mapM shipOf ships; mret (p :: k)) in Hdec.
    destruct (shipOf s) as [pts|] eqn:Hs; [|done]. cbn in Hdec.
    destruct (mapM shipOf ships) as [fleet'|] eqn:Hss; [|done]. cbn in Hdec.
    injection Hdec as <-.
    apply Forall_cons_1 in Hlen as [Hlen Hlens]. apply Forall_cons_1 in Hb as [Hb Hbs].
    apply Forall_cons_1 in Hfree as [Hfree Hfrees].
    apply Forall_cons_1 in Hline as [Hline Hlines].
    apply noOverlap_cons in Hno as [Hdisj Hno].
    destruct (placeShip_complete g s pts marked) as [g1 Hg1]; try done.
    destruct (placeShip_sound _ _ _ _ _ Hm Hg1) as (_ & _ & _ & _ & _ & Hm1).
    destruct (IH g1 fleet' (marked ++ pts)) as [g2 Hg2]; try done.
    + apply Forall_forall. intros t Ht. apply Forall_forall. intros c Hc.
      intros [Hin|Hin]%elem_of_app.
      * rewrite Forall_forall in Hfrees. specialize (Hfrees t Ht).
        rewrite Forall_forall in Hfrees. by apply (Hfrees c).
      * rewrite Forall_forall in Hdisj. by apply (Hdisj t Ht c).
    + exists g2. cbn [placeShips]. rewrite Hg1. cbn. rewrite Hg2. done.
Qed.

Lemma insertSize_perm a l : insertSize a l ≡ₚ a :: l.
Proof.
  induction l as [|b l IH]; simpl; [done|].
  destruct (sizeLe a b); [done|].
  rewrite IH. apply perm_swap.
Qed.

Lemma sortSizes_perm l : sortSizes l ≡ₚ l.
Proof.
  induction l as [|a l IH]; simpl; [done|].
  unfold sortSizes in *. rewrite insertSize_perm. by rewrite IH.
Qed.

Lemma sortSizes_nums zs : sortSizes (VNum <$> zs) = VNum <$> sortNum zs.
Proof.
  induction zs as [|a zs IH]; [done|].
  cbn [fmap list_fmap]. unfold sortSizes, sortNum in *. cbn [foldr].
  fold (fmap (M:=list) VNum zs). rewrite IH.
  generalize (foldr insertNum [] zs) as l. clear IH.
  induction l as [|b l IH]; [done|]. cbn.
  destruct (a <=? b); [done|]. cbn. by f_equal.
Qed.

Lemma sizesEq_true sizes e : sizesEq sizes e = true ↔ sizes = VNum <$> e.
Proof.
  revert e. induction sizes as [|v sizes IH]; intros [|z e]; cbn; try done.
  rewrite andb_true_iff, IH. split.
  - intros [Hv ->]. destruct v; try done. apply Z.eqb_eq in Hv. by subst.
  - intros [= -> ->]. split; [apply Z.eqb_refl|done].
Qed.

Lemma nums_perm_inv (sizes : list jsval) (e : list Z) :
  sizes ≡ₚ VNum <$> e → ∃ zs, sizes = VNum <$> zs ∧ zs ≡ₚ e.
Proof.
  intros Hp. destruct (Permutation_map_inv VNum e Hp) as (zs & -> & Hzs).
  by exists zs.
Qed.

(** The two size checks pass exactly when the sizes are a rearrangement of
    the expected numbers. *)
Lemma sizes_check sizes :
  length (sortSizes sizes) = length (sortNum SHIP_SIZES) ∧
  sizesEq (sortSizes sizes) (sortNum SHIP_SIZES) = true ↔
  sizes ≡ₚ VNum <$> SHIP_SIZES.
Proof.
  split.
  - intros [_ Heq%sizesEq_true].
    by rewrite <- (sortSizes_perm sizes), Heq, sortNum_perm.
  - intros (zs & -> & Hzs)%nums_perm_inv.
    rewrite sortSizes_nums, (sortNum_unique _ _ Hzs). split; [|by apply sizesEq_true].
    by rewrite !length_fmap.
Qed.

(** Whatever order the engine leaves an array with non-numeric entries in,
    the comparison with the expected sizes comes out as in the model: it is
    enough that the sorted array [q] rearranges the sizes and is ascending
    when it holds numbers only. *)
Lemma sizes_check_any_order sizes q e :
  q ≡ₚ sizes → (∀ zs, q = VNum <$> zs → Sorted Z.le zs) →
  sizesEq q e = sizesEq (sortSizes sizes) e.
Proof.
  intros Hq Hsorted.
  destruct (sizesEq q e) eqn:H1, (sizesEq (sortSizes sizes) e) eqn:H2; try done.
  - apply sizesEq_true in H1 as ->.
    symmetry in Hq. apply nums_perm_inv in Hq as (zs & -> & Hzs).
    rewrite sortSizes_nums, (sortNum_unique _ _ Hzs) in H2.
    rewrite sortNum_of_sorted in H2 by eauto.
    by rewrite (proj2 (sizesEq_true _ _) eq_refl) in H2.
  - apply sizesEq_true in H2.
    assert (Hs : sizes ≡ₚ VNum <$> e) by (by rewrite <- H2, sortSizes_perm).
    destruct (nums_perm_inv _ _ Hs) as (zs' & -> & Hzs').
    rewrite sortSizes_nums in H2. apply (inj (fmap VNum)) in H2.
    rewrite Hs in Hq. apply nums_perm_inv in Hq as (zs & -> & Hzs).
    assert (zs = e) as ->.
    { apply (Sorted_unique Z.le); [eauto| |done]. rewrite <- H2. apply sortNum_sorted. }
    by rewrite (proj2 (sizesEq_true _ _) eq_refl) in H1.
Qed.

Lemma sizes_of_fleet (ships : list jsval) (fleet : list ShipCells) :
  mapM shipOf ships = Some fleet →
  mapM shipSize ships = Some ((λ s : ShipCells, VNum (Z.of_nat (length s))) <$> fleet).
Proof.
  rewrite !mapM_Some. induction 1 as [|s pts ships fleet Hs _ IH]; cbn.
  - constructor.
  - constructor; [by apply shipOf_shipSize|done].
Qed.

Lemma sizesOk_iff (fleet : list ShipCells) :
  sizesOk fleet ↔
  (λ s : ShipCells, VNum (Z.of_nat (length s))) <$> fleet ≡ₚ VNum <$> SHIP_SIZES.
Proof.
  unfold sizesOk.
  change (VNum <$> SHIP_SIZES) with ((VNum ∘ Z.of_nat) <$> [5; 4; 3; 3; 2]%nat).
  replace ((λ s : ShipCells, VNum (Z.of_nat (length s))) <$> fleet)
    with ((VNum ∘ Z.of_nat) <$> (length <$> fleet))
    by (by rewrite <- list_fmap_compose).
  split; [by intros ->|].
  intros Hp.
  destruct (Permutation_map_inv (VNum ∘ Z.of_nat) [5; 4; 3; 3; 2]%nat Hp)
    as (ns & Hns & Hperm).
  apply (inj (fmap (VNum ∘ Z.of_nat))) in Hns. by rewrite Hns.
Qed.

Lemma sizesOk_lengths (fleet : list ShipCells) s :
  sizesOk fleet → s ∈ fleet → (2 ≤ length s ≤ 5)%nat.
Proof.
  intros Hp Hs. assert (Hin : length s ∈ length <$> fleet) by (by apply list_elem_of_fmap_2).
  unfold sizesOk in Hp. rewrite Hp in Hin.
  repeat (apply elem_of_cons in Hin as [->|Hin]; [lia|]).
  by apply elem_of_nil in Hin.
Qed.

Lemma placement_ships placement ships :
  truthy placement = true ∧ getProp placement "ships" = Some (VArr ships) ↔
  ∃ fields, placement = VObj fields ∧ lookupField "ships" fields = VArr ships.
Proof.
  split.
  - intros [_ Hp]. destruct placement as [| | | | | | |fields]; try done.
    injection Hp as Hp. by exists fields.
  - intros (fields & -> & Hf). cbn. by rewrite Hf.
Qed.

Lemma sortThrows_nums {A} (f : A → Z) (l : list A) :
  sortThrows ((λ a, VNum (f a)) <$> l) = false.
Proof.
  unfold sortThrows. apply andb_false_iff. right. apply negb_false_iff.
  induction l as [|a l IH]; [done|]. cbn. exact IH.
Qed.

Lemma validatePlacement_sound placement g fleet :
  validatePlacement placement = VOk g fleet →
  fleetOf placement = Some fleet ∧ sizesOk fleet ∧ allInBounds fleet ∧
  noOverlap fleet ∧ Forall straightContiguous fleet ∧ marks g (concat fleet).
Proof.
  unfold validatePlacement.
  destruct (truthy placement) eqn:Ht; [|done]. cbn [negb].
  destruct (getProp placement "ships") as [[| | | | | |ships|]|] eqn:Hships; try done.
  destruct (proj1 (placement_ships placement ships) (conj Ht Hships))
    as (fields & -> & Hfields).
  destruct (mapM shipSize ships) as [sizes|] eqn:Hsizes; [|done].
  destruct (sortThrows sizes); [done|].
  destruct (Nat.eqb_spec (length (sortSizes sizes)) (length (sortNum SHIP_SIZES)))
    as [Hlen|]; [|done]. cbn [negb].
  destruct (sizesEq (sortSizes sizes) (sortNum SHIP_SIZES)) eqn:Heq; [|done]. cbn [negb].
  destruct (placeShips emptyGrid ships) as [[g' fleet']| |] eqn:Hplace; try done.
  intros [= <- <-].
  destruct (placeShips_sound _ _ _ _ _ marks_empty Hplace)
    as (Hdec & _ & Hb & _ & Hline & Hno & Hm).
  cbn [fleetOf]. rewrite Hfields. split_and!; try done.
  apply sizesOk_iff. rewrite (sizes_of_fleet _ _ Hdec) in Hsizes.
  injection Hsizes as ->. by apply sizes_check.
Qed.

Lemma validatePlacement_complete placement :
  validPlacement placement → accepted placement.
Proof.
  intros (fleet & Hfleet & Hsizes & Hb & Hno & Hline).
  destruct placement as [| | | | | | |fields]; try done. cbn in Hfleet.
  destruct (lookupField "ships" fields) as [| | | | | |ships|] eqn:Hfields; try done.
  destruct (placeShips_complete ships emptyGrid fleet [] marks_empty Hfleet)
    as [g Hg]; try done.
  - apply Forall_forall. intros s Hs. by apply (sizesOk_lengths fleet).
  - apply Forall_forall. intros s _. apply Forall_forall. intros c _.
    apply not_elem_of_nil.
  - exists g, fleet. unfold validatePlacement. cbn [truthy negb getProp].
    rewrite Hfields, (sizes_of_fleet _ _ Hfleet).
    rewrite (sortThrows_nums (λ s : list (Z * Z), Z.of_nat (length s))).
    apply sizesOk_iff, sizes_check in Hsizes as [-> ->].
    rewrite Nat.eqb_refl. cbn [negb]. by rewrite Hg.
Qed.

End Validator.

(** ** Rooms, lookups and broadcasts *)

Section ServerFacts.

Lemma findIndex_Some ws ps idx :
  findIndex ws ps = Some idx → ∃ p, ps !! idx = Some p ∧ Player.ws p = ws.
Proof.
  revert idx. induction ps as [|p ps IH]; intros idx; cbn; [done|].
  destruct (Nat.eqb_spec (Player.ws p) ws) as [Hws|_].
  - intros [= <-]. by exists p.
  - destruct (findIndex ws ps) as [k|]; [|done]. intros [= <-].
    by apply IH.
Qed.

Lemma findIndex_None ws ps :
  findIndex ws ps = None ↔ ∀ p, p ∈ ps → Player.ws p ≠ ws.
Proof.
  induction ps as [|p ps IH]; cbn.
  - split; [|done]. by intros _ p ?%elem_of_nil.
  - destruct (Nat.eqb_spec (Player.ws p) ws) as [Hws|Hws].
    + split; [done|]. intros H. exfalso. by apply (H p); [left|].
    + destruct (findIndex ws ps) as [k|].
      * split; [done|]. intros H. exfalso.
        assert (Hn : Some k = None); [|done]. apply IH. intros q Hq. apply H. by right.
      * split; [|done]. intros _ q [->|Hq]%elem_of_cons; [done|].
        by apply (proj1 IH).
Qed.

Lemma findRoom_Some ws rooms i room idx :
  findRoom ws rooms = Some (i, room, idx) →
  (∃ rid, rooms !! i = Some (rid, room)) ∧ findIndex ws (Room.players room) = Some idx.
Proof.
  revert i. induction rooms as [|[rid r] rooms IH]; intros i; cbn; [done|].
  destruct (findIndex ws (Room.players r)) as [k|] eqn:Hk.
  - intros [= <- <- <-]. split; [by exists rid|done].
  - destruct (findRoom ws rooms) as [[[j r'] k]|]; [|done].
    intros [= <- <- <-]. by apply IH.
Qed.

Lemma findRoom_player ws rooms i room idx :
  findRoom ws rooms = Some (i, room, idx) →
  ∃ p, Room.players room !! idx = Some p ∧ Player.ws p = ws.
Proof. intros [_ H]%findRoom_Some. by apply findIndex_Some. Qed.

Lemma updRoom_lookup (rooms : store) i rid room r :
  rooms !! i = Some (rid, room) → updRoom i r rooms !! i = Some (rid, r).
Proof. intros H. unfold updRoom. by rewrite list_lookup_alter_eq, H. Qed.

Lemma updRoom_lookup_ne (rooms : store) i j r :
  i ≠ j → updRoom i r rooms !! j = rooms !! j.
Proof. intros H. unfold updRoom. by rewrite list_lookup_alter_ne. Qed.

Lemma updRoom_same (rooms : store) i rid room :
  rooms !! i = Some (rid, room) → updRoom i room rooms = rooms.
Proof.
  intros H. unfold updRoom. apply list_eq. intros j.
  destruct (decide (i = j)) as [<-|Hne].
  - by rewrite list_lookup_alter_eq, H.
  - by rewrite list_lookup_alter_ne.
Qed.

Lemma elem_of_broadcast room obj c m :
  (c, m) ∈ broadcast room obj ↔ m = obj ∧ ∃ p, p ∈ Room.players room ∧ Player.ws p = c.
Proof.
  unfold broadcast. change (map ?f ?l) with (f <$> l). rewrite list_elem_of_fmap. split.
  - intros (p & [= -> ->] & Hp). eauto.
  - intros (-> & p & Hp & <-). eauto.
Qed.

Lemma otherIndex_ne i : otherIndex i ≠ i.
Proof. by destruct i. Qed.

Lemma findIndex_ws ws ps ps' :
  Player.ws <$> ps = Player.ws <$> ps' → findIndex ws ps = findIndex ws ps'.
Proof.
  revert ps'. induction ps as [|p ps IH]; intros [|p' ps']; cbn; try done.
  intros [= -> Hrest]. by rewrite (IH ps' Hrest).
Qed.

Lemma ws_insert (ps : list Player.t) k p p' :
  ps !! k = Some p → Player.ws p' = Player.ws p →
  Player.ws <$> <[k := p']> ps = Player.ws <$> ps.
Proof.
  intros Hk Hws. rewrite list_fmap_insert, Hws.
  apply list_insert_id. by rewrite list_lookup_fmap, Hk.
Qed.

Lemma ws_alter (ps : list Player.t) k f :
  (∀ p, Player.ws (f p) = Player.ws p) →
  Player.ws <$> alter f k ps = Player.ws <$> ps.
Proof.
  intros Hf. revert k. induction ps as [|p ps IH]; intros [|k]; cbn; try done.
  - by rewrite Hf.
  - by rewrite IH.
Qed.

(** Replacing the room at position [i] by one with the same connections
    does not change where a connection is found. *)
Lemma findRoom_updRoom ws rooms i key room room' :
  rooms !! i = Some (key, room) →
  Player.ws <$> Room.players room' = Player.ws <$> Room.players room →
  findRoom ws (updRoom i room' rooms) =
    (λ '(j, r, idx), (j, if decide (j = i) then room' else r, idx)) <$> findRoom ws rooms.
Proof.
  intros Hi Hws. revert i Hi.
  induction rooms as [|[k r] rooms IH]; intros i Hi; [done|].
  destruct i as [|i]; cbn in *.
  - injection Hi as -> ->. rewrite (findIndex_ws ws _ _ Hws).
    destruct (findIndex ws (Room.players room)) as [idx|]; [done|].
    destruct (findRoom ws rooms) as [[[j r'] idx]|]; [|done]. done.
  - destruct (findIndex ws (Room.players r)) as [idx|]; [done|].
    fold (updRoom i room' rooms). rewrite (IH i Hi).
    destruct (findRoom ws rooms) as [[[j r'] idx]|]; [|done]. cbn.
    destruct (decide (j = i)) as [->|Hne].
    + by rewrite decide_True.
    + rewrite decide_False; [done|lia].
Qed.

Lemma findRoom_updRoom_here ws rooms i room idx room' :
  findRoom ws rooms = Some (i, room, idx) →
  Player.ws <$> Room.players room' = Player.ws <$> Room.players room →
  findRoom ws (updRoom i room' rooms) = Some (i, room', idx).
Proof.
  intros Hfind Hws. destruct (findRoom_Some _ _ _ _ _ Hfind) as [[key Hkey] _].
  rewrite (findRoom_updRoom ws rooms i key room room' Hkey Hws), Hfind. cbn.
  by rewrite decide_True.
Qed.


Lemma noErrors_cons cm out : noErrors (cm :: out) = negb (isError cm.2) && noErrors out.
Proof. done. Qed.

Lemma noErrors_app out1 out2 : noErrors (out1 ++ out2) = noErrors out1 && noErrors out2.
Proof. apply forallb_app. Qed.

Lemma noErrors_broadcast room obj : isError obj = false → noErrors (broadcast room obj) = true.
Proof.
  intros H. unfold noErrors, broadcast.
  induction (Room.players room) as [|p ps IH]; cbn; [done|]. by rewrite H.
Qed.

Lemma storeGet_Some token rooms i r :
  storeGet token rooms = Some (i, r) → rooms !! i = Some (token, r).
Proof.
  revert i. induction rooms as [|[k r0] rooms IH]; intros i; cbn; [done|].
  destruct (String.eqb_spec k token) as [->|_].
  - by intros [= <- <-].
  - destruct (storeGet token rooms) as [[j r']|]; [|done].
    intros [= <- <-]. by apply IH.
Qed.

Lemma storeSet_lookup_ne rid r (rooms : store) i key room :
  rooms !! i = Some (key, room) → key ≠ rid → storeSet rid r rooms !! i = Some (key, room).
Proof.
  revert i. induction rooms as [|[k r0] rooms IH]; intros i; [done|]. cbn [storeSet].
  destruct i as [|i]; cbn.
  - intros [= -> ->] Hne. by destruct (String.eqb_spec key rid).
  - intros Hi Hne. destruct (String.eqb_spec k rid); [done|]. cbn. by apply IH.
Qed.

Lemma connections_cons key r rooms :
  connections ((key, r) :: rooms) = (Player.ws <$> Room.players r) ++ connections rooms.
Proof. done. Qed.

Lemma elem_of_connections ws rooms :
  ws ∈ connections rooms ↔
  ∃ key r p, (key, r) ∈ rooms ∧ p ∈ Room.players r ∧ Player.ws p = ws.
Proof.
  unfold connections. rewrite list_elem_of_bind. split.
  - intros ([key r] & (p & -> & Hp)%list_elem_of_fmap & Hr). eauto 6.
  - intros (key & r & p & Hr & Hp & <-). exists (key, r). split; [|done].
    by apply list_elem_of_fmap_2.
Qed.

Lemma findRoom_None ws rooms : findRoom ws rooms = None ↔ ws ∉ connections rooms.
Proof.
  induction rooms as [|[key r] rooms IH]; cbn [findRoom].
  - split; [|done]. intros _. apply not_elem_of_nil.
  - rewrite connections_cons, not_elem_of_app, <- IH.
    destruct (findIndex ws (Room.players r)) as [idx|] eqn:Hidx.
    + split; [done|]. intros [Hnot _]. exfalso. apply Hnot.
      apply findIndex_Some in Hidx as (p & Hp & <-).
      apply list_elem_of_fmap_2. by eapply list_elem_of_lookup_2.
    + destruct (findRoom ws rooms) as [[[j r'] k]|]; cbn.
      * split; [done|]. by intros [_ ?].
      * split; [|done]. intros _. split; [|done].
        intros (p & -> & Hp)%list_elem_of_fmap.
        by apply (proj1 (findIndex_None _ _) Hidx p).
Qed.

(** Replacing the room at a position: the connections of the other rooms
    stay, those of the room are replaced. *)
Lemma connections_updRoom rooms i key room room' :
  rooms !! i = Some (key, room) →
  ∃ before after,
    connections rooms = before ++ (Player.ws <$> Room.players room) ++ after ∧
    connections (updRoom i room' rooms) = before ++ (Player.ws <$> Room.players room') ++ after.
Proof.
  revert i. induction rooms as [|[k r] rooms IH]; intros i Hi; [done|].
  destruct i as [|i]; cbn in Hi.
  - injection Hi as -> ->. exists [], (connections rooms). by cbn.
  - destruct (IH i Hi) as (before & after & H1 & H2).
    exists ((Player.ws <$> Room.players r) ++ before), after.
    unfold updRoom in *. cbn [alter list_alter]. rewrite !connections_cons.
    cbn [snd]. rewrite H1, H2. by rewrite <- !(assoc (++)).
Qed.

Lemma connections_updRoom_same rooms i key room room' :
  rooms !! i = Some (key, room) →
  Player.ws <$> Room.players room' = Player.ws <$> Room.players room →
  connections (updRoom i room' rooms) = connections rooms.
Proof.
  intros Hi Hws. destruct (connections_updRoom rooms i key room room' Hi)
    as (before & after & -> & ->). by rewrite Hws.
Qed.

Lemma connections_storeSet rid r rooms x :
  x ∈ connections (storeSet rid r rooms) →
  x ∈ Player.ws <$> Room.players r ∨ x ∈ connections rooms.
Proof.
  induction rooms as [|[k r0] rooms IH]; cbn [storeSet].
  - rewrite connections_cons, elem_of_app. cbn. intros [?|?]; eauto.
  - destruct (String.eqb k rid); rewrite !connections_cons, !elem_of_app; cbn [snd].
    + intros [?|?]; eauto.
    + intros [?|[?|?]%IH]; eauto.
Qed.

Lemma NoDup_connections_storeSet rid r rooms :
  NoDup (connections rooms) → NoDup (Player.ws <$> Room.players r) →
  (∀ x, x ∈ Player.ws <$> Room.players r → x ∉ connections rooms) →
  NoDup (connections (storeSet rid r rooms)).
Proof.
  induction rooms as [|[k r0] rooms IH]; cbn [storeSet]; intros Hnd Hr Hfresh.
  - rewrite connections_cons. cbn. by rewrite app_nil_r.
  - rewrite connections_cons in Hnd. apply NoDup_app in Hnd as (Hnd0 & Hdisj & Hnd).
    destruct (String.eqb k rid); rewrite connections_cons; cbn [snd]; apply NoDup_app.
    + split; [done|]. split; [|done]. intros x Hx Hin. apply (Hfresh x Hx).
      rewrite connections_cons. apply elem_of_app. by right.
    + split; [done|]. split.
      * intros x Hx [Hin|Hin]%connections_storeSet; [|by apply (Hdisj x)].
        apply (Hfresh x Hin). rewrite connections_cons. apply elem_of_app. by left.
      * apply IH; try done. intros x Hx Hin. apply (Hfresh x Hx).
        rewrite connections_cons. apply elem_of_app. by right.
Qed.

Lemma connections_onClose ws rooms :
  connections (onClose ws rooms).1 `sublist_of` connections rooms.
Proof.
  induction rooms as [|[k r] rooms IH]; cbn [onClose]; [done|].
  destruct (findIndex ws (Room.players r)) as [idx|].
  - cbn [Room.players]. destruct (Nat.eqb_spec (length (delete idx (Room.players r))) 0).
    + cbn [fst]. rewrite connections_cons. by apply sublist_inserts_l.
    + cbn [fst]. rewrite !connections_cons. cbn [snd Room.players].
      apply sublist_app; [|done]. apply fmap_sublist, sublist_delete.
  - destruct (onClose ws rooms) as [rest1 out]. cbn [fst] in *.
    rewrite !connections_cons. by apply sublist_app.
Qed.

End ServerFacts.

(** ** Shots *)

Section Shots.

(** The outcomes of [shot] for a sender found in a room: a rejection, a
    TypeError before anything is changed, or the resolution of the shot. *)
Lemma shot_cases ws msg rooms i room pIndex :
  let o := shot ws msg rooms (Some (i, room, pIndex)) in
  (∃ m, o = reject rooms ws m) ∨
  o = throws rooms [] ∨
  ∃ x y defender g cell,
    Room.started room = true ∧ pIndex = Room.turn room ∧
    getProp msg "x" = Some (VNum x) ∧ getProp msg "y" = Some (VNum y) ∧
    inBounds (x, y) ∧
    Room.players room !! otherIndex pIndex = Some defender ∧
    Player.grid defender = Some g ∧ cellAt g x y = Some cell ∧
    (cell = Empty ∨ cell = Ship) ∧
    o = resolveShot rooms i room pIndex x y defender g cell.
Proof.
  cbn. destruct (Room.started room) eqn:Hst; cbn; [|eauto].
  destruct (Nat.eqb_spec pIndex (Room.turn room)) as [Hturn|_]; cbn; [|eauto].
  destruct (getProp msg "x") as [vx|] eqn:Hx; [|eauto].
  destruct (getProp msg "y") as [vy|] eqn:Hy; [|destruct vx; eauto].
  destruct vx as [| | |x| | | |]; eauto.
  destruct vy as [| | |y| | | |]; eauto.
  destruct (_ || _) eqn:Hb; [eauto|]. apply outOfBounds_false in Hb.
  destruct (Room.players room !! otherIndex pIndex) as [defender|] eqn:Hd; [|eauto].
  destruct (Player.grid defender) as [g|] eqn:Hg; [|eauto].
  destruct (cellAt g x y) as [cell|] eqn:Hc; [|eauto].
  destruct cell; eauto; right; right; exists x, y, defender, g; eauto 20.
Qed.

Lemma resolveShot_throws rooms i room pIndex x y defender g cell :
  Player.ships defender = None →
  ∃ rooms1, resolveShot rooms i room pIndex x y defender g cell = throws rooms1 [].
Proof. intros H. unfold resolveShot. cbn. rewrite H. eauto. Qed.

(** The effect of a resolved shot. *)
Lemma resolveShot_spec rooms i room pIndex x y defender g cell attacker fleet :
  Room.players room !! pIndex = Some attacker →
  Player.ships defender = Some fleet →
  let hit := bool_decide (cell = Ship) in
  let g1 := setCell g x y (if hit then Hit else Miss) in
  let defender1 :=
    Player.mk (Player.ws defender) (Player.id defender) (Player.ready defender)
              (Some g1) (Some fleet) in
  let win := allShipsSunk g1 fleet in
  let turn1 := if win || hit then Room.turn room else otherIndex (Room.turn room) in
  let room1 :=
    Room.mk (<[otherIndex pIndex := defender1]> (Room.players room)) turn1
            (Room.started room) in
  ∃ sunk sunkSize,
    resolveShot rooms i room pIndex x y defender g cell =
    done (updRoom i room1 rooms)
         ([(Player.ws attacker, MShotResult x y hit sunk sunkSize win);
           (Player.ws defender, MGotShot x y hit sunk sunkSize win)]
            ++ broadcast room1 (if win then MGameOver (pIndex + 1) else MTurn (turn1 + 1))).
Proof.
  intros Hatt Hfleet. unfold resolveShot. cbn. rewrite Hfleet.
  rewrite list_lookup_insert_ne by apply otherIndex_ne. rewrite Hatt.
  set (hit := bool_decide (cell = Ship)).
  set (g1 := setCell g x y (if hit then Hit else Miss)).
  destruct (if hit then findSunk g1 fleet x y else (false, None)) as [sunk sunkSize].
  exists sunk, sunkSize.
  destruct (allShipsSunk g1 fleet); cbn; [done|].
  by destruct hit.
Qed.

Ltac solve_clean :=
  cbn [sent done throws];
  rewrite ?noErrors_app, ?noErrors_cons, ?noErrors_broadcast by done; done.

Lemma resolveShot_clean rooms i room pIndex x y defender g cell :
  noErrors (sent (resolveShot rooms i room pIndex x y defender g cell)) = true.
Proof.
  unfold resolveShot. cbn.
  destruct (Player.ships defender) as [fleet|]; [|done].
  destruct (_ !! pIndex) as [attacker|]; [|done].
  destruct (if bool_decide (cell = Ship) then _ else _) as [sunk sunkSize].
  destruct (allShipsSunk _ _); solve_clean.
Qed.




(** The rooms left by each operation. *)
Lemma resolveShot_rooms rooms i room pIndex x y defender g cell :
  ∃ turn1,
    rooms_after (resolveShot rooms i room pIndex x y defender g cell) =
    updRoom i
      (Room.mk
         (<[otherIndex pIndex :=
              Player.mk (Player.ws defender) (Player.id defender) (Player.ready defender)
                (Some (setCell g x y (if bool_decide (cell = Ship) then Hit else Miss)))
                (Player.ships defender)]> (Room.players room))
         turn1 (Room.started room))
      rooms.
Proof.
  unfold resolveShot. cbn zeta. cbn [Player.ships].
  destruct (Player.ships defender) as [fleet|]; [|by eexists].
  destruct (_ !! pIndex) as [attacker|]; [|by eexists].
  destruct (if bool_decide (cell = Ship) then _ else _) as [sunk sunkSize].
  destruct (allShipsSunk _ _); [by eexists|].
  destruct (bool_decide (cell = Ship)); by eexists.
Qed.

Lemma shot_rooms ws msg rooms i room pIndex :
  let o := shot ws msg rooms (Some (i, room, pIndex)) in
  rooms_after o = rooms ∨
  ∃ x y defender g cell turn1,
    getProp msg "x" = Some (VNum x) ∧ getProp msg "y" = Some (VNum y) ∧
    Room.players room !! otherIndex pIndex = Some defender ∧
    Player.grid defender = Some g ∧ cellAt g x y = Some cell ∧
    (cell = Empty ∨ cell = Ship) ∧
    rooms_after o =
      updRoom i
        (Room.mk
           (<[otherIndex pIndex :=
                Player.mk (Player.ws defender) (Player.id defender) (Player.ready defender)
                  (Some (setCell g x y (if bool_decide (cell = Ship) then Hit else Miss)))
                  (Player.ships defender)]> (Room.players room))
           turn1 (Room.started room))
        rooms.
Proof.
  destruct (shot_cases ws msg rooms i room pIndex)
    as [[m Hm]|[Hthrow|(x & y & defender & g & cell & _ & _ & Hx & Hy & _ & Hd & Hg & Hc
                         & Hcell & Hres)]]; cbn zeta.
  - left. by rewrite Hm.
  - left. by rewrite Hthrow.
  - right. destruct (resolveShot_rooms rooms i room pIndex x y defender g cell) as [turn1 Hr].
    exists x, y, defender, g, cell, turn1. by rewrite Hres.
Qed.

Lemma place_ready_rooms ws msg rooms i room pIndex :
  let o := place_ready ws msg rooms (Some (i, room, pIndex)) in
  rooms_after o = rooms ∨
  ∃ placement g fleet turn1 started1,
    getProp msg "placement" = Some placement ∧
    validatePlacement placement = VOk g fleet ∧
    rooms_after o =
      updRoom i
        (Room.mk
           (alter (λ p, Player.mk (Player.ws p) (Player.id p) true (Some g) (Some fleet))
                  pIndex (Room.players room))
           turn1 started1)
        rooms.
Proof.
  cbn zeta. unfold place_ready.
  destruct (length (Room.players room) <? 2)%nat; [by left|].
  destruct (getProp msg "placement") as [placement|]; [|by left].
  destruct (validatePlacement placement) as [g fleet|err|] eqn:Hv; [|by left|by left].
  right. exists placement, g, fleet.
  destruct (_ !! O) as [p0|]; [|by eexists _, _].
  destruct (Player.ready p0); cbn [negb]; [|by eexists _, _].
  destruct (_ !! 1%nat) as [p1|]; [|by eexists _, _].
  destruct (_ && _); by eexists _, _.
Qed.

Lemma join_room_rooms ws cid token rooms :
  let o := join_room ws cid token rooms in
  rooms_after o = rooms ∨
  ∃ i r, rooms !! i = Some (token, r) ∧
    rooms_after o =
      updRoom i (Room.mk (Room.players r ++ [newPlayer ws cid]) (Room.turn r) (Room.started r))
              rooms.
Proof.
  cbn zeta. unfold join_room.
  destruct (storeGet token rooms) as [[i r]|] eqn:Hget; [|by left].
  apply storeGet_Some in Hget.
  destruct (2 <=? _)%nat; [by left|]. right. exists i, r. split; [done|].
  destruct (_ !! O) as [p0|]; [|done].
  by destruct (_ !! 1%nat) as [p1|].
Qed.

End Shots.

(** ** Placement validation (C1) *)

(** The validator accepts a raw placement exactly when it is a list of
    ships, each a list of integer coordinate pairs, whose sizes are
    {5,4,3,3,2} as a multiset, whose cells all lie in [0,9]x[0,9], no two of
    which share a cell, and each of which lies on one row or one column and
    is contiguous along it.  For an accepted placement the returned fleet is
    the placement's, its ships are pairwise disjoint, and the returned grid
    shows a ship on exactly the fleet's cells.  A placement with six ships,
    or with a ship of one or of six cells, does not pass the checks of the
    sizes: it is answered "Wrong ship count" or "Wrong ship sizes", unless
    the validator raises a TypeError before. *)
Theorem validatePlacement_accepts_iff_valid (placement : jsval) :
  (accepted placement ↔ validPlacement placement) ∧
  (∀ g fleet, validatePlacement placement = VOk g fleet →
     fleetOf placement = Some fleet ∧ sizesOk fleet ∧ noOverlap fleet ∧
     marks g (concat fleet)) ∧
  (∀ ships, getProp placement "ships" = Some (VArr ships) →
     (length ships = 6%nat ∨
      ∃ s cells, s ∈ ships ∧ getProp s "cells" = Some (VArr cells) ∧
                 (length cells = 1%nat ∨ length cells = 6%nat)) →
     ¬ accepted placement ∧
     (validatePlacement placement = VErr "Wrong ship count" ∨
      validatePlacement placement = VErr "Wrong ship sizes" ∨
      validatePlacement placement = VThrow)).
Proof.
  split_and!.
  - split.
    + intros (g & fleet & Hok).
      destruct (validatePlacement_sound _ _ _ Hok) as (? & ? & ? & ? & ? & _).
      by exists fleet.
    + apply validatePlacement_complete.
  - intros g fleet Hok.
    by destruct (validatePlacement_sound _ _ _ Hok) as (? & ? & _ & ? & _ & ?).
  - intros ships Hships Hbad.
    assert (Hres : validatePlacement placement = VErr "Wrong ship count" ∨
                   validatePlacement placement = VErr "Wrong ship sizes" ∨
                   validatePlacement placement = VThrow).
    { unfold validatePlacement.
      assert (Ht : truthy placement = true) by (destruct placement; cbn in Hships; done).
      rewrite Ht, Hships. cbn [negb].
      destruct (mapM shipSize ships) as [sizes|] eqn:Hsizes; [|by auto].
      destruct (sortThrows sizes); [by auto|].
      destruct (Nat.eqb_spec (length (sortSizes sizes)) (length (sortNum SHIP_SIZES)))
        as [Hlen|]; [|by left]. cbn [negb].
      destruct (sizesEq (sortSizes sizes) (sortNum SHIP_SIZES)) eqn:Heq; [|right; by left].
      exfalso. pose proof (proj1 (sizes_check sizes) (conj Hlen Heq)) as Hperm.
      destruct Hbad as [Hsix|(s & cells & Hs & Hcells & Hlen')].
      + apply length_mapM in Hsizes. apply Permutation_length in Hperm.
        rewrite length_fmap in Hperm. cbn in Hperm. lia.
      + apply mapM_Some in Hsizes.
        destruct (proj1 (list_elem_of_lookup _ _) Hs) as [k Hk].
        destruct (Forall2_lookup_l _ _ _ _ _ Hsizes Hk) as (v & Hv & Hsz).
        unfold shipSize in Hsz. rewrite Hcells in Hsz. cbn in Hsz. injection Hsz as <-.
        assert (Hin : VNum (Z.of_nat (length cells)) ∈ VNum <$> SHIP_SIZES).
        { rewrite <- Hperm. by eapply list_elem_of_lookup_2. }
        apply list_elem_of_fmap in Hin as (z & [= Hz] & Hin).
        unfold SHIP_SIZES in Hin.
        repeat (apply elem_of_cons in Hin as [Hin|Hin]; [lia|]).
        by apply elem_of_nil in Hin. }
    split; [|done]. intros (g & fleet & Hok). rewrite Hok in Hres.
    by destruct Hres as [|[|]].
Qed.

Lemma validatePlacement_accepts_iff_valid_witness :
  validPlacement (jplacement fleetA) ∧
  ¬ accepted (jplacement ([(0,9); (1,9); (2,9); (3,9); (4,9); (5,9)] :: tail fleetA)).
Proof.
  split.
  - apply (proj1 (validatePlacement_accepts_iff_valid (jplacement fleetA))).
    eexists _, _. vm_compute. reflexivity.
  - eapply (proj2 (proj2 (validatePlacement_accepts_iff_valid _))); [reflexivity|].
    right. eexists _, _. split; [left|]. split; [reflexivity|]. by right.
Defined.

(** C1 fails on a placement of six ships one of which is [null]: the
    validator reads [s.cells] of every entry of [ships] before it counts
    them, so it raises a TypeError where C1 has the placement rejected.  The
    [place_ready] that carries the placement is answered nothing, not
    "Placement invalid: ...", while six ships without a [null] are
    answered "Wrong ship count". *)
Theorem six_ships_with_null_entry_raise :
  getProp sixWithNull "ships" = Some (VArr (map jship fleetA ++ [VNull])) ∧
  length (map jship fleetA ++ [VNull]) = 6%nat ∧
  validatePlacement sixWithNull = VThrow ∧
  (let rooms := rooms_after (runEvents [msgOf 1 msgCreate; msgOf 2 (msgJoin "ROOM01")] []) in
   let msg := VObj [("type", VStr "place_ready"); ("placement", sixWithNull)] in
   handle 2 "uuid" "ROOM01" (Some msg) rooms = throws rooms []) ∧
  validatePlacement sixShips = VErr "Wrong ship count".
Proof. split_and!; vm_compute; reflexivity. Qed.

(** ** The dispatcher *)

Section Dispatch.

Context {strings : JsStrings}.

Lemma onMessage_shot ws cid rid msg rooms :
  getProp msg "type" = Some (VStr "shot") →
  onMessage ws cid rid (Some msg) rooms = shot ws msg rooms (findRoom ws rooms).
Proof. intros H. unfold onMessage. by rewrite H. Qed.

Lemma onMessage_place_ready ws cid rid msg rooms :
  getProp msg "type" = Some (VStr "place_ready") →
  onMessage ws cid rid (Some msg) rooms = place_ready ws msg rooms (findRoom ws rooms).
Proof. intros H. unfold onMessage. by rewrite H. Qed.

Lemma onMessage_create_room ws cid rid msg rooms :
  getProp msg "type" = Some (VStr "create_room") →
  onMessage ws cid rid (Some msg) rooms = create_room ws cid rid rooms.
Proof. intros H. unfold onMessage. by rewrite H. Qed.

Lemma allShipsSunk_iff g (fleet : list ShipCells) :
  allShipsSunk g fleet = true ↔
  ∀ s c, s ∈ fleet → c ∈ s → cellAt g c.1 c.2 = Some Hit.
Proof.
  unfold allShipsSunk, computeSunk. rewrite forallb_forall. split.
  - intros H s c Hs%list_elem_of_In Hc%list_elem_of_In.
    specialize (H s Hs). rewrite forallb_forall in H.
    specialize (H c Hc). by apply bool_decide_eq_true in H.
  - intros H s Hs. apply forallb_forall. intros c Hc.
    apply bool_decide_eq_true. apply (H s c); by apply list_elem_of_In.
Qed.

(** What an accepted shot is: the sender is the turn-holder of a started
    room, the target is a cell of the defender that was not shot before, and
    the handler's outcome is the resolution of the shot. *)
Lemma accepted_shot ws cid rid msg rooms c x y hit sunk sz win :
  getProp msg "type" = Some (VStr "shot") →
  (c, MShotResult x y hit sunk sz win) ∈ sent (onMessage ws cid rid (Some msg) rooms) →
  ∃ i key room pIndex attacker defender g cell fleet,
    findRoom ws rooms = Some (i, room, pIndex) ∧ rooms !! i = Some (key, room) ∧
    Room.started room = true ∧ pIndex = Room.turn room ∧
    Room.players room !! pIndex = Some attacker ∧ Player.ws attacker = ws ∧
    Room.players room !! otherIndex pIndex = Some defender ∧
    Player.grid defender = Some g ∧ Player.ships defender = Some fleet ∧
    cellAt g x y = Some cell ∧ (cell = Empty ∨ cell = Ship) ∧
    c = ws ∧ hit = bool_decide (cell = Ship) ∧
    let g1 := setCell g x y (if hit then Hit else Miss) in
    let defender1 :=
      Player.mk (Player.ws defender) (Player.id defender) (Player.ready defender)
                (Some g1) (Some fleet) in
    let turn1 := if win || hit then Room.turn room else otherIndex (Room.turn room) in
    let room1 :=
      Room.mk (<[otherIndex pIndex := defender1]> (Room.players room)) turn1
              (Room.started room) in
    win = allShipsSunk g1 fleet ∧
    onMessage ws cid rid (Some msg) rooms =
      done (updRoom i room1 rooms)
           ([(ws, MShotResult x y hit sunk sz win);
             (Player.ws defender, MGotShot x y hit sunk sz win)]
              ++ broadcast room1 (if win then MGameOver (pIndex + 1) else MTurn (turn1 + 1))).
Proof.
  intros Hty. rewrite (onMessage_shot _ _ _ _ _ Hty).
  destruct (findRoom ws rooms) as [[[i room] pIndex]|] eqn:Hfind.
  2:{ cbn. by intros [=]%list_elem_of_singleton. }
  destruct (findRoom_Some _ _ _ _ _ Hfind) as [[key Hkey] _].
  destruct (findRoom_player _ _ _ _ _ Hfind) as (attacker & Hatt & Hws).
  destruct (shot_cases ws msg rooms i room pIndex)
    as [[m ->]|[->|(x0 & y0 & defender & g & cell & Hst & Hturn & Hx & Hy & Hb & Hd & Hg
                     & Hc & Hcell & ->)]].
  - cbn. by intros [=]%list_elem_of_singleton.
  - cbn. by intros ?%elem_of_nil.
  - destruct (Player.ships defender) as [fleet|] eqn:Hfleet.
    2:{ destruct (resolveShot_throws rooms i room pIndex x0 y0 defender g cell Hfleet)
          as [rooms1 ->]. cbn. by intros ?%elem_of_nil. }
    destruct (resolveShot_spec rooms i room pIndex x0 y0 defender g cell attacker fleet
                Hatt Hfleet) as (sunk0 & sz0 & Heq).
    rewrite Heq. cbn [sent done].
    intros [Hin|Hin]%elem_of_app.
    2:{ apply elem_of_broadcast in Hin as [Hin _]. by destruct (allShipsSunk _ _). }
    apply elem_of_cons in Hin as [Hin|Hin].
    2:{ by apply list_elem_of_singleton in Hin. }
    injection Hin as -> -> -> -> -> -> ->.
    exists i, key, room, pIndex, attacker, defender, g, cell, fleet.
    rewrite Hws. split_and!; try done.
Qed.


(** *** Win flag (C2) *)

(** C2. For every accepted shot in a started room, the sender receives the
    shot result and the defender the same outcome with [lose = win]; no other
    win flag is reported; and the flag is true exactly when, in the room
    left by the handler, every cell of every ship of the defender is marked
    [Hit]. *)
Theorem win_flag_iff_fleet_destroyed ws cid rid msg rooms c x y hit sunk sz win :
  getProp msg "type" = Some (VStr "shot") →
  (c, MShotResult x y hit sunk sz win) ∈ sent (onMessage ws cid rid (Some msg) rooms) →
  let o := onMessage ws cid rid (Some msg) rooms in
  ∃ i room pIndex key room' defender' g' fleet,
    findRoom ws rooms = Some (i, room, pIndex) ∧ Room.started room = true ∧
    rooms_after o !! i = Some (key, room') ∧
    Room.players room' !! otherIndex pIndex = Some defender' ∧
    Player.grid defender' = Some g' ∧ Player.ships defender' = Some fleet ∧
    c = ws ∧
    (Player.ws defender', MGotShot x y hit sunk sz win) ∈ sent o ∧
    (∀ c' x' y' h' s' z' w', (c', MShotResult x' y' h' s' z' w') ∈ sent o → w' = win) ∧
    (∀ c' x' y' h' s' z' l', (c', MGotShot x' y' h' s' z' l') ∈ sent o → l' = win) ∧
    (win = true ↔ ∀ s cell, s ∈ fleet → cell ∈ s → cellAt g' cell.1 cell.2 = Some Hit).
Proof.
  intros Hty Hin o.
  destruct (accepted_shot _ _ _ _ _ _ _ _ _ _ _ _ Hty Hin)
    as (i & key & room & pIndex & attacker & defender & g & cell & fleet & Hfind & Hkey
        & Hst & Hturn & Hatt & Hws & Hd & Hg & Hfleet & Hc & Hcell & -> & Hhit & Hwin & Ho).
  subst o. rewrite Ho. cbn [rooms_after sent done].
  eexists i, room, pIndex, key, _, _, _, fleet.
  split; [done|]. split; [done|].
  split; [by eapply updRoom_lookup|].
  split; [cbn [Room.players]; apply list_lookup_insert_eq; by eapply lookup_lt_Some|].
  split; [done|]. split; [done|]. split; [done|].
  split; [apply elem_of_app; left; right; left|].
  split; [|split].
  - intros c' x' y' h' s' z' w' [H|H]%elem_of_app.
    + apply elem_of_cons in H as [H|H]; [by injection H|].
      by apply list_elem_of_singleton in H.
    + apply elem_of_broadcast in H as [H _]. by destruct win.
  - intros c' x' y' h' s' z' w' [H|H]%elem_of_app.
    + apply elem_of_cons in H as [H|H]; [done|].
      apply list_elem_of_singleton in H. by injection H.
    + apply elem_of_broadcast in H as [H _]. by destruct win.
  - cbn [Player.grid]. rewrite Hwin at 1. apply allShipsSunk_iff.
Qed.

(** *** Turn switching (C4) *)

(** A shot message leaves the sender where it was found; it changes the
    turn only when it is an accepted shot that misses without winning. *)
Lemma shot_step ws cid rid msg rooms i room pIndex :
  getProp msg "type" = Some (VStr "shot") →
  findRoom ws rooms = Some (i, room, pIndex) →
  let o := onMessage ws cid rid (Some msg) rooms in
  ∃ room', findRoom ws (rooms_after o) = Some (i, room', pIndex) ∧
    Room.started room' = Room.started room ∧
    (Room.turn room' = Room.turn room ∨
     ∃ c x y sunk sz, (c, MShotResult x y false sunk sz false) ∈ sent o).
Proof.
  intros Hty Hfind o. subst o. rewrite (onMessage_shot _ _ _ _ _ Hty), Hfind.
  destruct (findRoom_player _ _ _ _ _ Hfind) as (attacker & Hatt & Hws).
  destruct (shot_cases ws msg rooms i room pIndex)
    as [[m ->]|[->|(x & y & defender & g & cell & Hst & Hturn & Hx & Hy & Hb & Hd & Hg
                     & Hc & Hcell & ->)]].
  - exists room. cbn. eauto.
  - exists room. cbn. eauto.
  - destruct (Player.ships defender) as [fleet|] eqn:Hfleet.
    + destruct (resolveShot_spec rooms i room pIndex x y defender g cell attacker fleet
                  Hatt Hfleet) as (sunk & sz & ->).
      cbn [rooms_after sent done]. eexists. split.
      { apply (findRoom_updRoom_here _ _ _ _ _ _ Hfind). cbn [Room.players].
        by apply (ws_insert _ _ defender). }
      split; [done|]. cbn [Room.turn].
      destruct (allShipsSunk _ _) eqn:Hwin; [by left|].
      destruct (bool_decide (cell = Ship)) eqn:Hhit; [by left|].
      right. exists (Player.ws attacker), x, y, sunk, sz. left.
    + unfold resolveShot. cbn zeta. cbn [Player.ships]. rewrite Hfleet.
      cbn [rooms_after sent throws]. eexists. split.
      { apply (findRoom_updRoom_here _ _ _ _ _ _ Hfind). cbn [Room.players].
        by apply (ws_insert _ _ defender). }
      split; [done|by left].
Qed.

(** C4. An accepted shot that does not win leaves the turn where it is when
    it hits, and gives it to the other slot when it misses.  Hence over any
    sequence of shot messages of one connection in which every accepted shot
    is a hit, the turn of its room stays fixed. *)
Theorem turn_kept_on_hit_flipped_on_miss ws cid rid :
  (∀ msg rooms c x y hit sunk sz,
     getProp msg "type" = Some (VStr "shot") →
     (c, MShotResult x y hit sunk sz false) ∈ sent (onMessage ws cid rid (Some msg) rooms) →
     ∃ i room pIndex room',
       findRoom ws rooms = Some (i, room, pIndex) ∧
       Room.started room = true ∧ Room.turn room = pIndex ∧
       findRoom ws (rooms_after (onMessage ws cid rid (Some msg) rooms))
         = Some (i, room', pIndex) ∧
       Room.turn room' = if hit then Room.turn room else otherIndex (Room.turn room)) ∧
  (∀ msgs rooms i room pIndex,
     Forall (λ m, getProp m "type" = Some (VStr "shot")) msgs →
     findRoom ws rooms = Some (i, room, pIndex) →
     (∀ c x y hit sunk sz win,
        (c, MShotResult x y hit sunk sz win) ∈ sent (run (shotsFrom ws cid rid msgs) rooms) →
        hit = true) →
     ∃ room',
       findRoom ws (rooms_after (run (shotsFrom ws cid rid msgs) rooms))
         = Some (i, room', pIndex) ∧
       Room.turn room' = Room.turn room).
Proof.
  split.
  - intros msg rooms c x y hit sunk sz Hty Hin.
    destruct (accepted_shot _ _ _ _ _ _ _ _ _ _ _ _ Hty Hin)
      as (i & key & room & pIndex & attacker & defender & g & cell & fleet & Hfind & Hkey
          & Hst & Hturn & Hatt & Hws & Hd & Hg & Hfleet & Hc & Hcell & -> & Hhit & Hwin & Ho).
    rewrite Ho. cbn [rooms_after done].
    eexists i, room, pIndex, _. split; [done|]. split; [done|]. split; [done|].
    split.
    + apply (findRoom_updRoom_here _ _ _ _ _ _ Hfind). cbn [Room.players].
      by apply (ws_insert _ _ defender).
    + cbn [Room.turn]. by destruct hit.
  - intros msgs. induction msgs as [|msg msgs IH]; intros rooms i room pIndex Hty Hfind Hhits.
    + exists room. by cbn.
    + apply Forall_cons_1 in Hty as [Hty Htys].
      destruct (shot_step ws cid rid msg rooms i room pIndex Hty Hfind)
        as (room1 & Hfind1 & _ & Hturn1).
      cbn [shotsFrom map run step] in *.
      fold (shotsFrom ws cid rid msgs) in *.
      set (o1 := onMessage ws cid rid (Some msg) rooms) in *.
      assert (Room.turn room1 = Room.turn room) as Hsame.
      { destruct Hturn1 as [|(c & x & y & sunk & sz & Hmiss)]; [done|].
        assert (false = true); [|done]. eapply (Hhits c x y false sunk sz false).
        destruct (raised o1); [done|]. cbn [sent]. apply elem_of_app. by left. }
      destruct (raised o1) eqn:Hraised.
      * exists room1. by rewrite Hsame.
      * cbn [rooms_after].
        destruct (IH (rooms_after o1) i room1 pIndex Htys Hfind1) as (room' & Hfind' & Hturn').
        { intros c x y hit sunk sz win Hin. eapply (Hhits c x y hit sunk sz win).
          cbn [sent]. apply elem_of_app. by right. }
        exists room'. by rewrite Hturn', Hsame.
Qed.

(** *** Shots at resolved cells (C5) *)

(** C5. A shot aimed at a cell of the defender's grid that is already [Hit]
    or [Miss] is answered with one error, sent to the sender only, and leaves
    the rooms exactly as they were; when the sender holds the turn of a
    started room and the target is inside the grid, the reason is that the
    cell was already shot. *)
Theorem shot_at_resolved_cell_rejected ws cid rid msg rooms i room pIndex defender g x y :
  getProp msg "type" = Some (VStr "shot") →
  findRoom ws rooms = Some (i, room, pIndex) →
  Room.players room !! otherIndex pIndex = Some defender →
  Player.grid defender = Some g →
  getProp msg "x" = Some (VNum x) → getProp msg "y" = Some (VNum y) →
  cellAt g x y = Some Hit ∨ cellAt g x y = Some Miss →
  ∃ reason,
    onMessage ws cid rid (Some msg) rooms = done rooms [(ws, MError reason)] ∧
    (Room.started room = true → pIndex = Room.turn room → inBounds (x, y) →
     reason = "Already shot there").
Proof.
  intros Hty Hfind Hd Hg Hx Hy Hcell.
  rewrite (onMessage_shot _ _ _ _ _ Hty), Hfind. unfold shot.
  destruct (Room.started room); cbn [negb]; [|by eexists].
  destruct (Nat.eqb_spec pIndex (Room.turn room)); cbn [negb]; [|by eexists].
  rewrite Hx, Hy.
  destruct (_ || _) eqn:Hb.
  - eexists. split; [done|]. intros _ _ Hin%outOfBounds_false. congruence.
  - rewrite Hd, Hg. destruct Hcell as [-> | ->]; by eexists.
Qed.

(** *** Rejections (C6) *)


(** *** After a win (C3) *)

Lemma allShipsSunk_setCell g (fleet : list ShipCells) x y cell v :
  allShipsSunk g fleet = true → cellAt g x y = Some cell → cell ≠ Hit →
  allShipsSunk (setCell g x y v) fleet = true.
Proof.
  rewrite !allShipsSunk_iff. intros Hall Hc Hcell s c Hs Hin.
  specialize (Hall s c Hs Hin).
  rewrite cellAt_setCell_other; [done|by rewrite Hc|].
  destruct c as [cx cy]. cbn in *. intros [= -> ->]. congruence.
Qed.

(** Once a room is won, shot messages of its two connections leave it won:
    the winner's shots miss and report the win again, the other slot's shots
    are rejected. *)
Lemma wonRoom_shot ws ws' i pIndex pIndex' rooms w cid rid msg :
  wonRoom ws ws' i pIndex pIndex' rooms → pIndex' ≠ pIndex → w = ws ∨ w = ws' →
  getProp msg "type" = Some (VStr "shot") →
  wonRoom ws ws' i pIndex pIndex' (rooms_after (onMessage w cid rid (Some msg) rooms)) ∧
  (w = ws' →
   onMessage w cid rid (Some msg) rooms = done rooms [(w, MError "Not your turn")]).
Proof.
  intros (room & defender & g & fleet & Hfind & Hfind' & Hst & Hturn & Hd & Hg & Hfleet & Hall)
         Hne Hw Hty.
  assert (Hwon : wonRoom ws ws' i pIndex pIndex' rooms) by (by exists room, defender, g, fleet).
  assert (Hloser : onMessage ws' cid rid (Some msg) rooms
                   = done rooms [(ws', MError "Not your turn")]).
  { rewrite (onMessage_shot _ _ _ _ _ Hty), Hfind'. unfold shot. rewrite Hst. cbn [negb].
    destruct (Nat.eqb_spec pIndex' (Room.turn room)); [congruence|done]. }
  destruct Hw as [-> | ->]; [|by rewrite Hloser].
  split; [|intros <-; by rewrite Hloser].
  rewrite (onMessage_shot _ _ _ _ _ Hty), Hfind.
  destruct (findRoom_player _ _ _ _ _ Hfind) as (attacker & Hatt & Hws).
  destruct (shot_cases ws msg rooms i room pIndex)
    as [[m ->]|[->|(x & y & defender0 & g0 & cell & _ & _ & Hx & Hy & Hb & Hd0 & Hg0
                     & Hc & Hcell & ->)]]; [done|done|].
  rewrite Hd in Hd0. injection Hd0 as <-. rewrite Hg in Hg0. injection Hg0 as <-.
  destruct (resolveShot_spec rooms i room pIndex x y defender g cell attacker fleet
              Hatt Hfleet) as (sunk & sz & ->).
  cbn [rooms_after done].
  assert (Hwin : allShipsSunk (setCell g x y (if bool_decide (cell = Ship) then Hit else Miss))
                   fleet = true).
  { eapply allShipsSunk_setCell; [done|done|]. by destruct Hcell as [-> | ->]. }
  rewrite Hwin. cbn [orb].
  set (room1 := Room.mk _ _ _).
  assert (Hsame : Player.ws <$> Room.players room1 = Player.ws <$> Room.players room).
  { cbn [Room.players room1]. by apply (ws_insert _ _ defender). }
  eexists room1, _, _, fleet. split_and!.
  - by apply (findRoom_updRoom_here _ _ _ _ _ _ Hfind).
  - by apply (findRoom_updRoom_here _ _ _ _ _ _ Hfind').
  - done.
  - done.
  - cbn [Room.players room1]. apply list_lookup_insert_eq. by eapply lookup_lt_Some.
  - done.
  - done.
  - done.
Qed.

Lemma wonRoom_shotsOnly ws ws' i pIndex pIndex' rooms rooms' :
  wonRoom ws ws' i pIndex pIndex' rooms → pIndex' ≠ pIndex →
  shotsOnly ws ws' rooms rooms' → wonRoom ws ws' i pIndex pIndex' rooms'.
Proof.
  intros Hwon Hne. induction 1 as [|rooms' w cid rid msg _ IH Hw Hty]; [done|].
  by apply wonRoom_shot.
Qed.

(** C3, as the code has it.  The winning shot is answered with the two
    shot outcomes and a [game_over] broadcast to every player of the room,
    and with no [turn] message; the room stays started and the turn stays
    with the winner.  From then on, as long as the two connections send shot
    messages only, every shot message of the other slot is rejected ("Not
    your turn") and changes nothing.  (The winner's shots at cells not yet
    shot are still accepted.) *)
Theorem winning_shot_game_over_loser_locked ws cid rid msg rooms c x y hit sunk sz :
  getProp msg "type" = Some (VStr "shot") →
  (c, MShotResult x y hit sunk sz true) ∈ sent (onMessage ws cid rid (Some msg) rooms) →
  let o := onMessage ws cid rid (Some msg) rooms in
  ∃ i room pIndex room',
    findRoom ws rooms = Some (i, room, pIndex) ∧
    raised o = false ∧
    (∀ p, p ∈ Room.players room → (Player.ws p, MGameOver (pIndex + 1)) ∈ sent o) ∧
    (∀ c' n, (c', MTurn n) ∉ sent o) ∧
    findRoom ws (rooms_after o) = Some (i, room', pIndex) ∧
    Room.started room' = true ∧ Room.turn room' = pIndex ∧
    ∀ ws' room'' pIndex' rooms' cid' rid' msg',
      findRoom ws' (rooms_after o) = Some (i, room'', pIndex') → pIndex' ≠ pIndex →
      shotsOnly ws ws' (rooms_after o) rooms' →
      getProp msg' "type" = Some (VStr "shot") →
      onMessage ws' cid' rid' (Some msg') rooms' = done rooms' [(ws', MError "Not your turn")].
Proof.
  intros Hty Hin o.
  destruct (accepted_shot _ _ _ _ _ _ _ _ _ _ _ _ Hty Hin)
    as (i & key & room & pIndex & attacker & defender & g & cell & fleet & Hfind & Hkey
        & Hst & Hturn & Hatt & Hws & Hd & Hg & Hfleet & Hc & Hcell & -> & Hhit & Hwin & Ho).
  subst o. rewrite Ho. cbn [rooms_after sent raised done orb].
  set (room1 := Room.mk _ _ _).
  assert (Hsame : Player.ws <$> Room.players room1 = Player.ws <$> Room.players room).
  { cbn [Room.players room1]. by apply (ws_insert _ _ defender). }
  assert (Hfind1 : findRoom ws (updRoom i room1 rooms) = Some (i, room1, pIndex))
    by (by apply (findRoom_updRoom_here _ _ _ _ _ _ Hfind)).
  exists i, room, pIndex, room1. split; [done|]. split; [done|].
  split; [|split; [|split; [|split; [|split]]]].
  - intros p Hp. apply elem_of_app. right. apply elem_of_broadcast. split; [done|].
    assert (Hw : Player.ws p ∈ Player.ws <$> Room.players room1).
    { rewrite Hsame. by apply list_elem_of_fmap_2. }
    apply list_elem_of_fmap in Hw as (p' & Hw & Hp'). eauto.
  - intros c' n [H|H]%elem_of_app.
    + apply elem_of_cons in H as [H|H]; [done|]. by apply list_elem_of_singleton in H.
    + by apply elem_of_broadcast in H as [H _].
  - done.
  - done.
  - done.
  - intros ws' room'' pIndex' rooms' cid' rid' msg' Hfind' Hne Hshots Hty'.
    destruct (findRoom_Some _ _ _ _ _ Hfind') as [[key' Hkey'] _].
    rewrite (updRoom_lookup _ _ _ _ room1 Hkey) in Hkey'. injection Hkey' as _ <-.
    assert (Hwon : wonRoom ws ws' i pIndex pIndex' (updRoom i room1 rooms)).
    { eexists room1, _, _, fleet.
      split; [done|]. split; [done|]. split; [done|]. split; [done|].
      split; [cbn [Room.players room1]; apply list_lookup_insert_eq;
              by eapply lookup_lt_Some|].
      cbn [Player.grid Player.ships]. by split_and!. }
    pose proof (wonRoom_shotsOnly _ _ _ _ _ _ _ Hwon Hne Hshots) as Hwon'.
    by apply (wonRoom_shot ws ws' i pIndex pIndex' rooms' ws' cid' rid' msg' Hwon' Hne);
      [right|..].
Qed.

(** *** One slot per connection (C7) *)

Lemma onMessage_connections ws cid rid raw rooms :
  NoDup (connections rooms) →
  (attaches raw = true → findRoom ws rooms = None) →
  NoDup (connections (rooms_after (onMessage ws cid rid raw rooms))).
Proof.
  intros Hnd Hfree. unfold onMessage, attaches in *.
  destruct raw as [msg|]; [|done].
  destruct (getProp msg "type") as [ty|]; [|done].
  destruct (truthy ty); cbn [negb]; [|done].
  destruct ty as [| | | | |kind| |]; try done.
  destruct (String.eqb kind "create_room").
  { specialize (Hfree eq_refl). apply findRoom_None in Hfree.
    apply NoDup_connections_storeSet; [done|apply NoDup_singleton|].
    by intros x ->%list_elem_of_singleton. }
  destruct (String.eqb kind "join_room").
  { specialize (Hfree eq_refl). apply findRoom_None in Hfree.
    destruct (joinToken msg) as [token|]; [|done].
    destruct (join_room_rooms ws cid token rooms) as [->|(i & r & Hi & ->)]; [done|].
    destruct (connections_updRoom rooms i token r
                (Room.mk (Room.players r ++ [newPlayer ws cid]) (Room.turn r) (Room.started r))
                Hi) as (before & after & Hold & ->).
    cbn [Room.players]. rewrite fmap_app. cbn [fmap list_fmap newPlayer Player.ws].
    rewrite <- (assoc (++) _ [ws] after). cbn [app].
    rewrite (assoc (++) before), <- Permutation_middle, <- (assoc (++) before), <- Hold.
    by apply NoDup_cons. }
  destruct (String.eqb kind "place_ready").
  { destruct (findRoom ws rooms) as [[[i room] pIndex]|] eqn:Hfind; [|done].
    destruct (findRoom_Some _ _ _ _ _ Hfind) as [[key Hkey] _].
    destruct (place_ready_rooms ws msg rooms i room pIndex)
      as [->|(pl & g & fleet & t1 & s1 & _ & _ & ->)]; [done|].
    rewrite (connections_updRoom_same rooms i key room); try done.
    cbn [Room.players]. by apply ws_alter. }
  destruct (String.eqb kind "shot"); [|done].
  destruct (findRoom ws rooms) as [[[i room] pIndex]|] eqn:Hfind; [|done].
  destruct (findRoom_Some _ _ _ _ _ Hfind) as [[key Hkey] _].
  destruct (shot_rooms ws msg rooms i room pIndex)
    as [->|(x & y & defender & g & cell & t1 & _ & _ & Hd & _ & _ & _ & ->)]; [done|].
  rewrite (connections_updRoom_same rooms i key room); try done.
  cbn [Room.players]. by apply (ws_insert _ _ defender).
Qed.

Lemma step_connections e rooms :
  NoDup (connections rooms) →
  match e with
  | EMessage ws _ _ raw => attaches raw = true → findRoom ws rooms = None
  | EClose _ => True
  end →
  NoDup (connections (rooms_after (step e rooms))).
Proof.
  intros Hnd Hfree. destruct e as [ws cid rid raw|ws]; cbn [step].
  - by apply onMessage_connections.
  - pose proof (connections_onClose ws rooms) as Hsub.
    destruct (onClose ws rooms) as [rooms1 out]. cbn in *. by eapply sublist_NoDup.
Qed.

(** C7, as the code has it.  Neither [create_room] nor [join_room] looks at
    the slot the sender may already hold.  What holds is: in every run in
    which connections send [create_room] and [join_room] only while they
    hold no slot, each connection occupies at most one (room, slot) pair. *)
Theorem one_slot_per_connection_if_unattached_when_joining es rooms :
  NoDup (connections rooms) → disciplined es rooms →
  NoDup (connections (rooms_after (run es rooms))).
Proof.
  revert rooms. induction es as [|e es IH]; intros rooms Hnd Hdisc; [done|].
  cbn [disciplined run] in *. destruct Hdisc as [Hfree Hrest].
  pose proof (step_connections e rooms Hnd Hfree) as Hnd1.
  destruct (raised (step e rooms)); [done|].
  cbn [rooms_after]. apply IH; [done|]. by apply Hrest.
Qed.

(** *** Grids and fleets over time (C8) *)

(** C8, as the code has it.  A message changes the grid or the fleet of a
    slot in two ways only.  An accepted [place_ready] of the slot's own
    connection stores the validated grid and fleet, whether or not the slot
    was populated before (a later placement replaces an earlier one); that
    grid holds [Ship] on the fleet's cells and [Empty] elsewhere.  An
    accepted shot leaves the defender's fleet as it is and changes its grid at
    the targeted cell only, from [Ship] to [Hit] or from [Empty] to [Miss];
    every other cell, hence every [Hit] or [Miss] cell, stays.  (A
    [create_room] whose token collides with the room's key is left aside: it
    replaces the whole room.) *)
Theorem grid_changes_only_by_placement_or_shot ws cid rid msg rooms i key room j p :
  rooms !! i = Some (key, room) → Room.players room !! j = Some p →
  (getProp msg "type" = Some (VStr "create_room") → key ≠ rid) →
  let o := onMessage ws cid rid (Some msg) rooms in
  ∃ room' p',
    rooms_after o !! i = Some (key, room') ∧ Room.players room' !! j = Some p' ∧
    slotChange ws msg p p'.
Proof.
  intros Hi Hj Hfresh o. subst o.
  assert (Hrefl : slotChange ws msg p p) by (split; [done|by left]).
  assert (Hsame : ∀ o, rooms_after o = rooms →
            ∃ room' p', rooms_after o !! i = Some (key, room') ∧
              Room.players room' !! j = Some p' ∧ slotChange ws msg p p').
  { intros o ->. by exists room, p. }
  assert (Hother : ∀ o i' r', rooms_after o = updRoom i' r' rooms → i' ≠ i →
            ∃ room' p', rooms_after o !! i = Some (key, room') ∧
              Room.players room' !! j = Some p' ∧ slotChange ws msg p p').
  { intros o i' r' -> Hne. exists room, p. by rewrite updRoom_lookup_ne. }
  unfold onMessage.
  destruct (getProp msg "type") as [ty|] eqn:Hty; [|by apply Hsame].
  destruct (truthy ty); cbn [negb]; [|by apply Hsame].
  destruct ty as [| | | | |kind| |]; try by apply Hsame.
  destruct (String.eqb_spec kind "create_room") as [->|_].
  { exists room, p. split; [|done]. cbn. apply storeSet_lookup_ne; [done|]. by apply Hfresh. }
  destruct (String.eqb_spec kind "join_room") as [->|_].
  { destruct (joinToken msg) as [token|]; [|by apply Hsame].
    destruct (join_room_rooms ws cid token rooms) as [Hr|(i' & r & Hi' & Hr)];
      [by apply Hsame|].
    destruct (decide (i' = i)) as [->|Hne]; [|by eapply Hother].
    rewrite Hi in Hi'. injection Hi' as -> <-.
    eexists _, p. rewrite Hr. split; [by eapply updRoom_lookup|].
    split; [by apply lookup_app_l_Some|done]. }
  destruct (String.eqb_spec kind "place_ready") as [->|_].
  { destruct (findRoom ws rooms) as [[[i' room0] pIndex]|] eqn:Hfind; [|by apply Hsame].
    destruct (findRoom_Some _ _ _ _ _ Hfind) as [[key' Hkey'] _].
    destruct (findRoom_player _ _ _ _ _ Hfind) as (p0 & Hp0 & Hws0).
    destruct (place_ready_rooms ws msg rooms i' room0 pIndex)
      as [Hr|(pl & g & fleet & t1 & s1 & Hpl & Hv & Hr)]; [by apply Hsame|].
    destruct (decide (i' = i)) as [->|Hne]; [|by eapply Hother].
    rewrite Hi in Hkey'. injection Hkey' as <- <-.
    rewrite Hr.
    destruct (decide (pIndex = j)) as [->|Hnej];
      (eexists _, _; split; [by eapply updRoom_lookup|]; cbn [Room.players]).
    - rewrite list_lookup_alter_eq, Hj. cbn. split; [done|]. split; [done|].
      right. left. exists pl, g, fleet.
      rewrite Hj in Hp0. injection Hp0 as <-.
      destruct (validatePlacement_sound _ _ _ Hv) as (_ & _ & _ & _ & _ & Hm).
      by split_and!.
    - rewrite list_lookup_alter_ne by done. split; [exact Hj|exact Hrefl]. }
  destruct (String.eqb_spec kind "shot") as [->|_]; [|by apply Hsame].
  destruct (findRoom ws rooms) as [[[i' room0] pIndex]|] eqn:Hfind; [|by apply Hsame].
  destruct (findRoom_Some _ _ _ _ _ Hfind) as [[key' Hkey'] _].
  destruct (shot_rooms ws msg rooms i' room0 pIndex)
    as [Hr|(x & y & defender & g & cell & t1 & Hx & Hy & Hd & Hg & Hc & Hcell & Hr)];
    [by apply Hsame|].
  destruct (decide (i' = i)) as [->|Hne]; [|by eapply Hother].
  rewrite Hi in Hkey'. injection Hkey' as <- <-.
  rewrite Hr.
  destruct (decide (otherIndex pIndex = j)) as [<-|Hnej];
    (eexists _, _; split; [by eapply updRoom_lookup|]; cbn [Room.players]).
  - rewrite list_lookup_insert_eq by (by eapply lookup_lt_Some).
    rewrite Hj in Hd. injection Hd as <-.
    split; [done|]. split; [done|]. right. right.
    eexists g, _, x, y. cbn [Player.grid Player.ships]. split_and!; try done.
    + destruct Hcell as [-> | ->]; cbn.
      * right. split; [done|]. by eapply cellAt_setCell_same.
      * left. split; [done|]. by eapply cellAt_setCell_same.
    + intros x' y' Hne. apply cellAt_setCell_other; [by rewrite Hc|done].
  - rewrite list_lookup_insert_ne by done. split; [exact Hj|exact Hrefl].
Qed.

(** *** Well-formed rooms

    Every state the server reaches is well formed, so that a shot inside
    the grid always finds a cell, and a slot with a grid has a fleet: the
    only TypeErrors of a shot are those of a missing opponent or of an
    opponent that has not placed. *)

Lemma wfRooms_updRoom rooms i room :
  wfRooms rooms → Forall wfPlayer (Room.players room) → wfRooms (updRoom i room rooms).
Proof. intros Hwf Hroom. apply Forall_alter; [done|]. by intros [k r] _ _. Qed.

Lemma wfRooms_storeSet rid room rooms :
  wfRooms rooms → Forall wfPlayer (Room.players room) → wfRooms (storeSet rid room rooms).
Proof.
  intros Hwf Hroom. induction Hwf as [|[k r] rooms Hr Hwf IH]; cbn [storeSet].
  - by repeat constructor.
  - destruct (String.eqb k rid); constructor; done.
Qed.

Lemma wfRooms_lookup rooms i key room :
  wfRooms rooms → rooms !! i = Some (key, room) → Forall wfPlayer (Room.players room).
Proof. intros Hwf Hi. apply (Forall_lookup_1 _ _ _ _ Hwf Hi). Qed.

Lemma wfRooms_onClose ws rooms : wfRooms rooms → wfRooms (onClose ws rooms).1.
Proof.
  induction 1 as [|[k r] rooms Hr Hwf IH]; cbn [onClose]; [constructor|].
  destruct (findIndex ws (Room.players r)) as [idx|].
  - cbn [Room.players]. destruct (_ =? 0)%nat; [done|].
    constructor; [|done]. by apply Forall_delete.
  - destruct (onClose ws rooms) as [rest1 out]. by constructor.
Qed.

Lemma onMessage_wfRooms ws cid rid raw rooms :
  wfRooms rooms → wfRooms (rooms_after (onMessage ws cid rid raw rooms)).
Proof.
  intros Hwf. unfold onMessage.
  destruct raw as [msg|]; [|done].
  destruct (getProp msg "type") as [ty|]; [|done].
  destruct (truthy ty); cbn [negb]; [|done].
  destruct ty as [| | | | |kind| |]; try done.
  destruct (String.eqb kind "create_room").
  { apply wfRooms_storeSet; [done|]. by repeat constructor. }
  destruct (String.eqb kind "join_room").
  { destruct (joinToken msg) as [token|]; [|done].
    destruct (join_room_rooms ws cid token rooms) as [->|(i & r & Hi & ->)]; [done|].
    apply wfRooms_updRoom; [done|]. cbn [Room.players]. apply Forall_app. split.
    - by eapply wfRooms_lookup.
    - by repeat constructor. }
  destruct (String.eqb kind "place_ready").
  { destruct (findRoom ws rooms) as [[[i room] pIndex]|] eqn:Hfind; [|done].
    destruct (findRoom_Some _ _ _ _ _ Hfind) as [[key Hkey] _].
    destruct (place_ready_rooms ws msg rooms i room pIndex)
      as [->|(pl & g & fleet & t1 & s1 & _ & Hv & ->)]; [done|].
    apply wfRooms_updRoom; [done|]. cbn [Room.players].
    apply Forall_alter; [by eapply wfRooms_lookup|]. intros p _ _.
    destruct (validatePlacement_sound _ _ _ Hv) as (_ & _ & Hb & _ & _ & [Hg _]).
    by split. }
  destruct (String.eqb kind "shot"); [|done].
  destruct (findRoom ws rooms) as [[[i room] pIndex]|] eqn:Hfind; [|done].
  destruct (findRoom_Some _ _ _ _ _ Hfind) as [[key Hkey] _].
  pose proof (wfRooms_lookup _ _ _ _ Hwf Hkey) as Hroom.
  destruct (shot_rooms ws msg rooms i room pIndex)
    as [->|(x & y & defender & g & cell & t1 & _ & _ & Hd & Hg & _ & _ & ->)]; [done|].
  apply wfRooms_updRoom; [done|]. cbn [Room.players].
  apply Forall_insert; [done|].
  pose proof (Forall_lookup_1 _ _ _ _ Hroom Hd) as Hdef.
  unfold wfPlayer in *. cbn [Player.grid Player.ships]. rewrite Hg in Hdef.
  destruct (Player.ships defender); [|done].
  destruct Hdef as [Hwfg Hb]. split; [by apply wfGrid_setCell|done].
Qed.

Lemma run_wfRooms es rooms : wfRooms rooms → wfRooms (rooms_after (run es rooms)).
Proof.
  revert rooms. induction es as [|e es IH]; intros rooms Hwf; [done|]. cbn [run].
  assert (Hwf1 : wfRooms (rooms_after (step e rooms))).
  { destruct e as [ws cid rid raw|ws]; cbn [step].
    - by apply onMessage_wfRooms.
    - pose proof (wfRooms_onClose ws rooms Hwf) as H'.
      by destruct (onClose ws rooms). }
  destruct (raised (step e rooms)); [done|]. cbn [rooms_after]. by apply IH.
Qed.

(** In well-formed rooms a shot message raises only for want of an opponent
    with a grid. *)
Lemma shot_raises_only_without_opponent ws cid rid msg rooms :
  wfRooms rooms → getProp msg "type" = Some (VStr "shot") →
  raised (onMessage ws cid rid (Some msg) rooms) = true →
  ∃ i room pIndex,
    findRoom ws rooms = Some (i, room, pIndex) ∧
    Room.started room = true ∧ pIndex = Room.turn room ∧
    match Room.players room !! otherIndex pIndex with
    | None => True
    | Some defender => Player.grid defender = None
    end.
Proof.
  intros Hwf Hty. rewrite (onMessage_shot _ _ _ _ _ Hty).
  destruct (findRoom ws rooms) as [[[i room] pIndex]|] eqn:Hfind; [|done].
  destruct (findRoom_Some _ _ _ _ _ Hfind) as [[key Hkey] _].
  destruct (findRoom_player _ _ _ _ _ Hfind) as (attacker & Hatt & Hws).
  pose proof (wfRooms_lookup _ _ _ _ Hwf Hkey) as Hroom.
  intros Hraised. exists i, room, pIndex. split; [done|].
  unfold shot in Hraised.
  destruct (Room.started room); cbn [negb] in Hraised; [|done].
  destruct (Nat.eqb_spec pIndex (Room.turn room)); cbn [negb] in Hraised; [|done].
  split; [done|]. split; [done|].
  destruct (getProp msg "type") as [ty|] eqn:Hty'; [|done].
  destruct msg as [| | | | | | |fields]; try done. cbn [getProp] in Hraised.
  destruct (lookupField "x" fields) as [| | |x| | | |]; try by destruct (lookupField "y" fields).
  destruct (lookupField "y" fields) as [| | |y| | | |]; try done.
  destruct (_ || _) eqn:Hb; [done|]. apply outOfBounds_false in Hb.
  destruct (Room.players room !! otherIndex pIndex) as [defender|] eqn:Hd; [|done].
  destruct (Player.grid defender) as [g|] eqn:Hg; [|done]. exfalso.
  pose proof (Forall_lookup_1 _ _ _ _ Hroom Hd) as Hdef.
  unfold wfPlayer in Hdef. rewrite Hg in Hdef.
  destruct (Player.ships defender) as [fleet|] eqn:Hfleet; [|done].
  destruct Hdef as [Hwfg _].
  destruct (cellAt_is_Some g x y Hwfg Hb) as [cell Hc]. rewrite Hc in Hraised.
  destruct (resolveShot_spec rooms i room pIndex x y defender g cell attacker fleet
              Hatt Hfleet) as (sunk & sz & Hres).
  rewrite Hres in Hraised. by destruct cell.
Qed.

(** *** A missing opponent (C9) *)

(** The turn-holder's shot at a valid target, in a started room whose other
    slot is missing, raises a TypeError ([defender] is [undefined]). *)
Lemma shot_without_opponent_raises ws cid rid msg rooms i room pIndex x y :
  getProp msg "type" = Some (VStr "shot") →
  findRoom ws rooms = Some (i, room, pIndex) →
  Room.started room = true → pIndex = Room.turn room →
  getProp msg "x" = Some (VNum x) → getProp msg "y" = Some (VNum y) → inBounds (x, y) →
  Room.players room !! otherIndex pIndex = None →
  onMessage ws cid rid (Some msg) rooms = throws rooms [].
Proof.
  intros Hty Hfind Hst Hturn Hx Hy Hb%outOfBounds_false Hd.
  rewrite (onMessage_shot _ _ _ _ _ Hty), Hfind. unfold shot.
  rewrite Hst, Hx, Hy, Hb, Hd. cbn [negb].
  by destruct (Nat.eqb_spec pIndex (Room.turn room)).
Qed.

(** *** Messages without a type (C10) *)

(** A message that is not [null] and whose [type] is missing or falsy is
    dropped: nothing is sent and the rooms stay. *)
Lemma typeless_message_dropped ws cid rid msg rooms ty :
  getProp msg "type" = Some ty → truthy ty = false →
  onMessage ws cid rid (Some msg) rooms = done rooms [].
Proof. intros Hty Hf. unfold onMessage. by rewrite Hty, Hf. Qed.

(** C10 fails on the message [null]: it parses as JSON and has no [type],
    but reading [msg.type] raises a TypeError that nothing catches, instead
    of the message being dropped. *)
Theorem null_message_raises ws cid rid rooms :
  onMessage ws cid rid (Some VNull) rooms = throws rooms [] ∧
  raised (onMessage ws cid rid (Some VNull) rooms) = true.
Proof. done. Qed.

End Dispatch.

(** * The scenarios *)

Section Scenarios.

Local Ltac in_sent :=
  vm_compute; repeat first [apply list_elem_of_here | apply list_elem_of_further].

Lemma win_flag_iff_fleet_destroyed_witness :
  (1%nat, MShotResult 0 0 true false None false)
    ∈ sent (handle 1 "uuid" "ROOM01" (Some (msgShot 0 0)) afterSetup) ∧
  ∃ g' fleet,
    slotShips afterFirstHit 0 1 = Some fleet ∧
    (false = true ↔ ∀ s cell, s ∈ fleet → cell ∈ s → cellAt g' cell.1 cell.2 = Some Hit).
Proof.
  assert (Hin : (1%nat, MShotResult 0 0 true false None false)
                  ∈ sent (handle 1 "uuid" "ROOM01" (Some (msgShot 0 0)) afterSetup))
    by in_sent.
  split; [exact Hin|].
  destruct (win_flag_iff_fleet_destroyed (strings := sampleStrings)
              1%nat "uuid" "ROOM01" (msgShot 0 0) afterSetup _ _ _ _ _ _ _ eq_refl Hin)
    as (i & room & pIndex & key & room' & defender' & g' & fleet & Hfind & _ & Hroom'
        & Hdef & _ & Hfleet & _ & _ & _ & _ & Hiff).
  exists g', fleet. split; [|exact Hiff].
  vm_compute in Hfind. injection Hfind as <- <- <-.
  change (afterFirstHit !! 0%nat = Some (key, room')) in Hroom'.
  unfold slotShips. rewrite Hroom'. cbn. cbn in Hdef. rewrite Hdef. exact Hfleet.
Defined.

Lemma turn_kept_on_hit_flipped_on_miss_witness :
  (1%nat, MShotResult 1 1 false false None false)
    ∈ sent (handle 1 "uuid" "ROOM01" (Some (msgShot 1 1)) afterSetup) ∧
  (∃ room',
     findRoom 1 (rooms_after (handle 1 "uuid" "ROOM01" (Some (msgShot 1 1)) afterSetup))
       = Some (0%nat, room', 0%nat) ∧ Room.turn room' = 1%nat) ∧
  (∃ room',
     findRoom 1 (rooms_after
                   (runEvents (shotsFrom 1 "uuid" "ROOM01" [msgShot 0 0; msgShot 1 0])
                              afterSetup))
       = Some (0%nat, room', 0%nat) ∧ Room.turn room' = 0%nat).
Proof.
  assert (Hin : (1%nat, MShotResult 1 1 false false None false)
                  ∈ sent (handle 1 "uuid" "ROOM01" (Some (msgShot 1 1)) afterSetup))
    by in_sent.
  split; [exact Hin|]. split.
  - destruct (proj1 (turn_kept_on_hit_flipped_on_miss (strings := sampleStrings)
                       1%nat "uuid" "ROOM01")
                (msgShot 1 1) afterSetup _ _ _ _ _ _ eq_refl Hin)
      as (i & room & pIndex & room' & Hfind & _ & _ & Hfind' & Hturn).
    vm_compute in Hfind. injection Hfind as <- <- <-.
    exists room'. split; [exact Hfind'|exact Hturn].
  - pose proof (proj2 (turn_kept_on_hit_flipped_on_miss (strings := sampleStrings)
                         1%nat "uuid" "ROOM01")
                  [msgShot 0 0; msgShot 1 0] afterSetup 0%nat) as Hseq.
    edestruct Hseq as (room' & Hfind' & Hturn).
    + repeat constructor.
    + vm_compute. reflexivity.
    + intros c x y hit sunk sz win Hin'. vm_compute in Hin'.
      repeat (apply elem_of_cons in Hin' as [Hin'|Hin'];
              [try discriminate Hin'; by injection Hin'|]).
      by apply elem_of_nil in Hin'.
    + exists room'. split; [exact Hfind'|exact Hturn].
Defined.

Lemma shot_at_resolved_cell_rejected_witness :
  slotCell afterFirstHit 0 1 0 0 = Some Hit ∧
  handle 1 "uuid" "ROOM01" (Some (msgShot 0 0)) afterFirstHit
    = done afterFirstHit [(1%nat, MError "Already shot there")].
Proof.
  split; [reflexivity|].
  edestruct (shot_at_resolved_cell_rejected (strings := sampleStrings)
               1%nat "uuid" "ROOM01" (msgShot 0 0) afterFirstHit)
    as (reason & Heq & Hreason).
  - reflexivity.
  - vm_compute. reflexivity.
  - vm_compute. reflexivity.
  - reflexivity.
  - reflexivity.
  - reflexivity.
  - left. reflexivity.
  - unfold handle. rewrite Heq, Hreason; [reflexivity|reflexivity|reflexivity|].
    unfold inBounds, SIZE. cbn. lia.
Defined.


(** C3 as stated fails: after connection 1 has won, its next shot,
    at the empty cell (9,0), is accepted: it is answered with a shot result
    and a second [game_over], not with an error, and it marks the cell. *)
Lemma shot_accepted_after_win :
  rooms_after (runEvents
                 (setup ++ map (λ c, msgOf 1 (msgShot c.1 c.2)) (concat fleetA)) [])
    = afterWin ∧
  (1%nat, MGameOver 1) ∈ sent (handle 1 "uuid" "ROOM01" (Some (msgShot 4 8)) beforeWin) ∧
  sent (handle 1 "uuid" "ROOM01" (Some (msgShot 9 0)) afterWin)
    = [(1%nat, MShotResult 9 0 false false None true);
       (2%nat, MGotShot 9 0 false false None true);
       (1%nat, MGameOver 1); (2%nat, MGameOver 1)] ∧
  slotCell afterWin 0 1 9 0 = Some Empty ∧
  slotCell (rooms_after (handle 1 "uuid" "ROOM01" (Some (msgShot 9 0)) afterWin)) 0 1 9 0
    = Some Miss ∧
  ¬ ∃ m, handle 1 "uuid" "ROOM01" (Some (msgShot 9 0)) afterWin
         = done afterWin [(1%nat, MError m)].
Proof.
  split; [vm_compute; reflexivity|]. split; [in_sent|].
  split; [vm_compute; reflexivity|]. split; [vm_compute; reflexivity|].
  split; [vm_compute; reflexivity|].
  intros [m Hm]. apply (f_equal sent) in Hm. vm_compute in Hm. discriminate Hm.
Qed.

Lemma winning_shot_game_over_loser_locked_witness :
  (1%nat, MShotResult 4 8 true true (Some 2%nat) true)
    ∈ sent (handle 1 "uuid" "ROOM01" (Some (msgShot 4 8)) beforeWin) ∧
  handle 2 "uuid" "ROOM01" (Some (msgShot 5 5)) afterWin
    = done afterWin [(2%nat, MError "Not your turn")].
Proof.
  assert (Hin : (1%nat, MShotResult 4 8 true true (Some 2%nat) true)
                  ∈ sent (handle 1 "uuid" "ROOM01" (Some (msgShot 4 8)) beforeWin))
    by in_sent.
  split; [exact Hin|].
  destruct (winning_shot_game_over_loser_locked (strings := sampleStrings)
              1%nat "uuid" "ROOM01" (msgShot 4 8) beforeWin _ _ _ _ _ _ eq_refl Hin)
    as (i & room & pIndex & room' & Hfind & _ & _ & _ & _ & _ & _ & Hnext).
  vm_compute in Hfind. injection Hfind as <- <- <-.
  eapply (Hnext 2%nat _ 1%nat afterWin "uuid" "ROOM01" (msgShot 5 5)).
  - vm_compute. reflexivity.
  - discriminate.
  - apply shotsOnly_refl.
  - reflexivity.
Defined.

(** C7 as stated fails: a connection that already holds a slot gets
    a second one by [create_room] (a second room) and by [join_room] (the
    second slot of its own room). *)
Lemma connection_in_two_slots :
  connections (rooms_after
                 (runEvents [EMessage 1 "uuid" "ROOM01" (Some msgCreate);
                             EMessage 1 "uuid" "ROOM02" (Some msgCreate)] []))
    = [1%nat; 1%nat] ∧
  connections (rooms_after
                 (runEvents [msgOf 1 msgCreate; msgOf 1 (msgJoin "ROOM01")] []))
    = [1%nat; 1%nat] ∧
  ¬ NoDup [1%nat; 1%nat].
Proof.
  split; [vm_compute; reflexivity|]. split; [vm_compute; reflexivity|].
  intros [Hnot _]%NoDup_cons. apply Hnot. left.
Qed.

Lemma one_slot_per_connection_if_unattached_when_joining_witness :
  disciplined (strings := sampleStrings) setup [] ∧
  NoDup (connections (rooms_after (runEvents setup []))).
Proof.
  assert (Hdisc : disciplined (strings := sampleStrings) setup []).
  { vm_compute.
    repeat (split; [first [intros _; reflexivity | intros [=]]|intros _]). exact I. }
  split; [exact Hdisc|].
  exact (one_slot_per_connection_if_unattached_when_joining (strings := sampleStrings)
           setup [] (NoDup_nil_2) Hdisc).
Defined.

(** C8 as stated fails: connection 2, whose cell (0,0) has been
    hit, sends [place_ready] again; the placement is accepted, its grid and
    fleet are replaced, and the cell that was [Hit] is [Empty] again. *)
Lemma placement_replaced_after_hit :
  rooms_after (runEvents (setup ++ [msgOf 1 (msgShot 0 0)]) []) = afterFirstHit ∧
  slotCell afterFirstHit 0 1 0 0 = Some Hit ∧
  slotShips afterFirstHit 0 1 = Some fleetA ∧
  sent (handle 2 "uuid" "ROOM01" (Some (msgPlace fleetB)) afterFirstHit)
    = [(2%nat, MReadyOk); (1%nat, MStatus (PlayerReady 2)); (2%nat, MStatus (PlayerReady 2))] ∧
  slotCell (rooms_after (handle 2 "uuid" "ROOM01" (Some (msgPlace fleetB)) afterFirstHit))
           0 1 0 0 = Some Empty ∧
  slotShips (rooms_after (handle 2 "uuid" "ROOM01" (Some (msgPlace fleetB)) afterFirstHit))
            0 1 = Some fleetB.
Proof. repeat split; vm_compute; reflexivity. Qed.

Lemma grid_changes_only_by_placement_or_shot_witness :
  ∃ p p', slotChange 2 (msgPlace fleetB) p p' ∧
          Player.grid p ≠ Player.grid p' ∧ Player.ws p = 2%nat.
Proof.
  pose proof (grid_changes_only_by_placement_or_shot (strings := sampleStrings)
                2%nat "uuid" "ROOM01" (msgPlace fleetB) afterFirstHit 0%nat "ROOM01") as H.
  pose proof (λ room, H room 1%nat) as H1.
  edestruct H1 as (room' & p' & Hroom' & Hp' & Hchange).
  - reflexivity.
  - reflexivity.
  - intros [=].
  - eexists _, p'. split; [exact Hchange|].
    vm_compute in Hroom'. injection Hroom' as <-.
    vm_compute in Hp'. injection Hp' as <-.
    split; [|reflexivity]. cbn. intros [=].
Defined.

(** C9 fails in this scenario: connection 2 leaves a started game, in
    which connection 1 holds the turn; the next shot of connection 1 raises
    a TypeError at [defender.grid] instead of being rejected. *)
Theorem shot_after_opponent_left_raises :
  rooms_after (runEvents (setup ++ [EClose 2]) []) = afterLeave ∧
  connections afterLeave = [1%nat] ∧
  (∃ room, findRoom 1 afterLeave = Some (0%nat, room, 0%nat) ∧
           Room.started room = true ∧ Room.turn room = 0%nat ∧
           Room.players room !! 1%nat = None) ∧
  handle 1 "uuid" "ROOM01" (Some (msgShot 0 0)) afterLeave = throws afterLeave [] ∧
  raised (handle 1 "uuid" "ROOM01" (Some (msgShot 0 0)) afterLeave) = true.
Proof.
  split; [vm_compute; reflexivity|]. split; [vm_compute; reflexivity|].
  split; [eexists; repeat split; vm_compute; reflexivity|].
  split; vm_compute; reflexivity.
Qed.

End Scenarios.

(** * Invariants of the reachable rooms *)

Section RoomInvariants.

Context {strings : JsStrings}.

(** The room left by [place_ready]: unchanged, or the sender's slot holds
    the validated grid and fleet and, if this starts the game, the room is
    started with the turn at slot 0. *)
Lemma place_ready_effect ws msg rooms i room pIndex :
  let o := place_ready ws msg rooms (Some (i, room, pIndex)) in
  rooms_after o = rooms ∨
  ∃ placement g fleet,
    (2 ≤ length (Room.players room))%nat ∧
    getProp msg "placement" = Some placement ∧
    validatePlacement placement = VOk g fleet ∧
    let ps :=
      alter (λ p, Player.mk (Player.ws p) (Player.id p) true (Some g) (Some fleet))
            pIndex (Room.players room) in
    (rooms_after o = updRoom i (Room.mk ps (Room.turn room) (Room.started room)) rooms ∨
     (Room.started room = false ∧ rooms_after o = updRoom i (Room.mk ps O true) rooms)).
Proof.
  cbn zeta. unfold place_ready.
  destruct (Nat.ltb_spec (length (Room.players room)) 2) as [|Hlen]; [by left|].
  destruct (getProp msg "placement") as [placement|]; [|by left].
  destruct (validatePlacement placement) as [g fleet|err|] eqn:Hv; [|by left|by left].
  right. exists placement, g, fleet. split; [done|]. split; [done|]. split; [done|].
  destruct (_ !! O) as [p0|]; [|by left].
  destruct (Player.ready p0); cbn [negb]; [|by left].
  destruct (_ !! 1%nat) as [p1|]; [|by left].
  cbn [Room.started]. destruct (Room.started room); cbn [negb].
  - rewrite andb_false_r. by left.
  - rewrite andb_true_r. destruct (Player.ready p1); [by right|by left].
Qed.

(** The room left by [shot]: unchanged, or the targeted cell of the other
    slot is marked and the turn stays or passes to the other slot. *)
Lemma shot_effect ws msg rooms i room pIndex :
  let o := shot ws msg rooms (Some (i, room, pIndex)) in
  rooms_after o = rooms ∨
  ∃ x y defender g cell turn1,
    Room.started room = true ∧ pIndex = Room.turn room ∧ inBounds (x, y) ∧
    getProp msg "x" = Some (VNum x) ∧ getProp msg "y" = Some (VNum y) ∧
    Room.players room !! otherIndex pIndex = Some defender ∧
    Player.grid defender = Some g ∧ cellAt g x y = Some cell ∧
    (cell = Empty ∨ cell = Ship) ∧
    (turn1 = Room.turn room ∨ turn1 = otherIndex (Room.turn room)) ∧
    rooms_after o =
      updRoom i
        (Room.mk
           (<[otherIndex pIndex :=
                Player.mk (Player.ws defender) (Player.id defender) (Player.ready defender)
                  (Some (setCell g x y (if bool_decide (cell = Ship) then Hit else Miss)))
                  (Player.ships defender)]> (Room.players room))
           turn1 (Room.started room))
        rooms.
Proof.
  destruct (shot_cases ws msg rooms i room pIndex)
    as [[m Hm]|[Hthrow|(x & y & defender & g & cell & Hst & Hturn & Hx & Hy & Hb & Hd & Hg
                         & Hc & Hcell & Hres)]]; cbn zeta.
  - left. by rewrite Hm.
  - left. by rewrite Hthrow.
  - right. exists x, y, defender, g, cell. rewrite Hres.
    unfold resolveShot. cbn zeta. cbn [Player.ships].
    destruct (Player.ships defender) as [fleet|]; [|eexists; eauto 15].
    destruct (_ !! pIndex) as [attacker|]; [|eexists; eauto 15].
    destruct (if bool_decide (cell = Ship) then _ else _) as [sunk sunkSize].
    destruct (allShipsSunk _ _); [eexists; eauto 15|].
    destruct (bool_decide (cell = Ship)); eexists; cbn [Room.turn Room.players Room.started];
      eauto 15.
Qed.

Lemma Forall_updRoom (P : Room.t → Prop) (rooms : store) i room :
  Forall (λ e, P e.2) rooms → P room → Forall (λ e, P e.2) (updRoom i room rooms).
Proof. intros Hall Hroom. apply Forall_alter; [done|]. by intros [k r] _ _. Qed.

Lemma Forall_storeSet (P : Room.t → Prop) (rooms : store) rid room :
  Forall (λ e, P e.2) rooms → P room → Forall (λ e, P e.2) (storeSet rid room rooms).
Proof.
  intros Hall Hroom. induction Hall as [|[k r] rooms Hr Hall IH]; cbn [storeSet].
  - by repeat constructor.
  - destruct (String.eqb k rid); constructor; done.
Qed.

Lemma otherIndex_lt i : (otherIndex i < 2)%nat.
Proof. destruct i; cbn; lia. Qed.

Lemma shapedRooms_onClose ws rooms : shapedRooms rooms → shapedRooms (onClose ws rooms).1.
Proof.
  induction 1 as [|[k r] rooms Hr Hall IH]; cbn [onClose]; [constructor|].
  destruct (findIndex ws (Room.players r)) as [idx|] eqn:Hidx.
  - cbn [Room.players]. destruct (Nat.eqb_spec (length (delete idx (Room.players r))) 0)
      as [|Hne]; [done|].
    constructor; [|done]. destruct Hr as (Hlen & Ht & Hs).
    split; [|done]. cbn [snd Room.players].
    destruct (findIndex_Some _ _ _ Hidx) as (p & Hp & _).
    pose proof (length_delete (Room.players r) idx (mk_is_Some _ _ Hp)) as Hdel.
    cbn [snd] in Hlen. lia.
  - destruct (onClose ws rooms) as [rest1 out]. by constructor.
Qed.

Lemma onMessage_shapedRooms ws cid rid raw rooms :
  shapedRooms rooms → shapedRooms (rooms_after (onMessage ws cid rid raw rooms)).
Proof.
  intros Hall. unfold onMessage.
  destruct raw as [msg|]; [|done].
  destruct (getProp msg "type") as [ty|]; [|done].
  destruct (truthy ty); cbn [negb]; [|done].
  destruct ty as [| | | | |kind| |]; try done.
  destruct (String.eqb kind "create_room").
  { apply (Forall_storeSet roomShape); [done|]. repeat split; cbn; lia. }
  destruct (String.eqb kind "join_room").
  { destruct (joinToken msg) as [token|]; [|done].
    unfold join_room.
    destruct (storeGet token rooms) as [[i r]|] eqn:Hget; [|done].
    apply storeGet_Some in Hget.
    destruct (Nat.leb_spec 2 (length (Room.players r))) as [|Hlen]; [done|].
    assert (Hgoal : shapedRooms (updRoom i
              (Room.mk (Room.players r ++ [newPlayer ws cid]) (Room.turn r) (Room.started r))
              rooms)).
    { apply (Forall_updRoom roomShape); [done|].
      destruct (Forall_lookup_1 _ _ _ _ Hall Hget) as (Hl & Ht & Hs). cbn [snd] in *.
      split; [|done]. cbn [Room.players]. rewrite length_app. cbn. lia. }
    cbn zeta. destruct (_ !! O) as [p0|]; [|done].
    by destruct (_ !! 1%nat) as [p1|]. }
  destruct (String.eqb kind "place_ready").
  { destruct (findRoom ws rooms) as [[[i room] pIndex]|] eqn:Hfind; [|done].
    destruct (findRoom_Some _ _ _ _ _ Hfind) as [[key Hkey] _].
    destruct (Forall_lookup_1 _ _ _ _ Hall Hkey) as (Hl & Ht & Hs). cbn [snd] in *.
    destruct (place_ready_effect ws msg rooms i room pIndex)
      as [->|(pl & g & fleet & _ & _ & _ & [->|[_ ->]])]; [done| |];
      apply (Forall_updRoom roomShape); try done;
      (split; [cbn [Room.players]; by rewrite length_alter|]); cbn; [done|].
    split; [lia|done]. }
  destruct (String.eqb kind "shot"); [|done].
  destruct (findRoom ws rooms) as [[[i room] pIndex]|] eqn:Hfind; [|done].
  destruct (findRoom_Some _ _ _ _ _ Hfind) as [[key Hkey] _].
  destruct (Forall_lookup_1 _ _ _ _ Hall Hkey) as (Hl & Ht & Hs). cbn [snd] in *.
  destruct (shot_effect ws msg rooms i room pIndex)
    as [->|(x & y & defender & g & cell & t1 & Hst & _ & _ & _ & _ & _ & _ & _ & _ & Ht1 & ->)];
    [done|].
  apply (Forall_updRoom roomShape); [done|].
  split; [cbn [Room.players]; by rewrite length_insert|]. cbn [Room.turn Room.started].
  split; [|by rewrite Hst].
  destruct Ht1 as [->| ->]; [done|apply otherIndex_lt].
Qed.

Lemma step_shapedRooms e rooms :
  shapedRooms rooms → shapedRooms (rooms_after (step e rooms)).
Proof.
  intros Hall. destruct e as [ws cid rid raw|ws]; cbn [step].
  - by apply onMessage_shapedRooms.
  - pose proof (shapedRooms_onClose ws rooms Hall) as H'.
    by destruct (onClose ws rooms).
Qed.

Lemma run_shapedRooms es rooms :
  shapedRooms rooms → shapedRooms (rooms_after (run es rooms)).
Proof.
  revert rooms. induction es as [|e es IH]; intros rooms Hall; [done|]. cbn [run].
  pose proof (step_shapedRooms e rooms Hall) as H1.
  destruct (raised (step e rooms)); [done|]. cbn [rooms_after]. by apply IH.
Qed.

Lemma placedOn_marks g (fleet : list ShipCells) : marks g (concat fleet) → placedOn g fleet.
Proof.
  intros [_ Hm] x y Hb. rewrite (Hm x y Hb).
  destruct (decide ((x, y) ∈ concat fleet)); split; intros H; try done.
  - by left.
  - by destruct H.
Qed.

Lemma placedOn_setCell g (fleet : list ShipCells) x y cell :
  wfGrid g → inBounds (x, y) → cellAt g x y = Some cell → cell = Empty ∨ cell = Ship →
  placedOn g fleet →
  placedOn (setCell g x y (if bool_decide (cell = Ship) then Hit else Miss)) fleet.
Proof.
  intros Hwf Hb Hc Hcell Hp x' y' Hb'. rewrite (cellAt_setCell g x y _ x' y' Hwf Hb).
  destruct (decide ((x', y') = (x, y))) as [[= -> ->]|Hne]; [|by apply Hp].
  rewrite <- (Hp x y Hb), Hc.
  destruct Hcell as [-> | ->]; cbn; split; intros [H|H]; try done; by left + right.
Qed.

Lemma soundPlayer_placed ws cid placement g fleet :
  validatePlacement placement = VOk g fleet →
  soundPlayer (Player.mk ws cid true (Some g) (Some fleet)).
Proof.
  intros Hv. destruct (validatePlacement_sound _ _ _ Hv) as (_ & Hs & Hb & Hno & _ & Hm).
  unfold soundPlayer. cbn [Player.grid Player.ships Player.ready].
  split_and!; try done; [apply Hm|by apply placedOn_marks].
Qed.

Lemma soundPlayer_shot defender g x y cell :
  soundPlayer defender → Player.grid defender = Some g → inBounds (x, y) →
  cellAt g x y = Some cell → cell = Empty ∨ cell = Ship →
  soundPlayer
    (Player.mk (Player.ws defender) (Player.id defender) (Player.ready defender)
       (Some (setCell g x y (if bool_decide (cell = Ship) then Hit else Miss)))
       (Player.ships defender)).
Proof.
  intros Hdef Hg Hb Hc Hcell. unfold soundPlayer in *.
  cbn [Player.grid Player.ships Player.ready]. rewrite Hg in Hdef.
  destruct (Player.ships defender) as [fleet|]; [|done].
  destruct Hdef as (Hr & Hwf & Hs & Hin & Hno & Hp).
  split_and!; try done; [by apply wfGrid_setCell|by apply placedOn_setCell].
Qed.

Lemma soundRooms_onClose ws rooms : soundRooms rooms → soundRooms (onClose ws rooms).1.
Proof.
  induction 1 as [|[k r] rooms Hr Hall IH]; cbn [onClose]; [constructor|].
  destruct (findIndex ws (Room.players r)) as [idx|].
  - cbn [Room.players]. destruct (_ =? 0)%nat; [done|].
    constructor; [|done]. by apply Forall_delete.
  - destruct (onClose ws rooms) as [rest1 out]. by constructor.
Qed.

Lemma onMessage_soundRooms ws cid rid raw rooms :
  soundRooms rooms → soundRooms (rooms_after (onMessage ws cid rid raw rooms)).
Proof.
  intros Hall. unfold onMessage.
  destruct raw as [msg|]; [|done].
  destruct (getProp msg "type") as [ty|]; [|done].
  destruct (truthy ty); cbn [negb]; [|done].
  destruct ty as [| | | | |kind| |]; try done.
  destruct (String.eqb kind "create_room").
  { apply (Forall_storeSet (λ r, Forall soundPlayer (Room.players r))); [done|].
    by repeat constructor. }
  destruct (String.eqb kind "join_room").
  { destruct (joinToken msg) as [token|]; [|done].
    destruct (join_room_rooms ws cid token rooms) as [->|(i & r & Hi & ->)]; [done|].
    apply (Forall_updRoom (λ r, Forall soundPlayer (Room.players r))); [done|].
    cbn [Room.players]. apply Forall_app. split.
    - apply (Forall_lookup_1 _ _ _ _ Hall Hi).
    - by repeat constructor. }
  destruct (String.eqb kind "place_ready").
  { destruct (findRoom ws rooms) as [[[i room] pIndex]|] eqn:Hfind; [|done].
    destruct (findRoom_Some _ _ _ _ _ Hfind) as [[key Hkey] _].
    destruct (place_ready_rooms ws msg rooms i room pIndex)
      as [->|(pl & g & fleet & t1 & s1 & _ & Hv & ->)]; [done|].
    apply (Forall_updRoom (λ r, Forall soundPlayer (Room.players r))); [done|].
    cbn [Room.players].
    apply Forall_alter; [apply (Forall_lookup_1 _ _ _ _ Hall Hkey)|]. intros p _ _.
    by eapply soundPlayer_placed. }
  destruct (String.eqb kind "shot"); [|done].
  destruct (findRoom ws rooms) as [[[i room] pIndex]|] eqn:Hfind; [|done].
  destruct (findRoom_Some _ _ _ _ _ Hfind) as [[key Hkey] _].
  pose proof (Forall_lookup_1 _ _ _ _ Hall Hkey) as Hroom. cbn [snd] in Hroom.
  destruct (shot_effect ws msg rooms i room pIndex)
    as [->|(x & y & defender & g & cell & t1 & _ & _ & Hb & _ & _ & Hd & Hg & Hc & Hcell
            & _ & ->)]; [done|].
  apply (Forall_updRoom (λ r, Forall soundPlayer (Room.players r))); [done|].
  cbn [Room.players]. apply Forall_insert; [done|].
  apply soundPlayer_shot; try done. apply (Forall_lookup_1 _ _ _ _ Hroom Hd).
Qed.

Lemma step_soundRooms e rooms : soundRooms rooms → soundRooms (rooms_after (step e rooms)).
Proof.
  intros Hall. destruct e as [ws cid rid raw|ws]; cbn [step].
  - by apply onMessage_soundRooms.
  - pose proof (soundRooms_onClose ws rooms Hall) as H'.
    by destruct (onClose ws rooms).
Qed.

Lemma run_soundRooms es rooms : soundRooms rooms → soundRooms (rooms_after (run es rooms)).
Proof.
  revert rooms. induction es as [|e es IH]; intros rooms Hall; [done|]. cbn [run].
  pose proof (step_soundRooms e rooms Hall) as H1.
  destruct (raised (step e rooms)); [done|]. cbn [rooms_after]. by apply IH.
Qed.

(** Whatever the connections send and whenever they close, starting from a
    server without rooms: every stored room has one or two players, its turn
    is at slot 0 or slot 1, and at slot 0 as long as the game has not
    started. *)
Theorem reachable_rooms_shaped (es : list event) (i : nat) (key : string) (room : Room.t) :
  rooms_after (run es []) !! i = Some (key, room) →
  (1 ≤ length (Room.players room) ≤ 2)%nat ∧ (Room.turn room < 2)%nat ∧
  (Room.started room = false → Room.turn room = O).
Proof.
  intros Hi.
  assert (Hall : shapedRooms (rooms_after (run es []))) by (apply run_shapedRooms; constructor).
  apply (Forall_lookup_1 _ _ _ _ Hall Hi).
Qed.

(** In every room of a run from a server without rooms, a slot is ready
    exactly when it has a grid; a ready slot has a grid of 10 rows of 10
    cells and a fleet of sizes 5, 4, 3, 3, 2 inside the grid whose ships share
    no cell, and the grid shows a ship or a hit on the cells of the fleet and
    nowhere else. *)
Theorem reachable_slots_sound (es : list event) (i j : nat) (key : string) (room : Room.t)
    (p : Player.t) :
  rooms_after (run es []) !! i = Some (key, room) → Room.players room !! j = Some p →
  (Player.ready p = false ∧ Player.grid p = None ∧ Player.ships p = None) ∨
  (∃ g fleet,
     Player.ready p = true ∧ Player.grid p = Some g ∧ Player.ships p = Some fleet ∧
     wfGrid g ∧ sizesOk fleet ∧ allInBounds fleet ∧ noOverlap fleet ∧
     ∀ x y, inBounds (x, y) →
       ((cellAt g x y = Some Ship ∨ cellAt g x y = Some Hit) ↔ (x, y) ∈ concat fleet)).
Proof.
  intros Hi Hj.
  assert (Hall : soundRooms (rooms_after (run es []))) by (apply run_soundRooms; constructor).
  pose proof (Forall_lookup_1 _ _ _ _ Hall Hi) as Hroom. cbn [snd] in Hroom.
  pose proof (Forall_lookup_1 _ _ _ _ Hroom Hj) as Hp. unfold soundPlayer in Hp.
  destruct (Player.grid p) as [g|], (Player.ships p) as [fleet|]; try done.
  - right. exists g, fleet. by destruct Hp as (? & ? & ? & ? & ? & ?).
  - by left.
Qed.

End RoomInvariants.

(** * What a shot reports *)

Section ShotReports.

Context {strings : JsStrings}.

Lemma existsb_cell (s : ShipCells) x y :
  existsb (λ c, (c.1 =? x) && (c.2 =? y)) s = true ↔ (x, y) ∈ s.
Proof.
  rewrite existsb_exists. split.
  - intros ([a b] & Hin%list_elem_of_In & Hab). cbn in Hab.
    apply andb_true_iff in Hab as [->%Z.eqb_eq ->%Z.eqb_eq]. done.
  - intros Hin. exists (x, y). split; [by apply list_elem_of_In|]. cbn.
    by rewrite !Z.eqb_refl.
Qed.

Lemma computeSunk_iff g (s : ShipCells) :
  computeSunk g s = true ↔ ∀ c, c ∈ s → cellAt g c.1 c.2 = Some Hit.
Proof.
  unfold computeSunk. rewrite forallb_forall. split.
  - intros H c Hc%list_elem_of_In. specialize (H c Hc). by apply bool_decide_eq_true in H.
  - intros H c Hc%list_elem_of_In. apply bool_decide_eq_true. by apply H.
Qed.

Lemma findSunk_true g (fleet : list ShipCells) x y sz :
  findSunk g fleet x y = (true, sz) →
  ∃ s, s ∈ fleet ∧ (x, y) ∈ s ∧ computeSunk g s = true ∧ sz = Some (length s).
Proof.
  induction fleet as [|s fleet IH]; cbn [findSunk]; [done|].
  destruct (existsb _ s) eqn:Hex.
  - apply existsb_cell in Hex. destruct (computeSunk g s) eqn:Hs; [|done].
    intros [= <-]. exists s. split_and!; try done. apply list_elem_of_here.
  - intros (t & Ht & H)%IH. exists t. split; [by apply list_elem_of_further|done].
Qed.

Lemma findSunk_false g (fleet : list ShipCells) x y sz :
  findSunk g fleet x y = (false, sz) → sz = None.
Proof.
  induction fleet as [|s fleet IH]; cbn [findSunk]; [by intros [= <-]|].
  destruct (existsb _ s); [|done]. destruct (computeSunk g s); by intros [= <-].
Qed.

Lemma findSunk_complete g (fleet : list ShipCells) x y s :
  noOverlap fleet → s ∈ fleet → (x, y) ∈ s → computeSunk g s = true →
  findSunk g fleet x y = (true, Some (length s)).
Proof.
  induction fleet as [|t fleet IH]; intros Hno Hs Hin Hsunk; [by apply elem_of_nil in Hs|].
  apply noOverlap_cons in Hno as [Hhead Hno]. cbn [findSunk].
  apply elem_of_cons in Hs as [<-|Hs].
  - apply existsb_cell in Hin. by rewrite Hin, Hsunk.
  - destruct (existsb _ t) eqn:Hex; [|by apply IH].
    apply existsb_cell in Hex. rewrite Forall_forall in Hhead.
    by destruct (Hhead s Hs (x, y) Hex).
Qed.

(** An accepted shot, with what the loop over the defender's ships
    reports. *)
Lemma accepted_shot_report ws cid rid msg rooms c x y hit sunk sz win :
  getProp msg "type" = Some (VStr "shot") →
  (c, MShotResult x y hit sunk sz win) ∈ sent (onMessage ws cid rid (Some msg) rooms) →
  ∃ i key room pIndex defender g cell fleet,
    findRoom ws rooms = Some (i, room, pIndex) ∧ rooms !! i = Some (key, room) ∧
    Room.players room !! otherIndex pIndex = Some defender ∧
    Player.grid defender = Some g ∧ Player.ships defender = Some fleet ∧
    cellAt g x y = Some cell ∧ (cell = Empty ∨ cell = Ship) ∧ inBounds (x, y) ∧
    hit = bool_decide (cell = Ship) ∧
    let g1 := setCell g x y (if hit then Hit else Miss) in
    (sunk, sz) = (if hit then findSunk g1 fleet x y else (false, None)) ∧
    win = allShipsSunk g1 fleet ∧
    ∃ room1,
      rooms_after (onMessage ws cid rid (Some msg) rooms) = updRoom i room1 rooms ∧
      Room.players room1 =
        <[otherIndex pIndex :=
            Player.mk (Player.ws defender) (Player.id defender) (Player.ready defender)
                      (Some g1) (Some fleet)]> (Room.players room).
Proof.
  intros Hty. rewrite (onMessage_shot _ _ _ _ _ Hty).
  destruct (findRoom ws rooms) as [[[i room] pIndex]|] eqn:Hfind.
  2:{ cbn. by intros [=]%list_elem_of_singleton. }
  destruct (findRoom_Some _ _ _ _ _ Hfind) as [[key Hkey] _].
  destruct (findRoom_player _ _ _ _ _ Hfind) as (attacker & Hatt & Hws).
  destruct (shot_cases ws msg rooms i room pIndex)
    as [[m ->]|[->|(x0 & y0 & defender & g & cell & Hst & Hturn & Hx & Hy & Hb & Hd & Hg
                     & Hc & Hcell & ->)]].
  - cbn. by intros [=]%list_elem_of_singleton.
  - cbn. by intros ?%elem_of_nil.
  - unfold resolveShot. cbn zeta. cbn [Player.ships Room.players].
    destruct (Player.ships defender) as [fleet|] eqn:Hfleet.
    2:{ cbn. by intros ?%elem_of_nil. }
    rewrite list_lookup_insert_ne by apply otherIndex_ne. rewrite Hatt.
    set (hit0 := bool_decide (cell = Ship)).
    set (g1 := setCell g x0 y0 (if hit0 then Hit else Miss)).
    destruct (if hit0 then findSunk g1 fleet x0 y0 else (false, None))
      as [sunk0 sz0] eqn:Hfs.
    assert (Hhead : ∀ out1 : list (nat * outmsg),
      (∀ m, (c, m) ∈ out1 → ∃ n, m = MGameOver n ∨ m = MTurn n) →
      (c, MShotResult x y hit sunk sz win) ∈
        [(Player.ws attacker, MShotResult x0 y0 hit0 sunk0 sz0 (allShipsSunk g1 fleet));
         (Player.ws defender, MGotShot x0 y0 hit0 sunk0 sz0 (allShipsSunk g1 fleet))]
        ++ out1 →
      x = x0 ∧ y = y0 ∧ hit = hit0 ∧ sunk = sunk0 ∧ sz = sz0 ∧
      win = allShipsSunk g1 fleet).
    { intros out1 Hout [Hin|Hin]%elem_of_app.
      - apply elem_of_cons in Hin as [Hin|Hin].
        + by injection Hin as -> -> -> -> -> -> ->.
        + by apply list_elem_of_singleton in Hin.
      - destruct (Hout _ Hin) as [n [Hn|Hn]]; done. }
    assert (Hbc : ∀ r obj, (∃ n, obj = MGameOver n ∨ obj = MTurn n) →
              ∀ m, (c, m) ∈ broadcast r obj → ∃ n, m = MGameOver n ∨ m = MTurn n).
    { intros r obj Hobj m [-> _]%elem_of_broadcast. done. }
    destruct (allShipsSunk g1 fleet) eqn:Hwin; cbn [sent done rooms_after].
    + intros Hin. apply Hhead in Hin as (-> & -> & -> & -> & -> & ->);
        [|apply Hbc; eauto].
      exists i, key, room, (Room.turn room), defender, g, cell, fleet. subst pIndex.
      split_and!; try done. eexists. split; [reflexivity|done].
    + intros Hin. apply Hhead in Hin as (-> & -> & -> & -> & -> & ->);
        [|apply Hbc; eauto].
      exists i, key, room, (Room.turn room), defender, g, cell, fleet. subst pIndex.
      split_and!; try done. eexists. split; [reflexivity|]. by destruct hit0.
Qed.

Lemma elem_of_concat {A} (x : A) (ls : list (list A)) :
  x ∈ concat ls ↔ ∃ l, x ∈ l ∧ l ∈ ls.
Proof.
  induction ls as [|l ls IH]; cbn [concat].
  - split; [by intros ?%elem_of_nil|by intros (l & _ & ?%elem_of_nil)].
  - rewrite elem_of_app, IH. split.
    + intros [H|(l' & H1 & H2)]; [exists l; split; [done|apply list_elem_of_here]|].
      exists l'. split; [done|by apply list_elem_of_further].
    + intros (l' & H1 & [->|H2]%elem_of_cons); [by left|right; eauto].
Qed.

Lemma ship_unique (fleet : list ShipCells) s t c :
  noOverlap fleet → s ∈ fleet → t ∈ fleet → c ∈ s → c ∈ t → s = t.
Proof.
  intros Hno [i Hi]%list_elem_of_lookup [j Hj]%list_elem_of_lookup Hs Ht.
  destruct (decide (i = j)) as [->|Hne]; [congruence|].
  by destruct (Hno i j s t c Hne Hi Hj Hs).
Qed.

Lemma soundPlayer_placed_inv p g :
  soundPlayer p → Player.grid p = Some g →
  ∃ fleet, Player.ships p = Some fleet ∧ Player.ready p = true ∧ wfGrid g ∧
           sizesOk fleet ∧ allInBounds fleet ∧ noOverlap fleet ∧ placedOn g fleet.
Proof.
  unfold soundPlayer. intros Hp Hg. rewrite Hg in Hp.
  destruct (Player.ships p) as [fleet|]; [|done]. by exists fleet.
Qed.

Lemma soundRooms_slot rooms i key room j p :
  soundRooms rooms → rooms !! i = Some (key, room) → Room.players room !! j = Some p →
  soundPlayer p.
Proof.
  intros Hall Hi Hj. pose proof (Forall_lookup_1 _ _ _ _ Hall Hi) as Hroom.
  apply (Forall_lookup_1 _ _ _ _ Hroom Hj).
Qed.

(** A shot is reported as a hit exactly when its target is a cell of the
    fleet the defender placed. *)
Theorem hit_iff_fleet_cell ws cid rid msg rooms c x y hit sunk sz win :
  soundRooms rooms →
  getProp msg "type" = Some (VStr "shot") →
  (c, MShotResult x y hit sunk sz win) ∈ sent (onMessage ws cid rid (Some msg) rooms) →
  ∃ i room pIndex defender fleet,
    findRoom ws rooms = Some (i, room, pIndex) ∧
    Room.players room !! otherIndex pIndex = Some defender ∧
    Player.ships defender = Some fleet ∧
    (hit = true ↔ (x, y) ∈ concat fleet).
Proof.
  intros Hsound Hty Hin.
  destruct (accepted_shot_report _ _ _ _ _ _ _ _ _ _ _ _ Hty Hin)
    as (i & key & room & pIndex & defender & g & cell & fleet & Hfind & Hkey & Hd & Hg
        & Hfleet & Hc & Hcell & Hb & -> & _).
  exists i, room, pIndex, defender, fleet. split_and!; try done.
  pose proof (soundRooms_slot _ _ _ _ _ _ Hsound Hkey Hd) as Hdef.
  destruct (soundPlayer_placed_inv _ _ Hdef Hg) as (fleet' & Hfleet' & _ & _ & _ & _ & _ & Hp).
  assert (fleet' = fleet) as -> by congruence.
  rewrite <- (Hp x y Hb), Hc, bool_decide_eq_true.
  destruct Hcell as [-> | ->]; split; intros H; try done; [by destruct H|by left].
Qed.

(** The [sunk] flag of an accepted shot is true exactly when, once the shot
    is marked, every cell of the defender's ship that holds the target is
    hit; [sunkSize] is then the number of cells of that ship, and is [null]
    otherwise.  A shot that sinks is a hit, and a hit that wins sinks. *)
Theorem sunk_iff_ship_destroyed ws cid rid msg rooms c x y hit sunk sz win :
  soundRooms rooms →
  getProp msg "type" = Some (VStr "shot") →
  (c, MShotResult x y hit sunk sz win) ∈ sent (onMessage ws cid rid (Some msg) rooms) →
  let o := onMessage ws cid rid (Some msg) rooms in
  ∃ i room pIndex key room' defender' g' fleet,
    findRoom ws rooms = Some (i, room, pIndex) ∧
    rooms_after o !! i = Some (key, room') ∧
    Room.players room' !! otherIndex pIndex = Some defender' ∧
    Player.grid defender' = Some g' ∧ Player.ships defender' = Some fleet ∧
    (sunk = true ↔
     ∃ s, s ∈ fleet ∧ (x, y) ∈ s ∧ ∀ cell, cell ∈ s → cellAt g' cell.1 cell.2 = Some Hit) ∧
    (∀ n, sz = Some n ↔ sunk = true ∧ ∃ s, s ∈ fleet ∧ (x, y) ∈ s ∧ length s = n) ∧
    (sunk = true → hit = true) ∧
    (hit = true → win = true → sunk = true).
Proof.
  intros Hsound Hty Hin o.
  destruct (accepted_shot_report _ _ _ _ _ _ _ _ _ _ _ _ Hty Hin)
    as (i & key & room & pIndex & defender & g & cell & fleet & Hfind & Hkey & Hd & Hg
        & Hfleet & Hc & Hcell & Hb & Hhit & Hfs & Hwin & room1 & Hrooms & Hplayers).
  cbn zeta in Hfs, Hwin, Hplayers.
  set (g1 := setCell g x y (if hit then Hit else Miss)) in *.
  pose proof (soundRooms_slot _ _ _ _ _ _ Hsound Hkey Hd) as Hdef.
  destruct (soundPlayer_placed_inv _ _ Hdef Hg)
    as (fleet' & Hfleet' & _ & Hwf & _ & _ & Hno & Hp).
  assert (fleet' = fleet) as -> by congruence.
  assert (Hhit' : hit = true ↔ (x, y) ∈ concat fleet).
  { rewrite Hhit, <- (Hp x y Hb), Hc, bool_decide_eq_true.
    destruct Hcell as [-> | ->]; split; intros H; try done; [by destruct H|by left]. }
  assert (Hat : cellAt g1 x y = Some (if hit then Hit else Miss)).
  { by apply cellAt_setCell_eq. }
  assert (Hsunk : sunk = true ↔
            ∃ s, s ∈ fleet ∧ (x, y) ∈ s ∧ ∀ cell, cell ∈ s → cellAt g1 cell.1 cell.2 = Some Hit).
  { split.
    - intros ->. destruct hit; [|done]. symmetry in Hfs.
      apply findSunk_true in Hfs as (s & Hs & Hxy & Hall & _).
      exists s. split_and!; try done. by apply computeSunk_iff.
    - intros (s & Hs & Hxy & Hall).
      pose proof (Hall _ Hxy) as Hxy'. cbn [fst snd] in Hxy'. rewrite Hat in Hxy'.
      destruct hit; [|done].
      rewrite (findSunk_complete g1 fleet x y s) in Hfs; try done; [congruence|].
      by apply computeSunk_iff. }
  exists i, room, pIndex, key, room1,
    (Player.mk (Player.ws defender) (Player.id defender) (Player.ready defender)
       (Some g1) (Some fleet)), g1, fleet.
  split; [done|]. split; [subst o; rewrite Hrooms; by eapply updRoom_lookup|].
  split; [rewrite Hplayers; apply list_lookup_insert_eq; by eapply lookup_lt_Some|].
  split; [done|]. split; [done|]. split; [done|]. split; [|split].
  - intros n. split.
    + intros ->. destruct hit; [|done]. destruct sunk.
      * symmetry in Hfs. apply findSunk_true in Hfs as (s & Hs & Hxy & _ & [= ->]). eauto.
      * symmetry in Hfs. by apply findSunk_false in Hfs.
    + intros [-> (s & Hs & Hxy & <-)]. destruct hit; [|done].
      symmetry in Hfs. apply findSunk_true in Hfs as (t & Ht & Hxy' & _ & ->).
      by rewrite (ship_unique fleet s t (x, y)).
  - intros ->. by destruct hit.
  - intros -> Hw. apply Hsunk. rewrite Hw in Hwin. symmetry in Hwin.
    pose proof (proj1 Hhit' eq_refl) as Hcat.
    apply elem_of_concat in Hcat as (s & Hxy & Hs).
    exists s. split_and!; try done. intros cl Hcl.
    by apply (proj1 (allShipsSunk_iff g1 fleet) Hwin s cl).
Qed.

End ShotReports.

(** * The TypeErrors of the message handler *)

Section Crashes.

Context {strings : JsStrings}.

Lemma getProp_None v k : getProp v k = None ↔ nullish v.
Proof.
  unfold nullish. destruct v; cbn; split; intros H; try done;
    first [by right | by left | by destruct H].
Qed.

Lemma join_room_completes ws cid token rooms :
  shapedRooms rooms → raised (join_room ws cid token rooms) = false.
Proof.
  intros Hall. unfold join_room.
  destruct (storeGet token rooms) as [[i r]|] eqn:Hget; [|done].
  apply storeGet_Some in Hget.
  destruct (Forall_lookup_1 _ _ _ _ Hall Hget) as ([Hl _] & _). cbn [snd] in Hl.
  destruct (2 <=? _)%nat; [done|]. cbn zeta. cbn [Room.players].
  destruct (Room.players r) as [|p0 [|p1 ps]]; cbn in *; [lia|done|done].
Qed.

Lemma place_ready_raises_iff ws msg rooms i room pIndex :
  raised (place_ready ws msg rooms (Some (i, room, pIndex))) = true ↔
  (2 ≤ length (Room.players room))%nat ∧
  match getProp msg "placement" with
  | None => True
  | Some placement => validatePlacement placement = VThrow
  end.
Proof.
  unfold place_ready.
  destruct (Nat.ltb_spec (length (Room.players room)) 2) as [Hlt|Hge].
  { cbn. split; [done|]. intros [? _]. lia. }
  destruct (getProp msg "placement") as [placement|]; [|done].
  destruct (validatePlacement placement) as [g fleet|err|]; [|cbn; by intuition|done].
  split; [|by intros [_ ?]]. cbn zeta.
  set (ps := alter _ pIndex (Room.players room)).
  assert (Hlen : (2 ≤ length ps)%nat) by (unfold ps; by rewrite length_alter).
  destruct ps as [|p0 [|p1 ps']]; cbn in Hlen; try lia. cbn [lookup list_lookup].
  destruct (Player.ready p0); cbn [negb]; [|done].
  by destruct (_ && _).
Qed.

Lemma shot_raises_iff ws msg rooms i key room pIndex :
  soundRooms rooms → rooms !! i = Some (key, room) →
  is_Some (Room.players room !! pIndex) → ¬ nullish msg →
  raised (shot ws msg rooms (Some (i, room, pIndex))) = true ↔
  Room.started room = true ∧ pIndex = Room.turn room ∧
  ∃ x y, getProp msg "x" = Some (VNum x) ∧ getProp msg "y" = Some (VNum y) ∧
         inBounds (x, y) ∧
         ∀ defender, Room.players room !! otherIndex pIndex = Some defender →
                     Player.ready defender = false.
Proof.
  intros Hsound Hkey [attacker Hatt] Hmsg. unfold shot.
  destruct (Room.started room); cbn [negb]; [|cbn; split; [done|by intros [? _]]].
  destruct (Nat.eqb_spec pIndex (Room.turn room)) as [Hturn|Hturn]; cbn [negb];
    [|cbn; split; [done|by intros (_ & ? & _)]].
  destruct (getProp msg "x") as [vx|] eqn:Hx; [|by apply getProp_None in Hx].
  destruct (getProp msg "y") as [vy|] eqn:Hy; [|by apply getProp_None in Hy].
  assert (Hno : ∀ P : Z → Z → Prop, (∀ x y, vx = VNum x → vy = VNum y → False) →
            false = true ↔ true = true ∧ pIndex = Room.turn room ∧
              ∃ x y, Some vx = Some (VNum x) ∧ Some vy = Some (VNum y) ∧ P x y).
  { intros P H. split; [done|]. intros (_ & _ & x & y & [= ->] & [= ->] & _). exfalso. by eapply H. }
  destruct vx as [| | |x| | | |];
    try by (destruct vy; cbn; apply (Hno (λ x y, inBounds (x, y) ∧ _))).
  destruct vy as [| | |y| | | |];
    try by (cbn; apply (Hno (λ x y, inBounds (x, y) ∧ _))).
  destruct (_ || _) eqn:Hb.
  { cbn. split; [done|]. intros (_ & _ & x' & y' & [= <-] & [= <-] & Hb' & _).
    apply outOfBounds_false in Hb'. congruence. }
  apply outOfBounds_false in Hb.
  destruct (Room.players room !! otherIndex pIndex) as [defender|] eqn:Hd.
  2:{ cbn. split; [|done]. intros _. split_and!; try done. by exists x, y. }
  pose proof (soundRooms_slot _ _ _ _ _ _ Hsound Hkey Hd) as Hdef.
  destruct (Player.grid defender) as [g|] eqn:Hg.
  2:{ cbn. split; [|done]. intros _. split_and!; try done. exists x, y.
      split_and!; try done. intros d [= <-]. unfold soundPlayer in Hdef. rewrite Hg in Hdef.
      by destruct (Player.ships defender). }
  destruct (soundPlayer_placed_inv _ _ Hdef Hg) as (fleet & Hfleet & Hready & Hwf & _).
  assert (Hrhs : ¬ (true = true ∧ pIndex = Room.turn room ∧
            ∃ x0 y0, Some (VNum x) = Some (VNum x0) ∧ Some (VNum y) = Some (VNum y0) ∧
              inBounds (x0, y0) ∧
              ∀ d, Some defender = Some d → Player.ready d = false)).
  { intros (_ & _ & x0 & y0 & _ & _ & _ & H). specialize (H defender eq_refl). congruence. }
  destruct (cellAt_is_Some g x y Hwf Hb) as [cell Hc]. rewrite Hc.
  destruct (resolveShot_spec rooms i room pIndex x y defender g cell attacker fleet
              Hatt Hfleet) as (sunk & sz & Hres).
  rewrite Hres. destruct cell; cbn; split; done.
Qed.

(** In rooms that satisfy the invariants of the server, the message handler
    ends by a TypeError in four cases only: the message is [null]; a
    [join_room] carries a [roomId] that [String] cannot convert (an object
    that has a property [toString], or an array holding one); a
    [place_ready] of a player whose room has two players carries a placement
    on which the validator raises; the player whose turn it is in a started
    room shoots at a cell of the board while the other slot is missing or not
    ready. *)
Theorem handler_raises_iff ws cid rid raw rooms :
  shapedRooms rooms → soundRooms rooms →
  raised (onMessage ws cid rid raw rooms) = true ↔
  ∃ msg, raw = Some msg ∧
    (nullish msg ∨
     (getProp msg "type" = Some (VStr "join_room") ∧
      ∃ v, getProp msg "roomId" = Some v ∧ truthy v = true ∧ coercible v = false) ∨
     (getProp msg "type" = Some (VStr "place_ready") ∧
      ∃ i room pIndex placement,
        findRoom ws rooms = Some (i, room, pIndex) ∧
        length (Room.players room) = 2%nat ∧
        getProp msg "placement" = Some placement ∧
        validatePlacement placement = VThrow) ∨
     (getProp msg "type" = Some (VStr "shot") ∧
      ∃ i room pIndex x y,
        findRoom ws rooms = Some (i, room, pIndex) ∧
        Room.started room = true ∧ pIndex = Room.turn room ∧
        getProp msg "x" = Some (VNum x) ∧ getProp msg "y" = Some (VNum y) ∧
        inBounds (x, y) ∧
        ∀ defender, Room.players room !! otherIndex pIndex = Some defender →
                    Player.ready defender = false)).
Proof.
  intros Hshape Hsound. unfold onMessage.
  destruct raw as [msg|].
  2:{ cbn. split; [done|]. by intros (msg & [=] & _). }
  destruct (getProp msg "type") as [ty|] eqn:Hty.
  2:{ cbn. split; [|done]. intros _. exists msg. split; [done|]. left.
      by apply (getProp_None msg "type"). }
  assert (Hmsg : ¬ nullish msg).
  { intros H. apply (getProp_None msg "type") in H. congruence. }
  assert (Hfalse : ∀ (o : outcome) (A : Prop), raised o = false → ¬ A → raised o = true ↔ A).
  { intros o A Ho HA. rewrite Ho. split; [done|]. intros HA'. by destruct HA. }
  destruct (truthy ty) eqn:Htruthy; cbn [negb].
  2:{ cbn. split; [done|].
      intros (m & [= <-] & [H|[[H _]|[[H _]|[H _]]]]); [done| | |];
        rewrite Hty in H; injection H as ->; done. }
  destruct ty as [| | | | |kind| |];
    try (cbn; split; [done|];
         intros (m & [= <-] & [H|[[H _]|[[H _]|[H _]]]]); [done| | |];
         rewrite Hty in H; by injection H).
  destruct (String.eqb_spec kind "create_room") as [->|_].
  { cbn. split; [done|].
    intros (m & [= <-] & [H|[[H _]|[[H _]|[H _]]]]); [done| | |];
      rewrite Hty in H; by injection H. }
  destruct (String.eqb_spec kind "join_room") as [->|Hk0].
  { unfold joinToken.
    destruct (getProp msg "roomId") as [v|] eqn:Hr; [|by apply getProp_None in Hr].
    cbn [mbind option_bind].
    assert (Hother : ¬ (truthy v = true ∧ coercible v = false) →
              ¬ ∃ m, Some msg = Some m ∧
                 (nullish m ∨
                  (getProp m "type" = Some (VStr "join_room") ∧
                   ∃ v0, getProp m "roomId" = Some v0 ∧ truthy v0 = true ∧
                         coercible v0 = false) ∨
                  (getProp m "type" = Some (VStr "place_ready") ∧
                   ∃ i room pIndex placement,
                     findRoom ws rooms = Some (i, room, pIndex) ∧
                     length (Room.players room) = 2%nat ∧
                     getProp m "placement" = Some placement ∧
                     validatePlacement placement = VThrow) ∨
                  (getProp m "type" = Some (VStr "shot") ∧
                   ∃ i room pIndex x y,
                     findRoom ws rooms = Some (i, room, pIndex) ∧
                     Room.started room = true ∧ pIndex = Room.turn room ∧
                     getProp m "x" = Some (VNum x) ∧ getProp m "y" = Some (VNum y) ∧
                     inBounds (x, y) ∧
                     ∀ defender, Room.players room !! otherIndex pIndex = Some defender →
                                 Player.ready defender = false))).
    { intros Hno (m & [= <-] & [H|[[_ (v0 & Hv0 & Ht0 & Hc0)]|[[H _]|[H _]]]]); [done| | |].
      - apply Hno. rewrite Hr in Hv0. by injection Hv0 as <-.
      - rewrite Hty in H. by injection H.
      - rewrite Hty in H. by injection H. }
    destruct (truthy v) eqn:Htv, (coercible v) eqn:Hcv; cbn.
    - apply Hfalse; [by apply join_room_completes|]. apply Hother. by intros [_ [=]].
    - split; [|done]. intros _. exists msg. split; [done|]. right. left.
      split; [done|]. by exists v.
    - apply Hfalse; [by apply join_room_completes|]. apply Hother. by intros [[=] _].
    - apply Hfalse; [by apply join_room_completes|]. apply Hother. by intros [[=] _]. }
  destruct (String.eqb_spec kind "place_ready") as [->|Hk1].
  { destruct (findRoom ws rooms) as [[[i room] pIndex]|] eqn:Hfind.
    2:{ apply Hfalse; [done|].
        intros (m & [= <-] & [H|[[H _]|[[_ (? & ? & ? & ? & [=] & _)]|[H _]]]]); [done| |];
          rewrite Hty in H; by injection H. }
    destruct (findRoom_Some _ _ _ _ _ Hfind) as [[key Hkey] _].
    destruct (Forall_lookup_1 _ _ _ _ Hshape Hkey) as ([_ Hl] & _). cbn [snd] in Hl.
    rewrite place_ready_raises_iff.
    destruct (getProp msg "placement") as [placement|] eqn:Hpl;
      [|by apply getProp_None in Hpl].
    split.
    - intros [Hlen Hv]. exists msg. split; [done|]. right. right. left. split; [done|].
      exists i, room, pIndex, placement. split_and!; try done. lia.
    - intros (m & [= <-] & [H|[[H _]|[[_ (i' & room' & p' & pl' & [= <- <- <-] & Hlen & Hpl'
                                          & Hv)]|[H _]]]]); [done| | |].
      + rewrite Hty in H. by injection H.
      + split; [lia|]. congruence.
      + rewrite Hty in H. by injection H. }
  destruct (String.eqb_spec kind "shot") as [->|Hk2].
  { destruct (findRoom ws rooms) as [[[i room] pIndex]|] eqn:Hfind.
    2:{ apply Hfalse; [done|].
        intros (m & [= <-] & [H|[[H _]|[[H _]|[_ (? & ? & ? & ? & ? & [=] & _)]]]]); [done| |];
          rewrite Hty in H; by injection H. }
    destruct (findRoom_Some _ _ _ _ _ Hfind) as [[key Hkey] _].
    destruct (findRoom_player _ _ _ _ _ Hfind) as (attacker & Hatt & _).
    rewrite (shot_raises_iff ws msg rooms i key room pIndex Hsound Hkey
               (mk_is_Some _ _ Hatt) Hmsg).
    split.
    - intros (Hst & Hturn & x & y & Hx & Hy & Hb & Hd). exists msg. split; [done|].
      right. right. right. split; [done|]. exists i, room, pIndex, x, y. done.
    - intros (m & [= <-] & [H|[[H _]|[[H _]|[_ (i' & room' & p' & x & y & [= <- <- <-] & Hst
                                                 & Hturn & Hx & Hy & Hb & Hd)]]]]);
        [done| | |].
      + rewrite Hty in H. by injection H.
      + rewrite Hty in H. by injection H.
      + split_and!; try done. by exists x, y. }
  apply Hfalse; [done|].
  intros (m & [= <-] & [H|[[H _]|[[H _]|[H _]]]]); [done| | |];
    rewrite Hty in H; injection H as ->; done.
Qed.

End Crashes.

(** * Leaving, creating and joining rooms *)

Section Membership.

Context {strings : JsStrings}.

Lemma storeGet_None token (rooms : store) : storeGet token rooms = None ↔ token ∉ rooms.*1.
Proof.
  induction rooms as [|[k r] rooms IH]; cbn [storeGet].
  - split; [intros _ ?%elem_of_nil; done|done].
  - cbn [fmap list_fmap fst]. rewrite not_elem_of_cons.
    destruct (String.eqb_spec k token) as [->|Hne].
    + split; [done|]. by intros [? _].
    + destruct (storeGet token rooms) as [[i r']|]; cbn.
      * split; [done|]. intros [_ H]. by apply IH in H.
      * split; [|done]. intros _. split; [done|]. by apply IH.
Qed.

Lemma storeGet_storeSet token r (rooms : store) :
  ∃ i, storeGet token (storeSet token r rooms) = Some (i, r).
Proof.
  induction rooms as [|[k r0] rooms [i IH]]; cbn [storeSet storeGet].
  - rewrite String.eqb_refl. by exists O.
  - destruct (String.eqb_spec k token) as [->|Hne]; cbn [storeGet].
    + rewrite String.eqb_refl. by exists O.
    + destruct (String.eqb_spec k token); [done|]. rewrite IH. by exists (S i).
Qed.

Lemma storeGet_updRoom token (rooms : store) i r r' :
  storeGet token rooms = Some (i, r) → storeGet token (updRoom i r' rooms) = Some (i, r').
Proof.
  revert i. induction rooms as [|[k r0] rooms IH]; intros i; cbn [storeGet]; [done|].
  destruct (String.eqb_spec k token) as [->|Hne].
  - intros [= <- <-]. cbn. by rewrite String.eqb_refl.
  - destruct (storeGet token rooms) as [[j r1]|] eqn:Hget; [|done]. cbn.
    intros [= <- <-]. cbn. destruct (String.eqb_spec k token); [done|].
    change (alter _ j rooms) with (updRoom j r' rooms). by rewrite (IH j eq_refl).
Qed.

Lemma NoDup_delete_lookup {A} (l : list A) i x :
  NoDup l → l !! i = Some x → x ∉ delete i l.
Proof.
  intros Hnd Hi. rewrite <- (take_drop_middle l i x Hi) in Hnd.
  apply NoDup_app in Hnd as (_ & Hmid & Hnd). apply NoDup_cons in Hnd as [Hx _].
  rewrite delete_take_drop. intros [H|H]%elem_of_app; [|done].
  apply (Hmid x H). apply list_elem_of_here.
Qed.

Lemma onClose_unattached ws rooms : findRoom ws rooms = None → onClose ws rooms = (rooms, []).
Proof.
  induction rooms as [|[k r] rooms IH]; cbn [findRoom onClose]; [done|].
  destruct (findIndex ws (Room.players r)); [done|].
  destruct (findRoom ws rooms) as [[[i r'] idx]|]; [done|]. intros _. by rewrite IH.
Qed.

Lemma onClose_found ws rooms i room idx :
  findRoom ws rooms = Some (i, room, idx) →
  ∃ key, rooms !! i = Some (key, room) ∧
    onClose ws rooms =
      let room1 :=
        Room.mk (delete idx (Room.players room)) (Room.turn room) (Room.started room) in
      if (length (Room.players room) =? 1)%nat then (delete i rooms, [])
      else (<[i := (key, room1)]> rooms, broadcast room1 (MStatus OpponentDisconnected)).
Proof.
  revert i. induction rooms as [|[k r] rooms IH]; intros i; cbn [findRoom onClose]; [done|].
  destruct (findIndex ws (Room.players r)) as [idx'|] eqn:Hidx.
  - intros [= <- <- <-]. exists k. split; [done|]. cbn zeta. cbn [Room.players].
    destruct (findIndex_Some _ _ _ Hidx) as (p & Hp & _).
    rewrite (length_delete (Room.players r) idx' (mk_is_Some _ _ Hp)).
    pose proof (lookup_lt_Some _ _ _ Hp) as Hlt.
    destruct (Nat.eqb_spec (length (Room.players r)) 1) as [->|Hne]; [done|].
    destruct (Nat.eqb_spec (length (Room.players r) - 1) 0); [lia|done].
  - destruct (findRoom ws rooms) as [[[j r'] idx']|] eqn:Hfind; [|done]. cbn.
    intros [= <- <- <-]. destruct (IH j eq_refl) as (key & Hkey & ->).
    exists key. split; [done|]. cbn zeta. by destruct (_ =? 1)%nat.
Qed.

(** Closing a connection that holds no slot changes no room and sends
    nothing. *)
Theorem close_without_slot_is_noop ws rooms :
  ws ∉ connections rooms → step (EClose ws) rooms = done rooms [].
Proof.
  intros Hws%findRoom_None. cbn [step]. by rewrite (onClose_unattached ws rooms Hws).
Qed.

(** Closing the connection [ws] affects the room the message handler finds
    for [ws], and no other: a room with that single player is removed from
    the store and nothing is sent; otherwise the room loses that slot (the
    later slots move down by one), keeps its turn and its started flag, and
    each player left in it is sent the status "Opponent disconnected.", and
    nobody else is sent anything. *)
Theorem close_removes_the_slot ws rooms i room idx :
  findRoom ws rooms = Some (i, room, idx) →
  let rooms' := rooms_after (step (EClose ws) rooms) in
  let out := sent (step (EClose ws) rooms) in
  raised (step (EClose ws) rooms) = false ∧
  (length (Room.players room) = 1%nat → rooms' = delete i rooms ∧ out = []) ∧
  (length (Room.players room) ≠ 1%nat →
     ∃ key room',
       rooms !! i = Some (key, room) ∧ rooms' = <[i := (key, room')]> rooms ∧
       Room.players room' = delete idx (Room.players room) ∧
       Room.turn room' = Room.turn room ∧ Room.started room' = Room.started room ∧
       out = (λ p, (Player.ws p, MStatus OpponentDisconnected)) <$> Room.players room').
Proof.
  intros Hfind. destruct (onClose_found _ _ _ _ _ Hfind) as (key & Hkey & Heq).
  cbn [step]. rewrite Heq. cbn zeta.
  destruct (Nat.eqb_spec (length (Room.players room)) 1) as [Hone|Hne]; cbn.
  - split; [done|]. split; [done|]. by intros [].
  - split; [done|]. split; [done|]. intros _. eexists key, _. split_and!; try done.
Qed.

(** When the only player of a room leaves, the room's token is free again:
    a [join_room] with that token is answered "Room not found". *)
Theorem last_leave_frees_token ws ws' cid rid msg rooms i key room idx :
  NoDup rooms.*1 →
  findRoom ws rooms = Some (i, room, idx) → rooms !! i = Some (key, room) →
  length (Room.players room) = 1%nat →
  getProp msg "type" = Some (VStr "join_room") → joinToken msg = Some key →
  let rooms' := rooms_after (step (EClose ws) rooms) in
  onMessage ws' cid rid (Some msg) rooms' = reject rooms' ws' "Room not found".
Proof.
  intros Hnd Hfind Hkey Hlen Hty Htoken.
  destruct (onClose_found _ _ _ _ _ Hfind) as (key' & _ & Heq).
  cbn zeta. cbn [step]. rewrite Heq. cbn zeta. rewrite Hlen. cbn [Nat.eqb rooms_after done].
  unfold onMessage. rewrite Hty. cbn. rewrite Htoken. unfold join_room.
  assert (Hnone : storeGet key (delete i rooms) = None).
  { apply storeGet_None. rewrite list_fmap_delete.
    apply NoDup_delete_lookup; [done|]. by rewrite list_lookup_fmap, Hkey. }
  by rewrite Hnone.
Qed.

Lemma onMessage_join_room ws cid rid msg rooms token :
  getProp msg "type" = Some (VStr "join_room") → joinToken msg = Some token →
  onMessage ws cid rid (Some msg) rooms = join_room ws cid token rooms.
Proof. intros Hty Htoken. unfold onMessage. rewrite Hty. cbn. by rewrite Htoken. Qed.

(** A room that has just been created under a token is found by a
    [join_room] carrying that token, whatever rooms the store held: the
    creator is told that player 2 joined, the joiner that it is player 2 of
    the room, and both are sent the status "Both players connected..."; the
    room then holds the creator at slot 0 and the joiner at slot 1, not ready,
    not started, with the turn at slot 0; a further [join_room] with the token
    is answered "Room full". *)
Theorem create_then_join ws1 cid1 ws2 cid2 ws3 cid3 rid rid2 rid3 msg1 msg2 rooms :
  getProp msg1 "type" = Some (VStr "create_room") →
  getProp msg2 "type" = Some (VStr "join_room") → joinToken msg2 = Some rid →
  let o1 := onMessage ws1 cid1 rid (Some msg1) rooms in
  let o2 := onMessage ws2 cid2 rid2 (Some msg2) (rooms_after o1) in
  let o3 := onMessage ws3 cid3 rid3 (Some msg2) (rooms_after o2) in
  o1 = done (rooms_after o1) [(ws1, MRoomCreated rid 1)] ∧
  o2 = done (rooms_after o2)
         [(ws1, MPlayerJoined 2); (ws2, MRoomJoined rid 2);
          (ws1, MStatus BothConnected); (ws2, MStatus BothConnected)] ∧
  (∃ i, storeGet rid (rooms_after o2) =
          Some (i, Room.mk [newPlayer ws1 cid1; newPlayer ws2 cid2] O false)) ∧
  o3 = reject (rooms_after o2) ws3 "Room full".
Proof.
  intros Hty1 Hty2 Htoken. cbn zeta.
  rewrite (onMessage_create_room _ _ _ _ _ Hty1).
  rewrite !(onMessage_join_room _ _ _ _ _ _ Hty2 Htoken).
  unfold create_room. cbn [rooms_after done].
  set (r0 := Room.mk [newPlayer ws1 cid1] O false).
  destruct (storeGet_storeSet rid r0 rooms) as [i Hget].
  split; [done|].
  assert (Hjoin : join_room ws2 cid2 rid (storeSet rid r0 rooms) =
            done (updRoom i (Room.mk [newPlayer ws1 cid1; newPlayer ws2 cid2] O false)
                    (storeSet rid r0 rooms))
              [(ws1, MPlayerJoined 2); (ws2, MRoomJoined rid 2);
               (ws1, MStatus BothConnected); (ws2, MStatus BothConnected)]).
  { unfold join_room. by rewrite Hget. }
  rewrite Hjoin. cbn [rooms_after done]. split; [done|].
  pose proof (storeGet_updRoom rid _ i r0
                (Room.mk [newPlayer ws1 cid1; newPlayer ws2 cid2] O false) Hget) as Hget2.
  split; [by exists i|]. unfold join_room. by rewrite Hget2.
Qed.

End Membership.

(** * Getting ready and starting the game *)

Section Handshake.

Context {strings : JsStrings}.

(** A valid placement sent by a player of a room with two players is
    stored in the sender's slot, which becomes ready; the sender is answered
    [ready_ok] and both players are told which player is ready.  The game
    starts with this message exactly when the other player is ready and the
    room has not started: the room is then started with the turn at slot 0,
    and both players are sent [game_start] with [turnPlayer] 1.  Otherwise
    the turn and the started flag stay as they are. *)
Theorem game_starts_when_both_ready ws cid rid msg rooms i room pIndex placement g fleet :
  getProp msg "type" = Some (VStr "place_ready") →
  findRoom ws rooms = Some (i, room, pIndex) →
  length (Room.players room) = 2%nat →
  getProp msg "placement" = Some placement →
  validatePlacement placement = VOk g fleet →
  let o := onMessage ws cid rid (Some msg) rooms in
  ∃ key other room',
    rooms !! i = Some (key, room) ∧
    Room.players room !! otherIndex pIndex = Some other ∧
    let start := Player.ready other && negb (Room.started room) in
    rooms_after o = <[i := (key, room')]> rooms ∧ raised o = false ∧
    Room.players room' =
      alter (λ p, Player.mk (Player.ws p) (Player.id p) true (Some g) (Some fleet))
            pIndex (Room.players room) ∧
    Room.started room' = Room.started room || start ∧
    Room.turn room' = (if start then O else Room.turn room) ∧
    sent o =
      (ws, MReadyOk) :: broadcast room' (MStatus (PlayerReady (pIndex + 1)))
        ++ (if start then broadcast room' (MGameStart 1) else []).
Proof.
  intros Hty Hfind Hlen Hpl Hv. cbn zeta.
  rewrite (onMessage_place_ready _ _ _ _ _ Hty), Hfind.
  destruct (findRoom_Some _ _ _ _ _ Hfind) as [[key Hkey] _].
  destruct (findRoom_player _ _ _ _ _ Hfind) as (me & Hme & Hws).
  assert (Hupd : ∀ r, updRoom i r rooms = <[i := (key, r)]> rooms).
  { intros r. unfold updRoom. apply list_eq. intros k.
    destruct (decide (k = i)) as [->|Hne].
    - rewrite list_lookup_alter_eq, Hkey. cbn.
      by rewrite list_lookup_insert_eq by (by eapply lookup_lt_Some).
    - by rewrite list_lookup_alter_ne, list_lookup_insert_ne. }
  unfold place_ready. rewrite Hlen, Hpl, Hv. cbn [Nat.ltb Nat.leb]. cbn zeta.
  destruct (Room.players room) as [|p0 [|p1 [|p2 ps]]] eqn:Hps; try done.
  exists key. destruct pIndex as [|[|k]]; [| |done]; cbn in Hme; injection Hme as <-.
  - exists p1. cbn [alter list_alter lookup list_lookup Player.ready negb otherIndex].
    destruct (Player.ready p1) eqn:Hr1, (Room.started room) eqn:Hst;
      cbn [andb negb orb Room.started];
      (eexists; split; [done|]; split; [done|]; split; [apply Hupd|]);
      (split; [done|]); split_and!; try done; cbn [sent done];
      by rewrite ?app_nil_r.
  - exists p0. cbn [alter list_alter lookup list_lookup Player.ready negb otherIndex].
    destruct (Player.ready p0) eqn:Hr0, (Room.started room) eqn:Hst;
      cbn [andb negb orb Room.started];
      (eexists; split; [done|]; split; [done|]; split; [apply Hupd|]);
      (split; [done|]); split_and!; try done; cbn [sent done];
      by rewrite ?app_nil_r.
Qed.

(** A message never takes a slot's connection or identity away, never makes
    a ready slot unready and never stops a started game.  A slot becomes
    ready only by a [place_ready] of its own connection, and a room starts
    only on a [place_ready].  (A [create_room] whose new token is the token
    of an existing room replaces that room; that case is set aside.) *)
Theorem flags_are_never_reset ws cid rid msg rooms i key room j p :
  rooms !! i = Some (key, room) → Room.players room !! j = Some p →
  (getProp msg "type" = Some (VStr "create_room") → key ≠ rid) →
  let o := onMessage ws cid rid (Some msg) rooms in
  ∃ room' p',
    rooms_after o !! i = Some (key, room') ∧ Room.players room' !! j = Some p' ∧
    Player.ws p' = Player.ws p ∧ Player.id p' = Player.id p ∧
    (Player.ready p = true → Player.ready p' = true) ∧
    (Room.started room = true → Room.started room' = true) ∧
    (Player.ready p' = true →
       Player.ready p = true ∨
       (getProp msg "type" = Some (VStr "place_ready") ∧ Player.ws p = ws)) ∧
    (Room.started room' = true →
       Room.started room = true ∨ getProp msg "type" = Some (VStr "place_ready")).
Proof.
  intros Hi Hj Hfresh o. subst o.
  assert (Hsame : ∀ o, rooms_after o = rooms →
            ∃ room' p', rooms_after o !! i = Some (key, room') ∧
              Room.players room' !! j = Some p' ∧
              Player.ws p' = Player.ws p ∧ Player.id p' = Player.id p ∧
              (Player.ready p = true → Player.ready p' = true) ∧
              (Room.started room = true → Room.started room' = true) ∧
              (Player.ready p' = true →
                 Player.ready p = true ∨
                 (getProp msg "type" = Some (VStr "place_ready") ∧ Player.ws p = ws)) ∧
              (Room.started room' = true →
                 Room.started room = true ∨
                 getProp msg "type" = Some (VStr "place_ready"))).
  { intros o ->. exists room, p. split_and!; auto. }
  assert (Hother : ∀ o i' r', rooms_after o = updRoom i' r' rooms → i' ≠ i →
            ∃ room' p', rooms_after o !! i = Some (key, room') ∧
              Room.players room' !! j = Some p' ∧
              Player.ws p' = Player.ws p ∧ Player.id p' = Player.id p ∧
              (Player.ready p = true → Player.ready p' = true) ∧
              (Room.started room = true → Room.started room' = true) ∧
              (Player.ready p' = true →
                 Player.ready p = true ∨
                 (getProp msg "type" = Some (VStr "place_ready") ∧ Player.ws p = ws)) ∧
              (Room.started room' = true →
                 Room.started room = true ∨
                 getProp msg "type" = Some (VStr "place_ready"))).
  { intros o i' r' -> Hne. exists room, p. rewrite updRoom_lookup_ne by done.
    split_and!; auto. }
  unfold onMessage.
  destruct (getProp msg "type") as [ty|] eqn:Hty; [|by apply Hsame].
  destruct (truthy ty); cbn [negb]; [|by apply Hsame].
  destruct ty as [| | | | |kind| |]; try by apply Hsame.
  destruct (String.eqb_spec kind "create_room") as [->|_].
  { exists room, p. split; [|split_and!; auto].
    cbn. apply storeSet_lookup_ne; [done|]. by apply Hfresh. }
  destruct (String.eqb_spec kind "join_room") as [->|_].
  { destruct (joinToken msg) as [token|]; [|by apply Hsame].
    destruct (join_room_rooms ws cid token rooms) as [Hr|(i' & r & Hi' & Hr)];
      [by apply Hsame|].
    destruct (decide (i' = i)) as [->|Hne]; [|by eapply Hother].
    rewrite Hi in Hi'. injection Hi' as -> <-.
    eexists _, p. rewrite Hr. split; [by eapply updRoom_lookup|].
    split; [by apply lookup_app_l_Some|]. split_and!; auto. }
  destruct (String.eqb_spec kind "place_ready") as [->|_].
  { destruct (findRoom ws rooms) as [[[i' room0] pIndex]|] eqn:Hfind; [|by apply Hsame].
    destruct (findRoom_Some _ _ _ _ _ Hfind) as [[key' Hkey'] _].
    destruct (findRoom_player _ _ _ _ _ Hfind) as (p0 & Hp0 & Hws0).
    destruct (place_ready_effect ws msg rooms i' room0 pIndex)
      as [Hr|(pl & g & fleet & _ & Hpl & Hv & Hr)]; [by apply Hsame|].
    cbn zeta in Hr.
    destruct (decide (i' = i)) as [->|Hne]; [|destruct Hr as [Hr|[_ Hr]]; by eapply Hother].
    rewrite Hi in Hkey'. injection Hkey' as <- <-.
    destruct (decide (pIndex = j)) as [->|Hnej].
    - rewrite Hj in Hp0. injection Hp0 as <-.
      destruct Hr as [Hr|[Hst Hr]]; rewrite Hr;
        (eexists _, _; split; [by eapply updRoom_lookup|]; cbn [Room.players];
         rewrite list_lookup_alter_eq, Hj; split; [reflexivity|]; cbn; split_and!; auto).
    - destruct Hr as [Hr|[Hst Hr]]; rewrite Hr;
        (eexists _, _; split; [by eapply updRoom_lookup|]; cbn [Room.players];
         rewrite list_lookup_alter_ne by done; split; [exact Hj|];
         cbn; split_and!; auto). }
  destruct (String.eqb_spec kind "shot") as [->|_]; [|by apply Hsame].
  destruct (findRoom ws rooms) as [[[i' room0] pIndex]|] eqn:Hfind; [|by apply Hsame].
  destruct (findRoom_Some _ _ _ _ _ Hfind) as [[key' Hkey'] _].
  destruct (shot_rooms ws msg rooms i' room0 pIndex)
    as [Hr|(x & y & defender & g & cell & t1 & Hx & Hy & Hd & Hg & Hc & Hcell & Hr)];
    [by apply Hsame|].
  destruct (decide (i' = i)) as [->|Hne]; [|by eapply Hother].
  rewrite Hi in Hkey'. injection Hkey' as <- <-.
  rewrite Hr.
  destruct (decide (otherIndex pIndex = j)) as [<-|Hnej];
    (eexists _, _; split; [by eapply updRoom_lookup|]; cbn [Room.players]).
  - rewrite list_lookup_insert_eq by (by eapply lookup_lt_Some).
    rewrite Hj in Hd. injection Hd as <-. split; [reflexivity|]. cbn. split_and!; auto.
  - rewrite list_lookup_insert_ne by done. split; [exact Hj|]. cbn. split_and!; auto.
Qed.

End Handshake.

(** * Whom a message reaches and what it changes *)

Section Isolation.

Context {strings : JsStrings}.

Lemma updRoom_insert (rooms : store) i key room r :
  rooms !! i = Some (key, room) → updRoom i r rooms = <[i := (key, r)]> rooms.
Proof.
  intros Hkey. unfold updRoom. apply list_eq. intros k.
  destruct (decide (k = i)) as [->|Hne].
  - rewrite list_lookup_alter_eq, Hkey. cbn.
    by rewrite list_lookup_insert_eq by (by eapply lookup_lt_Some).
  - by rewrite list_lookup_alter_ne, list_lookup_insert_ne.
Qed.

Lemma storeSet_cases rid r (rooms : store) :
  (∃ i room, rooms !! i = Some (rid, room) ∧ storeSet rid r rooms = <[i := (rid, r)]> rooms) ∨
  ((rid ∉ rooms.*1) ∧ storeSet rid r rooms = rooms ++ [(rid, r)]).
Proof.
  induction rooms as [|[k r0] rooms IH]; cbn [storeSet].
  - right. split; [by intros ?%elem_of_nil|done].
  - destruct (String.eqb_spec k rid) as [->|Hne].
    + left. by exists O, r0.
    + destruct IH as [(i & room & Hi & ->)|[Hnot ->]].
      * left. by exists (S i), room.
      * right. split; [|done]. cbn. by apply not_elem_of_cons.
Qed.

Lemma sent_join_room ws cid token rooms c m :
  (c, m) ∈ sent (join_room ws cid token rooms) →
  c = ws ∨ ∃ i r, storeGet token rooms = Some (i, r) ∧ c ∈ roomConnections r.
Proof.
  unfold join_room.
  destruct (storeGet token rooms) as [[i r]|] eqn:Hget.
  2:{ cbn. intros [= -> _]%list_elem_of_singleton. by left. }
  destruct (2 <=? _)%nat.
  { cbn. intros [= -> _]%list_elem_of_singleton. by left. }
  cbn zeta. cbn [Room.players].
  assert (Hin : ∀ p, p ∈ Room.players r ++ [newPlayer ws cid] →
            Player.ws p = ws ∨ ∃ i0 r0, Some (i, r) = Some (i0, r0) ∧
                                        Player.ws p ∈ roomConnections r0).
  { intros p [Hp|Hp]%elem_of_app.
    - right. exists i, r. split; [done|]. unfold roomConnections.
      apply list_elem_of_fmap. by exists p.
    - apply list_elem_of_singleton in Hp as ->. by left. }
  destruct (_ !! O) as [p0|] eqn:H0; [|cbn; by intros ?%elem_of_nil].
  destruct (_ !! 1%nat) as [p1|] eqn:H1.
  2:{ cbn. intros [= -> _]%list_elem_of_singleton. apply Hin.
      by eapply list_elem_of_lookup_2. }
  cbn [sent done]. intros [Hc|Hc]%elem_of_app.
  - apply elem_of_cons in Hc as [[= -> _]|[= -> _]%list_elem_of_singleton];
      apply Hin; by eapply list_elem_of_lookup_2.
  - apply elem_of_broadcast in Hc as [_ (p & Hp & <-)]. by apply Hin.
Qed.

Lemma sent_place_ready ws msg rooms i room pIndex c m :
  (c, m) ∈ sent (place_ready ws msg rooms (Some (i, room, pIndex))) →
  c = ws ∨ c ∈ roomConnections room.
Proof.
  unfold place_ready.
  destruct (_ <? 2)%nat.
  { cbn. intros [= -> _]%list_elem_of_singleton. by left. }
  destruct (getProp msg "placement") as [placement|]; [|cbn; by intros ?%elem_of_nil].
  destruct (validatePlacement placement) as [g fleet|err|];
    [|cbn; intros [= -> _]%list_elem_of_singleton; by left|cbn; by intros ?%elem_of_nil].
  cbn zeta.
  set (ps := alter _ pIndex (Room.players room)).
  assert (Hps : Player.ws <$> ps = Player.ws <$> Room.players room) by by apply ws_alter.
  assert (Hbc : ∀ turn started obj,
            (c, m) ∈ broadcast (Room.mk ps turn started) obj → c ∈ roomConnections room).
  { intros t st obj [_ (p & Hp & <-)]%elem_of_broadcast. unfold roomConnections.
    rewrite <- Hps. apply list_elem_of_fmap. by exists p. }
  assert (Hout : (c, m) ∈ (ws, MReadyOk)
                   :: broadcast (Room.mk ps (Room.turn room) (Room.started room))
                        (MStatus (PlayerReady (pIndex + 1))) →
            c = ws ∨ c ∈ roomConnections room).
  { intros [[= -> _]|Hc]%elem_of_cons; [by left|right; by eapply Hbc]. }
  destruct (ps !! O) as [p0|]; [|done].
  destruct (Player.ready p0); cbn [negb]; [|done].
  destruct (ps !! 1%nat) as [p1|]; [|done].
  destruct (_ && _); [|done].
  cbn [sent done].
  intros [Hc|Hc]%elem_of_app; [by apply Hout|right; by eapply Hbc].
Qed.

Lemma sent_resolveShot rooms i room pIndex x y defender g cell c m :
  Room.players room !! otherIndex pIndex = Some defender →
  (c, m) ∈ sent (resolveShot rooms i room pIndex x y defender g cell) →
  c ∈ roomConnections room.
Proof.
  intros Hd. unfold resolveShot. cbn zeta. cbn [Player.ships Room.players Player.ws].
  set (ps := <[otherIndex pIndex := _]> (Room.players room)).
  assert (Hps : Player.ws <$> ps = Player.ws <$> Room.players room).
  { unfold ps. by eapply ws_insert. }
  assert (Hin : ∀ p, p ∈ ps → Player.ws p ∈ roomConnections room).
  { intros p Hp. unfold roomConnections. rewrite <- Hps. apply list_elem_of_fmap. by exists p. }
  assert (Hbc : ∀ turn started obj,
            (c, m) ∈ broadcast (Room.mk ps turn started) obj → c ∈ roomConnections room).
  { intros t st obj [_ (p & Hp & <-)]%elem_of_broadcast. by apply Hin. }
  destruct (Player.ships defender) as [fleet|]; [|cbn; by intros ?%elem_of_nil].
  destruct (ps !! pIndex) as [attacker|] eqn:Hatt; [|cbn; by intros ?%elem_of_nil].
  destruct (if bool_decide (cell = Ship) then findSunk _ _ _ _ else _) as [sunk sunkSize].
  assert (Hhead : ∀ win,
            (c, m) ∈ [(Player.ws attacker, MShotResult x y (bool_decide (cell = Ship))
                         sunk sunkSize win);
                      (Player.ws defender, MGotShot x y (bool_decide (cell = Ship))
                         sunk sunkSize win)] →
            c ∈ roomConnections room).
  { intros win [[= -> _]|[= -> _]%list_elem_of_singleton]%elem_of_cons.
    - apply Hin. by eapply list_elem_of_lookup_2.
    - unfold roomConnections. apply list_elem_of_fmap. exists defender.
      split; [done|]. by eapply list_elem_of_lookup_2. }
  destruct (allShipsSunk _ _); cbn [sent done];
    (intros [Hc|Hc]%elem_of_app; [by eapply Hhead|]).
  - by eapply Hbc.
  - destruct (bool_decide (cell = Ship)); by eapply Hbc.
Qed.

(** Whatever a message is, the handler sends only to the sender, to the
    players of the room the sender is found in, and, on a [join_room], to
    the players of the room that has the token asked for. *)
Theorem messages_reach_roommates_only ws cid rid raw rooms c m :
  (c, m) ∈ sent (onMessage ws cid rid raw rooms) →
  c = ws ∨
  (∃ i room idx, findRoom ws rooms = Some (i, room, idx) ∧ c ∈ roomConnections room) ∨
  (∃ msg token i room,
     raw = Some msg ∧ getProp msg "type" = Some (VStr "join_room") ∧
     joinToken msg = Some token ∧ storeGet token rooms = Some (i, room) ∧
     c ∈ roomConnections room).
Proof.
  assert (Hrej : ∀ (P : Prop) rooms0 e, (c, m) ∈ sent (reject rooms0 ws e) → c = ws ∨ P).
  { intros P rooms0 e [= -> _]%list_elem_of_singleton. by left. }
  unfold onMessage.
  destruct raw as [msg|]; [|by apply Hrej].
  destruct (getProp msg "type") as [ty|] eqn:Hty; [|cbn; by intros ?%elem_of_nil].
  destruct (truthy ty); cbn [negb]; [|cbn; by intros ?%elem_of_nil].
  destruct ty as [| | | | |kind| |]; try by apply Hrej.
  destruct (String.eqb_spec kind "create_room") as [->|_].
  { cbn. intros [= -> _]%list_elem_of_singleton. by left. }
  destruct (String.eqb_spec kind "join_room") as [->|_].
  { destruct (joinToken msg) as [token|] eqn:Htoken; [|cbn; by intros ?%elem_of_nil].
    intros [->|(i & r & Hget & Hc)]%sent_join_room; [by left|].
    right. right. by exists msg, token, i, r. }
  destruct (String.eqb_spec kind "place_ready") as [->|_].
  { destruct (findRoom ws rooms) as [[[i room] pIndex]|] eqn:Hfind; [|by apply Hrej].
    intros [->|Hc]%sent_place_ready; [by left|]. right. left. by exists i, room, pIndex. }
  destruct (String.eqb_spec kind "shot") as [->|_]; [|by apply Hrej].
  destruct (findRoom ws rooms) as [[[i room] pIndex]|] eqn:Hfind; [|by apply Hrej].
  destruct (shot_cases ws msg rooms i room pIndex)
    as [[e ->]|[->|(x & y & defender & g & cell & _ & _ & _ & _ & _ & Hd & _ & _ & _ & ->)]].
  - by apply Hrej.
  - cbn. by intros ?%elem_of_nil.
  - intros Hc%sent_resolveShot; [|done]. right. left. by exists i, room, pIndex.
Qed.

(** A message leaves the store as it is, or changes the room of one entry,
    whose token and position stay, or, for a [create_room] with a token that
    is not in use, adds the new room after the existing entries.  So a
    message never removes a room and never touches two rooms. *)
Theorem message_changes_one_room ws cid rid raw rooms :
  let o := onMessage ws cid rid raw rooms in
  rooms_after o = rooms ∨
  (∃ i key room room',
     rooms !! i = Some (key, room) ∧ rooms_after o = <[i := (key, room')]> rooms) ∨
  (∃ msg, raw = Some msg ∧ getProp msg "type" = Some (VStr "create_room") ∧
          (rid ∉ rooms.*1) ∧
          rooms_after o = rooms ++ [(rid, Room.mk [newPlayer ws cid] O false)]).
Proof.
  cbn zeta. unfold onMessage.
  destruct raw as [msg|]; [|by left].
  destruct (getProp msg "type") as [ty|] eqn:Hty; [|by left].
  destruct (truthy ty); cbn [negb]; [|by left].
  destruct ty as [| | | | |kind| |]; try by left.
  destruct (String.eqb_spec kind "create_room") as [->|_].
  { right. cbn [create_room rooms_after done].
    destruct (storeSet_cases rid (Room.mk [newPlayer ws cid] O false) rooms)
      as [(i & room & Hi & ->)|[Hnot ->]].
    - left. by eexists i, rid, room, _.
    - right. by exists msg. }
  destruct (String.eqb_spec kind "join_room") as [->|_].
  { destruct (joinToken msg) as [token|]; [|by left].
    destruct (join_room_rooms ws cid token rooms) as [Hr|(i & r & Hi & Hr)]; [by left|].
    right. left. eexists i, token, r, _. split; [done|]. rewrite Hr.
    by apply updRoom_insert with r. }
  destruct (String.eqb_spec kind "place_ready") as [->|_].
  { destruct (findRoom ws rooms) as [[[i room] pIndex]|] eqn:Hfind; [|by left].
    destruct (findRoom_Some _ _ _ _ _ Hfind) as [[key Hkey] _].
    destruct (place_ready_rooms ws msg rooms i room pIndex)
      as [Hr|(pl & g & fleet & t1 & s1 & _ & _ & Hr)]; [by left|].
    right. left. eexists i, key, room, _. split; [done|]. rewrite Hr.
    by apply updRoom_insert with room. }
  destruct (String.eqb_spec kind "shot") as [->|_]; [|by left].
  destruct (findRoom ws rooms) as [[[i room] pIndex]|] eqn:Hfind; [|by left].
  destruct (findRoom_Some _ _ _ _ _ Hfind) as [[key Hkey] _].
  destruct (shot_rooms ws msg rooms i room pIndex)
    as [Hr|(x & y & defender & g & cell & t1 & _ & _ & _ & _ & _ & _ & Hr)]; [by left|].
  right. left. eexists i, key, room, _. split; [done|]. rewrite Hr.
  by apply updRoom_insert with room.
Qed.

End Isolation.

(** * More on the placement validator *)

Section ValidatorEdges.

Lemma shipSize_None s : shipSize s = None → nullish s.
Proof.
  unfold shipSize. destruct (getProp s "cells") as [c|] eqn:Hc.
  - by destruct c.
  - intros _. by apply getProp_None in Hc.
Qed.

Lemma checkCells_Throw g cells :
  checkCells g cells = Throw → ∃ c, c ∈ cells ∧ nullish c.
Proof.
  induction cells as [|c cells IH]; cbn [checkCells]; [done|].
  destruct (getProp c "x") as [vx|] eqn:Hx.
  2:{ intros _. exists c. split; [apply list_elem_of_here|]. by apply getProp_None in Hx. }
  destruct (getProp c "y") as [vy|] eqn:Hy.
  2:{ intros _. exists c. split; [apply list_elem_of_here|]. by apply getProp_None in Hy. }
  destruct vx as [| | |x| | | |]; try by destruct vy.
  destruct vy as [| | |y| | | |]; try done.
  destruct (_ || _); [done|]. destruct (bool_decide _); [done|].
  destruct (checkCells g cells) as [pts| |]; try done.
  intros _. destruct (IH eq_refl) as (c' & Hc' & Hnull).
  exists c'. split; [by apply list_elem_of_further|done].
Qed.

Lemma placeShip_Throw g s :
  placeShip g s = Throw →
  nullish s ∨
  ∃ cells c, getProp s "cells" = Some (VArr cells) ∧ c ∈ cells ∧ nullish c.
Proof.
  unfold placeShip. destruct (getProp s "cells") as [v|] eqn:Hv.
  2:{ intros _. left. by apply getProp_None in Hv. }
  destruct v as [| | | | | |cells|]; try done.
  destruct (Nat.ltb_spec (length cells) 2) as [|Hlen]; [done|].
  destruct (checkCells g cells) as [pts| |] eqn:Hcheck; cbn -[setSize sortNum stepOne].
  - destruct (negb _ && negb _); [done|].
    apply checkCells_Ok in Hcheck as (Hdec & _). apply length_mapM in Hdec.
    destruct pts as [|[x0 y0] pts]; [cbn in Hdec; lia|].
    destruct (_ && _); by destruct (negb _).
  - done.
  - intros _. right. destruct (checkCells_Throw _ _ Hcheck) as (c & Hc & Hnull).
    by exists cells, c.
Qed.

Lemma placeShips_Throw ships : ∀ g,
  placeShips g ships = Throw →
  ∃ s, s ∈ ships ∧
    (nullish s ∨
     ∃ cells c, getProp s "cells" = Some (VArr cells) ∧ c ∈ cells ∧ nullish c).
Proof.
  induction ships as [|s ships IH]; intros g; cbn [placeShips]; [done|].
  destruct (placeShip g s) as [[g1 pts]| |] eqn:Hship; cbn.
  - destruct (placeShips g1 ships) as [[g2 fleet]| |] eqn:Hrest; cbn; try done.
    intros _. destruct (IH _ Hrest) as (s' & Hs' & H).
    exists s'. split; [by apply list_elem_of_further|done].
  - done.
  - intros _. exists s. split; [apply list_elem_of_here|]. by apply placeShip_Throw in Hship.
Qed.

Lemma sortThrows_true sizes :
  sortThrows sizes = true ↔
  (2 ≤ length (filter (λ v, isUndefined v = false) sizes))%nat ∧
  ∃ v, v ∈ sizes ∧ coercible v = false.
Proof.
  unfold sortThrows. rewrite andb_true_iff, Nat.leb_le, negb_true_iff.
  assert (forallb coercible sizes = false ↔ ∃ v, v ∈ sizes ∧ coercible v = false) as ->;
    [|done].
  induction sizes as [|a sizes IH]; cbn.
  - split; [done|]. by intros (v & ?%elem_of_nil & _).
  - rewrite andb_false_iff, IH. split.
    + intros [Ha|(v & Hv & Hc)]; [exists a; split; [apply list_elem_of_here|done]|].
      exists v. split; [by apply list_elem_of_further|done].
    + intros (v & [->|Hv]%elem_of_cons & Hc); [by left|right; eauto].
Qed.

(** The validator raises a TypeError in three cases only: an entry of the
    [ships] array is [null]; the sort of the sizes raises, which it does when
    two or more ships have a size and the size of some ship cannot be
    converted to a number (the [length] of its [cells] is an object that has
    a property [toString], or an array holding one); or a ship's [cells]
    array has a [null] entry.  It does raise in the first two cases. *)
Theorem validator_raises_only_on_null_or_unsortable placement :
  (validatePlacement placement = VThrow →
   ∃ ships, getProp placement "ships" = Some (VArr ships) ∧
     ((∃ s, s ∈ ships ∧ nullish s) ∨
      (∃ sizes, mapM shipSize ships = Some sizes ∧
         (2 ≤ length (filter (λ v, isUndefined v = false) sizes))%nat ∧
         ∃ v, v ∈ sizes ∧ coercible v = false) ∨
      (∃ s cells c, s ∈ ships ∧ getProp s "cells" = Some (VArr cells) ∧
                    c ∈ cells ∧ nullish c))) ∧
  (∀ ships s, getProp placement "ships" = Some (VArr ships) → s ∈ ships → nullish s →
     validatePlacement placement = VThrow) ∧
  (∀ ships sizes v, getProp placement "ships" = Some (VArr ships) →
     mapM shipSize ships = Some sizes →
     (2 ≤ length (filter (λ v, isUndefined v = false) sizes))%nat →
     v ∈ sizes → coercible v = false →
     validatePlacement placement = VThrow).
Proof.
  assert (Ht : ∀ ships, getProp placement "ships" = Some (VArr ships) →
                        truthy placement = true).
  { intros ships Hships. destruct placement; cbn in Hships; done. }
  split_and!.
  - unfold validatePlacement.
    destruct (truthy placement); [|done]. cbn [negb].
    destruct (getProp placement "ships") as [[| | | | | |ships|]|] eqn:Hships; try done.
    destruct (mapM shipSize ships) as [sizes|] eqn:Hsizes.
    + destruct (sortThrows sizes) eqn:Hsort.
      { intros _. exists ships. split; [done|]. right. left. exists sizes.
        split; [done|]. by apply sortThrows_true. }
      destruct (negb _); [done|]. destruct (negb _); [done|].
      destruct (placeShips emptyGrid ships) as [[g fleet]| |] eqn:Hplace; try done.
      intros _. destruct (placeShips_Throw _ _ Hplace) as (s & Hs & [Hnull|H]).
      * exists ships. split; [done|]. left. by exists s.
      * exists ships. split; [done|]. right. right.
        destruct H as (cells & c & ?). by exists s, cells, c.
    + intros _. apply mapM_None, Exists_exists in Hsizes as (s & Hs & Hnone).
      exists ships. split; [done|]. left. exists s. split; [done|].
      by apply shipSize_None.
  - intros ships s Hships Hs Hnull. unfold validatePlacement.
    rewrite (Ht _ Hships), Hships. cbn [negb].
    assert (Hnone : mapM shipSize ships = None).
    { apply mapM_None, Exists_exists. exists s. split; [done|].
      by destruct Hnull as [-> | ->]. }
    by rewrite Hnone.
  - intros ships sizes v Hships Hsizes Htwo Hv Hc. unfold validatePlacement.
    rewrite (Ht _ Hships), Hships, Hsizes. cbn [negb].
    assert (Hsort : sortThrows sizes = true) by (apply sortThrows_true; eauto).
    by rewrite Hsort.
Qed.

Lemma straight_NoDup (s : ShipCells) : straightContiguous s → NoDup s.
Proof.
  intros [(y & a & _ & Hperm)|(x & a & _ & Hperm)].
  - apply (NoDup_fmap_1 fst). rewrite Hperm. apply upFrom_NoDup.
  - apply (NoDup_fmap_1 snd). rewrite Hperm. apply upFrom_NoDup.
Qed.

Lemma fleet_NoDup (fleet : list ShipCells) :
  Forall straightContiguous fleet → noOverlap fleet → NoDup (concat fleet).
Proof.
  induction 1 as [|s fleet Hs Hall IH]; cbn [concat]; [constructor|].
  intros [Hhead Hno]%noOverlap_cons. apply NoDup_app. split_and!.
  - by apply straight_NoDup.
  - intros c Hc (t & Hct & Ht)%elem_of_concat. rewrite Forall_forall in Hhead.
    by destruct (Hhead t Ht c Hc).
  - by apply IH.
Qed.

Lemma length_concat_sum {A} (l : list (list A)) :
  length (concat l) = list_sum (length <$> l).
Proof. induction l as [|x l IH]; cbn; [done|]. by rewrite length_app, IH. Qed.

Lemma fleet_cells_count (fleet : list ShipCells) :
  sizesOk fleet → length (concat fleet) = 17%nat.
Proof.
  intros Hs. rewrite length_concat_sum. unfold sizesOk in Hs.
  by rewrite (Permutation_list_sum Hs).
Qed.

(** The fleet of an accepted placement occupies 17 cells of the board, all
    different, and the validated grid has a ship on each of them and is empty
    everywhere else. *)
Theorem accepted_fleet_covers_17_cells placement g fleet :
  validatePlacement placement = VOk g fleet →
  length (concat fleet) = 17%nat ∧ NoDup (concat fleet) ∧ Forall inBounds (concat fleet) ∧
  ∀ x y, inBounds (x, y) →
    (cellAt g x y = Some Ship ∧ (x, y) ∈ concat fleet) ∨
    (cellAt g x y = Some Empty ∧ (x, y) ∉ concat fleet).
Proof.
  intros (_ & Hs & Hb & Hno & Hline & [_ Hm])%validatePlacement_sound.
  split; [by apply fleet_cells_count|]. split; [by apply fleet_NoDup|]. split.
  - apply Forall_forall. intros c (s & Hc & Hs')%elem_of_concat.
    unfold allInBounds in Hb. rewrite Forall_forall in Hb. specialize (Hb s Hs').
    rewrite Forall_forall in Hb. by apply Hb.
  - intros x y Hxy. rewrite (Hm x y Hxy).
    destruct (decide ((x, y) ∈ concat fleet)); [by left|by right].
Qed.

Lemma grid_ext (g g' : list (list Cell)) :
  wfGrid g → wfGrid g' →
  (∀ x y, inBounds (x, y) → cellAt g x y = cellAt g' x y) → g = g'.
Proof.
  intros [Hlen Hrows] [Hlen' Hrows'] Hext. apply list_eq. intros i.
  destruct (decide (i < Z.to_nat SIZE)%nat) as [Hi|Hi].
  2:{ rewrite !lookup_ge_None_2; [done|lia|lia]. }
  destruct (lookup_lt_is_Some_2 g i) as [row Hrow]; [lia|].
  destruct (lookup_lt_is_Some_2 g' i) as [row' Hrow']; [lia|].
  rewrite Hrow, Hrow'. f_equal. apply list_eq. intros j.
  pose proof (Forall_lookup_1 _ _ _ _ Hrows Hrow) as Hl.
  pose proof (Forall_lookup_1 _ _ _ _ Hrows' Hrow') as Hl'. cbn in Hl, Hl'.
  destruct (decide (j < Z.to_nat SIZE)%nat) as [Hj|Hj].
  2:{ rewrite !lookup_ge_None_2; [done|lia|lia]. }
  assert (Hb : inBounds (Z.of_nat j, Z.of_nat i)).
  { unfold inBounds, SIZE in *. cbn [fst snd]. lia. }
  specialize (Hext _ _ Hb). unfold cellAt in Hext.
  destruct (Z.leb_spec 0 (Z.of_nat j)); [|lia].
  destruct (Z.leb_spec 0 (Z.of_nat i)); [|lia]. cbn in Hext.
  by rewrite !Nat2Z.id, Hrow, Hrow' in Hext.
Qed.

(** The validator reads nothing of an accepted placement but the coordinates
    of the cells of its ships: a placement with the same ships and cells,
    whatever other properties its objects carry, is accepted with the same
    grid and fleet. *)
Theorem validation_reads_cells_only placement placement' g fleet :
  validatePlacement placement = VOk g fleet → fleetOf placement' = Some fleet →
  validatePlacement placement' = VOk g fleet.
Proof.
  intros (_ & Hs & Hb & Hno & Hline & Hm)%validatePlacement_sound Hfleet'.
  destruct (validatePlacement_complete placement') as (g' & fleet' & Hv); [by exists fleet|].
  rewrite Hv.
  destruct (validatePlacement_sound _ _ _ Hv) as (Hdec & _ & _ & _ & _ & Hm').
  assert (fleet' = fleet) as -> by congruence.
  f_equal. destruct Hm as [Hwf Hc], Hm' as [Hwf' Hc'].
  apply grid_ext; try done. intros x y Hxy. by rewrite Hc, Hc'.
Qed.

Lemma accepted_iff_validFleet placement fleet :
  fleetOf placement = Some fleet → (accepted placement ↔ validFleet fleet).
Proof.
  intros Hdec. split.
  - intros (g & fleet' & Hv).
    destruct (validatePlacement_sound _ _ _ Hv) as (Hdec' & Hs & Hb & Hno & Hline & _).
    assert (fleet' = fleet) as -> by congruence. done.
  - intros (Hs & Hb & Hno & Hline). apply validatePlacement_complete. by exists fleet.
Qed.

Lemma noOverlap_perm (fleet fleet' : list ShipCells) :
  fleet ≡ₚ fleet' → noOverlap fleet → noOverlap fleet'.
Proof.
  induction 1 as [|s l l' Hperm IH|s t l|l1 l2 l3 _ IH1 _ IH2]; [done| | |by auto].
  - intros [Hhead Hno]%noOverlap_cons. apply noOverlap_cons. split; [|by apply IH].
    by rewrite <- Hperm.
  - intros [[Hts Ht]%Forall_cons [Hs Hno]%noOverlap_cons]%noOverlap_cons.
    apply noOverlap_cons. split.
    + constructor; [|done]. intros c Hc Hc'. by apply (Hts c).
    + apply noOverlap_cons. by split.
Qed.

Lemma straight_perm (s s' : ShipCells) :
  s ≡ₚ s' → straightContiguous s → straightContiguous s'.
Proof.
  intros Hperm [(y & a & Hy & Hxs)|(x & a & Hx & Hys)]; [left; exists y, a|right; exists x, a].
  - split; [by rewrite <- Hperm|]. by rewrite <- Hperm.
  - split; [by rewrite <- Hperm|]. by rewrite <- Hperm.
Qed.

Lemma validFleet_perm (fleet fleet' : list ShipCells) :
  fleet ≡ₚ fleet' → validFleet fleet → validFleet fleet'.
Proof.
  intros Hperm (Hs & Hb & Hno & Hline). unfold validFleet, sizesOk, allInBounds in *.
  split_and!.
  - by rewrite <- Hperm.
  - by rewrite <- Hperm.
  - by eapply noOverlap_perm.
  - by rewrite <- Hperm.
Qed.

Lemma validFleet_cells (fleet fleet' : list ShipCells) :
  Forall2 (≡ₚ) fleet fleet' → validFleet fleet → validFleet fleet'.
Proof.
  intros Hcells (Hs & Hb & Hno & Hline). unfold validFleet, sizesOk, allInBounds in *.
  split_and!.
  - assert (Heq : length <$> fleet' = length <$> fleet); [|by rewrite Heq].
    clear -Hcells. induction Hcells as [|s s' l l' Hss _ IH]; [done|].
    cbn. by rewrite IH, Hss.
  - clear -Hcells Hb. induction Hcells as [|s s' l l' Hss _ IH]; [done|].
    apply Forall_cons in Hb as [Hb1 Hb2]. constructor; [by rewrite <- Hss|by apply IH].
  - intros i j s' t' c Hij Hi Hj Hc.
    destruct (Forall2_lookup_r _ _ _ _ _ Hcells Hi) as (s & Hs' & Hss).
    destruct (Forall2_lookup_r _ _ _ _ _ Hcells Hj) as (t & Ht' & Htt).
    rewrite <- Htt. apply (Hno i j s t c Hij Hs' Ht'). by rewrite Hss.
  - clear -Hcells Hline. induction Hcells as [|s s' l l' Hss _ IH]; [done|].
    apply Forall_cons in Hline as [Hl1 Hl2].
    constructor; [by eapply straight_perm|by apply IH].
Qed.

(** Whether a placement is accepted does not depend on the order in which
    it lists its ships, nor on the order in which a ship lists its cells. *)
Theorem acceptance_ignores_order placement placement' fleet fleet' :
  fleetOf placement = Some fleet → fleetOf placement' = Some fleet' →
  sameFleet fleet fleet' →
  (accepted placement ↔ accepted placement').
Proof.
  intros Hdec Hdec' (mid & Hperm & Hcells).
  rewrite (accepted_iff_validFleet _ _ Hdec), (accepted_iff_validFleet _ _ Hdec').
  split.
  - intros Hv. by apply (validFleet_cells mid), (validFleet_perm fleet).
  - intros Hv. apply (validFleet_perm mid); [done|].
    apply (validFleet_cells fleet'); [|done]. by symmetry.
Qed.

Lemma checkCells_Err g cells e :
  checkCells g cells = Err e →
  e ∈ ["Invalid coords"; "Out of bounds"; "Overlapping ships"].
Proof.
  induction cells as [|c cells IH]; cbn [checkCells]; [done|].
  destruct (getProp c "x") as [vx|]; [|done].
  destruct (getProp c "y") as [vy|]; [|by destruct vx].
  assert (H1 : "Invalid coords" ∈ ["Invalid coords"; "Out of bounds"; "Overlapping ships"])
    by apply list_elem_of_here.
  destruct vx as [| | |x| | | |]; try by (destruct vy; intros [= <-]).
  destruct vy as [| | |y| | | |]; try by intros [= <-].
  destruct (_ || _); [intros [= <-]; apply list_elem_of_further, list_elem_of_here|].
  destruct (bool_decide _).
  { intros [= <-]. do 2 apply list_elem_of_further. apply list_elem_of_here. }
  destruct (checkCells g cells) as [pts|e'|]; cbn; done.
Qed.

Lemma placeShips_Err ships : ∀ g e,
  placeShips g ships = Err e →
  e ∈ ["Invalid ship cells"; "Invalid coords"; "Out of bounds"; "Overlapping ships";
       "Ship must be straight"; "Ship cells must be contiguous"].
Proof.
  induction ships as [|s ships IH]; intros g e; cbn [placeShips]; [done|].
  destruct (placeShip g s) as [[g1 pts]|e'|] eqn:Hship; cbn.
  - destruct (placeShips g1 ships) as [[g2 fleet]|e'|] eqn:Hrest; cbn; try done.
    intros [= <-]. by eapply IH.
  - intros [= <-]. clear IH. revert Hship. unfold placeShip.
    destruct (getProp s "cells") as [v|]; [|done].
    assert (H0 : ∀ l, "Invalid ship cells" ∈ "Invalid ship cells" :: l)
      by (intros; apply list_elem_of_here).
    destruct v as [| | | | | |cells|]; try by intros [= <-].
    destruct (_ <? 2)%nat; [by intros [= <-]|].
    destruct (checkCells g cells) as [pts|e0|] eqn:Hcheck; cbn -[setSize sortNum stepOne].
    + destruct (negb _ && negb _).
      { intros [= <-]. do 4 apply list_elem_of_further. apply list_elem_of_here. }
      destruct pts as [|[x0 y0] pts]; [done|].
      destruct (_ && _); (destruct (negb _); [|done]); intros [= <-];
        do 5 apply list_elem_of_further; apply list_elem_of_here.
    + intros [= <-]. apply list_elem_of_further.
      apply checkCells_Err in Hcheck.
      repeat (apply elem_of_cons in Hcheck as [->|Hcheck];
              [repeat first [apply list_elem_of_here|apply list_elem_of_further]|]).
      by apply elem_of_nil in Hcheck.
    + done.
  - done.
Qed.

(** The validator answers "Wrong ship count" exactly for a placement whose
    [ships] array has no [null] entry, has sizes on which the sort does not
    raise, and does not have five entries, whatever the entries are. *)
Theorem wrong_ship_count_iff placement :
  validatePlacement placement = VErr "Wrong ship count" ↔
  ∃ ships sizes,
    getProp placement "ships" = Some (VArr ships) ∧
    Forall (λ s, ¬ nullish s) ships ∧
    mapM shipSize ships = Some sizes ∧ sortThrows sizes = false ∧
    length ships ≠ 5%nat.
Proof.
  unfold validatePlacement. split.
  - destruct (truthy placement); [|done]. cbn [negb].
    destruct (getProp placement "ships") as [[| | | | | |ships|]|] eqn:Hships; try done.
    destruct (mapM shipSize ships) as [sizes|] eqn:Hsizes; [|done].
    destruct (sortThrows sizes) eqn:Hsort; [done|].
    pose proof (length_mapM _ _ _ Hsizes) as Hlen.
    pose proof (Permutation_length (sortSizes_perm sizes)) as Hlen'.
    destruct (Nat.eqb_spec (length (sortSizes sizes)) (length (sortNum SHIP_SIZES)))
      as [Heq|Hne]; cbn [negb].
    + destruct (negb _); [done|].
      destruct (placeShips emptyGrid ships) as [[g fleet]|e|] eqn:Hplace; try done.
      intros [= ->]. apply placeShips_Err in Hplace.
      repeat (apply elem_of_cons in Hplace as [[=]|Hplace]). by apply elem_of_nil in Hplace.
    + intros _. exists ships, sizes. split_and!; try done.
      * apply Forall_forall. intros s Hs Hnull.
        assert (Hnone : mapM shipSize ships = None); [|congruence].
        apply mapM_None, Exists_exists. exists s. split; [done|].
        by destruct Hnull as [-> | ->].
      * cbn in Hne. lia.
  - intros (ships & sizes & Hships & _ & Hsizes & Hsort & Hlen).
    assert (Ht : truthy placement = true).
    { destruct placement; cbn in Hships; done. }
    rewrite Ht, Hships, Hsizes, Hsort. cbn [negb].
    pose proof (length_mapM _ _ _ Hsizes) as Hlen1.
    pose proof (Permutation_length (sortSizes_perm sizes)) as Hlen2.
    destruct (Nat.eqb_spec (length (sortSizes sizes)) (length (sortNum SHIP_SIZES)))
      as [Heq|Hne]; [|done].
    cbn in Heq. lia.
Qed.

End ValidatorEdges.

(** * The slot a message changes *)

Section OneSlot.

Context {strings : JsStrings}.

(** Of the slots of the sender's room, a [place_ready] changes at most the
    sender's own, and a shot at most the slot of the other index: a player
    never marks its own board, and never places the ships of its opponent. *)
Theorem message_changes_one_slot ws cid rid msg rooms i room pIndex :
  findRoom ws rooms = Some (i, room, pIndex) →
  let o := onMessage ws cid rid (Some msg) rooms in
  (getProp msg "type" = Some (VStr "place_ready") →
   ∃ key room', rooms_after o !! i = Some (key, room') ∧
     ∀ j, j ≠ pIndex → Room.players room' !! j = Room.players room !! j) ∧
  (getProp msg "type" = Some (VStr "shot") →
   ∃ key room', rooms_after o !! i = Some (key, room') ∧
     ∀ j, j ≠ otherIndex pIndex → Room.players room' !! j = Room.players room !! j).
Proof.
  intros Hfind. cbn zeta.
  destruct (findRoom_Some _ _ _ _ _ Hfind) as [[key Hkey] _].
  split; intros Hty.
  - rewrite (onMessage_place_ready _ _ _ _ _ Hty), Hfind.
    destruct (place_ready_rooms ws msg rooms i room pIndex)
      as [->|(pl & g & fleet & t1 & s1 & _ & _ & ->)]; [by exists key, room|].
    eexists key, _. split; [by eapply updRoom_lookup|]. cbn [Room.players].
    intros j Hj. by rewrite list_lookup_alter_ne.
  - rewrite (onMessage_shot _ _ _ _ _ Hty), Hfind.
    destruct (shot_rooms ws msg rooms i room pIndex)
      as [->|(x & y & defender & g & cell & t1 & _ & _ & _ & _ & _ & _ & ->)];
      [by exists key, room|].
    eexists key, _. split; [by eapply updRoom_lookup|]. cbn [Room.players].
    intros j Hj. by rewrite list_lookup_insert_ne.
Qed.

End OneSlot.

(** * Legal shots *)

Section LegalShots.

Context {strings : JsStrings}.

(** In a started room, a shot of the player whose turn it is, at a cell of
    the board that the other player's grid does not show as hit or missed, is
    never refused: the shooter gets a [shot_result] for that cell and the
    other player the matching [got_shot], no error is sent and nothing is
    raised. *)
Theorem legal_shot_is_accepted ws cid rid msg rooms i room pIndex x y defender g :
  soundRooms rooms →
  getProp msg "type" = Some (VStr "shot") →
  findRoom ws rooms = Some (i, room, pIndex) →
  Room.started room = true → pIndex = Room.turn room →
  getProp msg "x" = Some (VNum x) → getProp msg "y" = Some (VNum y) → inBounds (x, y) →
  Room.players room !! otherIndex pIndex = Some defender →
  Player.grid defender = Some g →
  cellAt g x y ≠ Some Hit → cellAt g x y ≠ Some Miss →
  let o := onMessage ws cid rid (Some msg) rooms in
  ∃ hit sunk sz win,
    (ws, MShotResult x y hit sunk sz win) ∈ sent o ∧
    (Player.ws defender, MGotShot x y hit sunk sz win) ∈ sent o ∧
    raised o = false ∧ noErrors (sent o) = true.
Proof.
  intros Hsound Hty Hfind Hst Hturn Hx Hy Hb Hd Hg Hhit Hmiss. cbn zeta.
  rewrite (onMessage_shot _ _ _ _ _ Hty), Hfind.
  destruct (findRoom_Some _ _ _ _ _ Hfind) as [[key Hkey] _].
  destruct (findRoom_player _ _ _ _ _ Hfind) as (attacker & Hatt & Hws).
  pose proof (soundRooms_slot _ _ _ _ _ _ Hsound Hkey Hd) as Hdef.
  destruct (soundPlayer_placed_inv _ _ Hdef Hg) as (fleet & Hfleet & _ & Hwf & _).
  destruct (cellAt_is_Some g x y Hwf Hb) as [cell Hc].
  unfold shot. rewrite Hst, <- Hturn, Nat.eqb_refl, Hx, Hy. cbn [negb].
  apply outOfBounds_false in Hb. rewrite Hb, Hd, Hg, Hc.
  destruct (resolveShot_spec rooms i room pIndex x y defender g cell attacker fleet
              Hatt Hfleet) as (sunk & sz & Hres).
  assert (Hgoal : let o := resolveShot rooms i room pIndex x y defender g cell in
            ∃ hit sunk sz win,
              (ws, MShotResult x y hit sunk sz win) ∈ sent o ∧
              (Player.ws defender, MGotShot x y hit sunk sz win) ∈ sent o ∧
              raised o = false ∧ noErrors (sent o) = true).
  { cbn zeta. eexists _, sunk, sz, _. split_and!.
    - rewrite Hres, <- Hws. cbn [sent done]. apply elem_of_app. left. apply list_elem_of_here.
    - rewrite Hres. cbn [sent done]. apply elem_of_app. left.
      apply list_elem_of_further, list_elem_of_here.
    - by rewrite Hres.
    - apply resolveShot_clean. }
  destruct cell; [exact Hgoal|exact Hgoal|by destruct Hmiss; rewrite Hc|by destruct Hhit; rewrite Hc].
Qed.

End LegalShots.

(** * The reasons of the validator *)

Section Reasons.

Lemma checkCells_Err_inv g marked cells e :
  marks g marked → checkCells g cells = Err e →
  (e = "Invalid coords" ∧ ∃ c, c ∈ cells ∧ ¬ nullish c ∧ cellOf c = None) ∨
  (e = "Out of bounds" ∧ ∃ c xy, c ∈ cells ∧ cellOf c = Some xy ∧ ¬ inBounds xy) ∨
  (e = "Overlapping ships" ∧ ∃ c xy, c ∈ cells ∧ cellOf c = Some xy ∧ xy ∈ marked).
Proof.
  intros [_ Hm]. induction cells as [|c cells IH]; cbn [checkCells]; [done|].
  destruct (getProp c "x") as [vx|] eqn:Hx; [|done].
  destruct (getProp c "y") as [vy|] eqn:Hy; [|by destruct vx].
  assert (Hbad : (∀ x y, vx = VNum x → vy = VNum y → False) →
            @Err (list (Z * Z)) "Invalid coords" = Err e →
            (e = "Invalid coords" ∧
             ∃ c0, c0 ∈ c :: cells ∧ ¬ nullish c0 ∧ cellOf c0 = None) ∨
            (e = "Out of bounds" ∧
             ∃ c0 xy, c0 ∈ c :: cells ∧ cellOf c0 = Some xy ∧ ¬ inBounds xy) ∨
            (e = "Overlapping ships" ∧
             ∃ c0 xy, c0 ∈ c :: cells ∧ cellOf c0 = Some xy ∧ xy ∈ marked)).
  { intros Hno [= <-]. left. split; [done|]. exists c. split; [apply list_elem_of_here|].
    split.
    - intros Hnull. apply (getProp_None c "x") in Hnull. congruence.
    - destruct (cellOf c) as [[x y]|] eqn:Hc; [|done].
      apply cellOf_getProp in Hc as [Hx' Hy']. exfalso. apply (Hno x y); congruence. }
  destruct vx as [| | |x| | | |]; try (destruct vy; by apply Hbad).
  destruct vy as [| | |y| | | |]; try by apply Hbad.
  clear Hbad.
  assert (Hc : cellOf c = Some (x, y)) by by apply cellOf_getProp.
  destruct (_ || _) eqn:Hb.
  { intros [= <-]. right. left. split; [done|]. exists c, (x, y).
    split; [apply list_elem_of_here|]. split; [done|].
    intros Hin%outOfBounds_false. congruence. }
  apply outOfBounds_false in Hb.
  destruct (bool_decide (cellAt g x y = Some Ship)) eqn:Hship.
  { intros [= <-]. right. right. split; [done|]. exists c, (x, y).
    split; [apply list_elem_of_here|]. split; [done|].
    apply bool_decide_eq_true in Hship. rewrite (Hm x y Hb) in Hship.
    by destruct (decide ((x, y) ∈ marked)). }
  destruct (checkCells g cells) as [pts|e'|]; cbn; try done.
  intros [= <-].
  destruct (IH eq_refl) as [[-> (c0 & Hin & H)]|[[-> (c0 & xy & Hin & H)]|[-> (c0 & xy & Hin & H)]]].
  - left. split; [done|]. exists c0. split; [by apply list_elem_of_further|done].
  - right. left. split; [done|]. exists c0, xy. split; [by apply list_elem_of_further|done].
  - right. right. split; [done|]. exists c0, xy. split; [by apply list_elem_of_further|done].
Qed.

Lemma rowShip_isHoriz (pts : list (Z * Z)) :
  pts ≠ [] → rowShip pts ↔
  (setSize pts.*2 =? 1)%nat && (setSize pts.*1 =? length pts)%nat = true.
Proof.
  intros Hne. unfold rowShip. rewrite andb_true_iff, !Nat.eqb_eq, setSize_one.
  rewrite <- (length_fmap fst pts) at 1. rewrite setSize_full. split.
  - intros [[y Hy] Hnd]. split; [|done]. exists y. split; [by destruct pts|].
    by apply Forall_fmap.
  - intros [(y & _ & Hy) Hnd]. split; [|done]. exists y. by apply Forall_fmap in Hy.
Qed.

Lemma colShip_isVert (pts : list (Z * Z)) :
  pts ≠ [] → colShip pts ↔
  (setSize pts.*1 =? 1)%nat && (setSize pts.*2 =? length pts)%nat = true.
Proof.
  intros Hne. unfold colShip. rewrite andb_true_iff, !Nat.eqb_eq, setSize_one.
  rewrite <- (length_fmap snd pts) at 1. rewrite setSize_full. split.
  - intros [[x Hx] Hnd]. split; [|done]. exists x. split; [by destruct pts|].
    by apply Forall_fmap.
  - intros [(x & _ & Hx) Hnd]. split; [|done]. exists x. by apply Forall_fmap in Hx.
Qed.

Lemma NoDup_constant (l : list Z) z :
  (2 ≤ length l)%nat → Forall (λ a, a = z) l → ¬ NoDup l.
Proof.
  destruct l as [|a [|b l]]; cbn; [lia|lia|]. intros _ Hall Hnd.
  apply Forall_cons in Hall as [-> [-> _]%Forall_cons].
  apply NoDup_cons in Hnd as [Hnin _]. apply Hnin, list_elem_of_here.
Qed.

Lemma placeShip_Err_inv g marked s e :
  marks g marked → placeShip g s = Err e → shipDefect marked s e.
Proof.
  intros Hm. unfold placeShip, shipDefect.
  destruct (getProp s "cells") as [v|] eqn:Hv; [|done].
  destruct v as [| | | | | |cells|]; try (intros [= <-]; left; by split).
  destruct (Nat.ltb_spec (length cells) 2) as [Hlt|Hlen].
  { intros [= <-]. left. split; [done|]. by intros cells' [= <-]. }
  destruct (checkCells g cells) as [pts|e0|] eqn:Hcheck; cbn -[setSize sortNum stepOne];
    [| |done].
  2:{ intros [= <-]. right. exists cells. split; [done|].
      destruct (checkCells_Err_inv _ _ _ _ Hm Hcheck) as [H|[H|H]]; auto. }
  apply checkCells_Ok in Hcheck as (Hdec & Hb & Hfree).
  pose proof (length_mapM _ _ _ Hdec) as Hl. rewrite Hl in *.
  assert (Hne : pts ≠ []) by (intros ->; cbn in Hlen; lia).
  pose proof (rowShip_isHoriz pts Hne) as Hrow.
  pose proof (colShip_isVert pts Hne) as Hcol.
  destruct ((setSize pts.*2 =? 1)%nat && (setSize pts.*1 =? length pts)%nat) eqn:Hh;
    destruct ((setSize pts.*1 =? 1)%nat && (setSize pts.*2 =? length pts)%nat) eqn:Hvt;
    cbn [negb andb];
    (destruct pts as [|[x0 y0] rest] eqn:Hpts; [done|]); rewrite <- Hpts in *.
  - (* a row and a column at once: impossible for two cells or more *)
    exfalso. destruct (proj2 Hrow eq_refl) as [_ Hnd].
    destruct (proj2 Hcol eq_refl) as [[x Hx] _].
    apply (NoDup_constant pts.*1 x); [by rewrite length_fmap| |done].
    by apply Forall_fmap.
  - destruct (stepOne (sortNum pts.*1)) eqn:Hstep; [done|]. cbn [negb].
    intros [= <-]. right. exists cells. split; [done|]. do 3 right.
    exists pts. split; [done|]. right. split; [done|]. split; [left; by apply Hrow|].
    destruct (proj2 Hrow eq_refl) as [_ Hnd].
    intros [(y & a & _ & Hperm)|(x & a & Hx & _)].
    + assert (stepOne (sortNum pts.*1) = true); [|congruence].
      apply contiguous_iff. exists a. by rewrite length_fmap.
    + apply (NoDup_constant pts.*1 x); [by rewrite length_fmap| |done].
      by apply Forall_fmap.
  - destruct (stepOne (sortNum pts.*2)) eqn:Hstep; [done|]. cbn [negb].
    intros [= <-]. right. exists cells. split; [done|]. do 3 right.
    exists pts. split; [done|]. right. split; [done|]. split; [right; by apply Hcol|].
    destruct (proj2 Hcol eq_refl) as [_ Hnd].
    intros [(y & a & Hy & _)|(x & a & _ & Hperm)].
    + apply (NoDup_constant pts.*2 y); [by rewrite length_fmap| |done].
      by apply Forall_fmap.
    + assert (stepOne (sortNum pts.*2) = true); [|congruence].
      apply contiguous_iff. exists a. by rewrite length_fmap.
  - intros [= <-]. right. exists cells. split; [done|]. do 3 right.
    exists pts. split; [done|]. left. split; [done|]. split.
    + intros H%Hrow. congruence.
    + intros H%Hcol. congruence.
Qed.

Lemma placeShips_Err_inv ships : ∀ g marked e,
  marks g marked → placeShips g ships = Err e →
  ∃ before s after fleet0,
    ships = before ++ s :: after ∧ mapM shipOf before = Some fleet0 ∧
    shipDefect (marked ++ concat fleet0) s e.
Proof.
  induction ships as [|s ships IH]; intros g marked e Hm; cbn [placeShips]; [done|].
  destruct (placeShip g s) as [[g1 pts]|e'|] eqn:Hship; cbn; [| |done].
  - destruct (placeShip_sound _ _ _ _ _ Hm Hship) as (Hdec & _ & _ & _ & _ & Hm1).
    destruct (placeShips g1 ships) as [[g2 fleet]|e'|] eqn:Hrest; cbn; try done.
    intros [= <-].
    destruct (IH _ _ _ Hm1 Hrest) as (before & s' & after & fleet0 & -> & Hdec' & Hdef).
    exists (s :: before), s', after, (pts :: fleet0). split; [done|]. split.
    + cbn. by rewrite Hdec, Hdec'.
    + cbn [concat]. by rewrite app_assoc.
  - intros [= <-]. exists [], s, ships, []. split; [done|]. split; [done|].
    cbn [concat]. rewrite app_nil_r. by eapply placeShip_Err_inv.
Qed.

(** Each reason the validator gives names a defect the placement has:
    "Bad placement format" is given only when the placement has no [ships]
    array; "Wrong ship count" only when the array does not have five entries;
    "Wrong ship sizes" only when the five sizes are not 5, 4, 3, 3, 2 in some
    order; and each of the other reasons is about one ship of the array, the
    ships before it being lists of integer coordinate pairs: its [cells] is
    not an array of two entries or more; one of its cells has a coordinate that is not an
    integer; one of its cells lies outside the board; one of its cells is a
    cell of a ship before it; its cells do not lie on one row, or one column,
    at different positions; or they do, but not at consecutive positions. *)
Theorem rejection_reasons_are_sound placement e :
  validatePlacement placement = VErr e →
  (e = "Bad placement format" ∧ ∀ ships, getProp placement "ships" ≠ Some (VArr ships)) ∨
  ∃ ships, getProp placement "ships" = Some (VArr ships) ∧
    ((e = "Wrong ship count" ∧ length ships ≠ 5%nat) ∨
     (e = "Wrong ship sizes" ∧ length ships = 5%nat ∧
      ∃ sizes, mapM shipSize ships = Some sizes ∧ ¬ sizes ≡ₚ VNum <$> SHIP_SIZES) ∨
     (∃ before s after fleet0,
        ships = before ++ s :: after ∧ mapM shipOf before = Some fleet0 ∧
        shipDefect (concat fleet0) s e)).
Proof.
  unfold validatePlacement.
  destruct (truthy placement) eqn:Ht; cbn [negb].
  2:{ intros [= <-]. left. split; [done|]. intros ships Hships.
      destruct placement; cbn in Hships, Ht; done. }
  destruct (getProp placement "ships") as [v|] eqn:Hships.
  2:{ intros [= <-]. left. by split. }
  destruct v as [| | | | | |ships|]; try (intros [= <-]; left; by split).
  intros Hres. right. exists ships. split; [done|].
  destruct (mapM shipSize ships) as [sizes|] eqn:Hsizes; [|done].
  destruct (sortThrows sizes); [done|].
  pose proof (length_mapM _ _ _ Hsizes) as Hlen.
  pose proof (Permutation_length (sortSizes_perm sizes)) as Hlen'.
  destruct (Nat.eqb_spec (length (sortSizes sizes)) (length (sortNum SHIP_SIZES)))
    as [Heq|Hne]; cbn [negb] in Hres.
  2:{ injection Hres as <-. left. split; [done|]. cbn in Hne. lia. }
  destruct (sizesEq (sortSizes sizes) (sortNum SHIP_SIZES)) eqn:Hsz; cbn [negb] in Hres.
  2:{ injection Hres as <-. right. left. split; [done|]. split; [cbn in Heq; lia|].
      exists sizes. split; [done|]. intros [_ Hperm]%sizes_check. congruence. }
  destruct (placeShips emptyGrid ships) as [[g fleet]|e'|] eqn:Hplace; try done.
  injection Hres as <-. right. right.
  destruct (placeShips_Err_inv _ _ _ _ marks_empty Hplace)
    as (before & s & after & fleet0 & Heq' & Hdec & Hdef).
  by exists before, s, after, fleet0.
Qed.

End Reasons.

(** * More scenarios *)

Section MoreScenarios.

Local Ltac in_sent :=
  vm_compute; repeat first [apply list_elem_of_here | apply list_elem_of_further].

Local Ltac not_in H :=
  vm_compute in H;
  repeat (apply elem_of_cons in H as [H|H]; [discriminate H|]);
  by apply elem_of_nil in H.

Lemma afterSetup_shaped : shapedRooms afterSetup.
Proof.
  assert (H : afterSetup = rooms_after (runEvents setup [])) by (vm_compute; reflexivity).
  rewrite H. apply run_shapedRooms. constructor.
Qed.

Lemma afterSetup_sound : soundRooms afterSetup.
Proof.
  assert (H : afterSetup = rooms_after (runEvents setup [])) by (vm_compute; reflexivity).
  rewrite H. apply run_soundRooms. constructor.
Qed.

Lemma beforeWin_sound : soundRooms beforeWin.
Proof.
  assert (H : beforeWin =
    rooms_after (runEvents (map (λ c, msgOf 1 (msgShot c.1 c.2)) (removelast (concat fleetA)))
                   afterSetup)) by (vm_compute; reflexivity).
  rewrite H. apply run_soundRooms, afterSetup_sound.
Qed.

Lemma afterLeave_shaped : shapedRooms afterLeave.
Proof.
  assert (H : afterLeave = rooms_after (runEvents [EClose 2] afterSetup))
    by (vm_compute; reflexivity).
  rewrite H. apply run_shapedRooms, afterSetup_shaped.
Qed.

Lemma afterLeave_sound : soundRooms afterLeave.
Proof.
  assert (H : afterLeave = rooms_after (runEvents [EClose 2] afterSetup))
    by (vm_compute; reflexivity).
  rewrite H. apply run_soundRooms, afterSetup_sound.
Qed.

Lemma reachable_rooms_shaped_witness :
  ∃ room,
    rooms_after (runEvents setup []) !! 0%nat = Some ("ROOM01", room) ∧
    (1 ≤ length (Room.players room) ≤ 2)%nat ∧ (Room.turn room < 2)%nat ∧
    (Room.started room = false → Room.turn room = O).
Proof.
  destruct (rooms_after (runEvents setup []) !! 0%nat) as [[key room]|] eqn:Hroom;
    [|vm_compute in Hroom; discriminate Hroom].
  assert (Hkey : key = "ROOM01") by (vm_compute in Hroom; by injection Hroom as <- _).
  subst key. exists room. split; [reflexivity|].
  exact (reachable_rooms_shaped (strings := sampleStrings) setup 0 "ROOM01" room Hroom).
Defined.

Lemma reachable_slots_sound_witness :
  ∃ room p g fleet,
    rooms_after (runEvents setup []) !! 0%nat = Some ("ROOM01", room) ∧
    Room.players room !! 1%nat = Some p ∧
    Player.ready p = true ∧ Player.grid p = Some g ∧ Player.ships p = Some fleet ∧
    wfGrid g ∧ sizesOk fleet ∧ noOverlap fleet.
Proof.
  destruct (rooms_after (runEvents setup []) !! 0%nat) as [[key room]|] eqn:Hroom;
    [|vm_compute in Hroom; discriminate Hroom].
  destruct (Room.players room !! 1%nat) as [p|] eqn:Hp.
  2:{ vm_compute in Hroom. injection Hroom as _ <-. vm_compute in Hp. discriminate Hp. }
  assert (Hkey : key = "ROOM01") by (vm_compute in Hroom; by injection Hroom as <- _).
  subst key.
  destruct (reachable_slots_sound (strings := sampleStrings) setup 0 1 "ROOM01" room p
              Hroom Hp) as [(Hr & _)|(g & fleet & Hr & Hg & Hf & Hwf & Hs & _ & Hno & _)].
  - vm_compute in Hroom. injection Hroom as <-. vm_compute in Hp. injection Hp as <-.
    vm_compute in Hr. discriminate Hr.
  - exists room, p, g, fleet. split_and!; done.
Defined.

Lemma hit_iff_fleet_cell_witness :
  (1%nat, MShotResult 0 0 true false None false)
    ∈ sent (handle 1 "uuid" "ROOM01" (Some (msgShot 0 0)) afterSetup) ∧
  ∃ fleet, slotShips afterSetup 0 1 = Some fleet ∧ (true = true ↔ (0, 0) ∈ concat fleet).
Proof.
  assert (Hin : (1%nat, MShotResult 0 0 true false None false)
                  ∈ sent (handle 1 "uuid" "ROOM01" (Some (msgShot 0 0)) afterSetup))
    by in_sent.
  split; [exact Hin|].
  destruct (hit_iff_fleet_cell (strings := sampleStrings)
              1%nat "uuid" "ROOM01" (msgShot 0 0) afterSetup _ _ _ _ _ _ _
              afterSetup_sound eq_refl Hin)
    as (i & room & pIndex & defender & fleet & Hfind & Hd & Hfleet & Hiff).
  exists fleet. split; [|exact Hiff].
  vm_compute in Hfind. injection Hfind as <- <- <-.
  vm_compute in Hd. injection Hd as <-. exact Hfleet.
Defined.

Lemma sunk_iff_ship_destroyed_witness :
  (1%nat, MShotResult 4 8 true true (Some 2%nat) true)
    ∈ sent (handle 1 "uuid" "ROOM01" (Some (msgShot 4 8)) beforeWin) ∧
  ∃ fleet,
    slotShips afterWin 0 1 = Some fleet ∧
    (∀ n, Some 2%nat = Some n ↔
          true = true ∧ ∃ s, s ∈ fleet ∧ (4, 8) ∈ s ∧ length s = n).
Proof.
  assert (Hin : (1%nat, MShotResult 4 8 true true (Some 2%nat) true)
                  ∈ sent (handle 1 "uuid" "ROOM01" (Some (msgShot 4 8)) beforeWin))
    by in_sent.
  split; [exact Hin|].
  destruct (sunk_iff_ship_destroyed (strings := sampleStrings)
              1%nat "uuid" "ROOM01" (msgShot 4 8) beforeWin _ _ _ _ _ _ _
              beforeWin_sound eq_refl Hin)
    as (i & room & pIndex & key & room' & defender' & g' & fleet & Hfind & Hroom' & Hd
        & _ & Hfleet & _ & Hsz & _).
  exists fleet. split; [|exact Hsz].
  vm_compute in Hfind. injection Hfind as <- <- <-.
  change (afterWin !! 0%nat = Some (key, room')) in Hroom'.
  unfold slotShips. rewrite Hroom'. cbn. cbn in Hd. rewrite Hd. exact Hfleet.
Defined.

Lemma handler_raises_iff_witness :
  shapedRooms afterLeave ∧ soundRooms afterLeave ∧
  raised (handle 1 "uuid" "ROOM01" (Some (msgShot 0 0)) afterLeave) = true ∧
  raised (handle 2 "uuid" "ROOM01"
            (Some (VObj [("type", VStr "join_room");
                         ("roomId", VObj [("toString", VNum 0)])])) afterLeave) = true.
Proof.
  split; [exact afterLeave_shaped|]. split; [exact afterLeave_sound|]. split.
  - apply (handler_raises_iff (strings := sampleStrings) 1 "uuid" "ROOM01"
             (Some (msgShot 0 0)) afterLeave afterLeave_shaped afterLeave_sound).
    exists (msgShot 0 0). split; [reflexivity|]. right. right. right.
    split; [reflexivity|].
    destruct (findRoom 1 afterLeave) as [[[i room] pIndex]|] eqn:Hfind;
      [|vm_compute in Hfind; discriminate Hfind].
    exists i, room, pIndex, 0, 0. split; [reflexivity|].
    vm_compute in Hfind. injection Hfind as <- <- <-.
    split; [reflexivity|]. split; [reflexivity|]. split; [reflexivity|].
    split; [reflexivity|]. split; [unfold inBounds, SIZE; cbn; lia|].
    intros defender Hd. vm_compute in Hd. discriminate Hd.
  - apply (handler_raises_iff (strings := sampleStrings) 2 "uuid" "ROOM01" _ afterLeave
             afterLeave_shaped afterLeave_sound).
    eexists. split; [reflexivity|]. right. left. split; [reflexivity|].
    exists (VObj [("toString", VNum 0)]). by split_and!.
Defined.

Lemma close_without_slot_is_noop_witness :
  (3%nat ∉ connections afterSetup) ∧
  step (strings := sampleStrings) (EClose 3) afterSetup = done afterSetup [].
Proof.
  assert (Hnot : 3%nat ∉ connections afterSetup) by (intros H; not_in H).
  split; [exact Hnot|].
  exact (close_without_slot_is_noop (strings := sampleStrings) 3 afterSetup Hnot).
Defined.

Lemma close_removes_the_slot_witness :
  ∃ room,
    findRoom 2 afterSetup = Some (0%nat, room, 1%nat) ∧
    rooms_after (step (strings := sampleStrings) (EClose 2) afterSetup) = afterLeave ∧
    sent (step (strings := sampleStrings) (EClose 2) afterSetup)
      = [(1%nat, MStatus OpponentDisconnected)].
Proof.
  destruct (findRoom 2 afterSetup) as [[[i room] idx]|] eqn:Hfind;
    [|vm_compute in Hfind; discriminate Hfind].
  assert (Hi : i = 0%nat ∧ idx = 1%nat).
  { vm_compute in Hfind. by injection Hfind as <- _ <-. }
  destruct Hi as [-> ->]. exists room. split; [reflexivity|].
  destruct (close_removes_the_slot (strings := sampleStrings) 2 afterSetup 0 room 1 Hfind)
    as (_ & _ & Hne).
  destruct Hne as (key & room' & Hkey & Hrooms & Hplayers & Hturn & Hst & Hout).
  { vm_compute in Hfind. injection Hfind as <-. vm_compute. discriminate. }
  split; [vm_compute; reflexivity|]. rewrite Hout, Hplayers.
  vm_compute in Hfind. injection Hfind as <-. reflexivity.
Defined.

Lemma last_leave_frees_token_witness :
  ∃ room,
    findRoom 1 afterLeave = Some (0%nat, room, 0%nat) ∧
    length (Room.players room) = 1%nat ∧
    handle 2 "uuid" "ROOM02" (Some (msgJoin "ROOM01"))
      (rooms_after (step (strings := sampleStrings) (EClose 1) afterLeave))
    = reject (rooms_after (step (strings := sampleStrings) (EClose 1) afterLeave)) 2
        "Room not found".
Proof.
  destruct (findRoom 1 afterLeave) as [[[i room] idx]|] eqn:Hfind;
    [|vm_compute in Hfind; discriminate Hfind].
  assert (Hi : i = 0%nat ∧ idx = 0%nat ∧ afterLeave !! 0%nat = Some ("ROOM01", room) ∧
               length (Room.players room) = 1%nat).
  { vm_compute in Hfind. by injection Hfind as <- <- <-. }
  destruct Hi as (-> & -> & Hkey & Hlen). exists room. split; [reflexivity|].
  split; [exact Hlen|].
  apply (last_leave_frees_token (strings := sampleStrings) 1 2 "uuid" "ROOM02"
           (msgJoin "ROOM01") afterLeave 0 "ROOM01" room 0).
  - apply NoDup_singleton.
  - exact Hfind.
  - exact Hkey.
  - exact Hlen.
  - reflexivity.
  - reflexivity.
Defined.

Lemma create_then_join_witness :
  handle 2 "uuid2" "ROOM02" (Some (msgJoin "ROOM01"))
    (rooms_after (handle 1 "uuid1" "ROOM01" (Some msgCreate) []))
  = done [("ROOM01", Room.mk [newPlayer 1 "uuid1"; newPlayer 2 "uuid2"] O false)]
      [(1%nat, MPlayerJoined 2); (2%nat, MRoomJoined "ROOM01" 2);
       (1%nat, MStatus BothConnected); (2%nat, MStatus BothConnected)].
Proof.
  destruct (create_then_join (strings := sampleStrings) 1 "uuid1" 2 "uuid2" 3 "uuid3"
              "ROOM01" "ROOM02" "ROOM03" msgCreate (msgJoin "ROOM01") []
              eq_refl eq_refl eq_refl) as (_ & H2 & _).
  unfold handle. rewrite H2. vm_compute. reflexivity.
Defined.

Lemma game_starts_when_both_ready_witness :
  sent (handle 2 "uuid" "ROOM01" (Some (msgPlace fleetA))
          (rooms_after (runEvents [msgOf 1 msgCreate; msgOf 2 (msgJoin "ROOM01");
                                   msgOf 1 (msgPlace fleetA)] [])))
  = [(2%nat, MReadyOk); (1%nat, MStatus (PlayerReady 2)); (2%nat, MStatus (PlayerReady 2));
     (1%nat, MGameStart 1); (2%nat, MGameStart 1)].
Proof.
  set (rooms1 := rooms_after (runEvents [msgOf 1 msgCreate; msgOf 2 (msgJoin "ROOM01");
                                         msgOf 1 (msgPlace fleetA)] [])).
  destruct (findRoom 2 rooms1) as [[[i room] idx]|] eqn:Hfind;
    [|vm_compute in Hfind; discriminate Hfind].
  destruct (validatePlacement (jplacement fleetA)) as [g fleet|e|] eqn:Hv;
    [|vm_compute in Hv; discriminate Hv|vm_compute in Hv; discriminate Hv].
  assert (Hlen : length (Room.players room) = 2%nat).
  { vm_compute in Hfind. by injection Hfind as _ <- _. }
  destruct (game_starts_when_both_ready (strings := sampleStrings) 2 "uuid" "ROOM01"
              (msgPlace fleetA) rooms1 i room idx (jplacement fleetA) g fleet
              eq_refl Hfind Hlen eq_refl Hv)
    as (key & other & room' & _ & Hother & _ & _ & Hplayers & _ & _ & Hsent).
  unfold handle. rewrite Hsent. unfold broadcast. rewrite Hplayers.
  vm_compute in Hfind. injection Hfind as <- <- <-.
  vm_compute in Hother. injection Hother as <-. reflexivity.
Defined.

Lemma flags_are_never_reset_witness :
  ∃ room p room' p',
    afterSetup !! 0%nat = Some ("ROOM01", room) ∧ Room.players room !! 1%nat = Some p ∧
    rooms_after (handle 1 "uuid" "ROOM02" (Some (msgShot 0 0)) afterSetup) !! 0%nat
      = Some ("ROOM01", room') ∧
    Room.players room' !! 1%nat = Some p' ∧
    Player.ws p' = 2%nat ∧ Player.ready p' = true ∧ Room.started room' = true.
Proof.
  destruct (afterSetup !! 0%nat) as [[key room]|] eqn:Hroom;
    [|vm_compute in Hroom; discriminate Hroom].
  destruct (Room.players room !! 1%nat) as [p|] eqn:Hp.
  2:{ vm_compute in Hroom. injection Hroom as _ <-. vm_compute in Hp. discriminate Hp. }
  assert (Hkey : key = "ROOM01") by (vm_compute in Hroom; by injection Hroom as <- _).
  subst key.
  destruct (flags_are_never_reset (strings := sampleStrings) 1 "uuid" "ROOM02"
              (msgShot 0 0) afterSetup 0 "ROOM01" room 1 p Hroom Hp)
    as (room' & p' & Hroom' & Hp' & Hws & _ & Hready & Hst & _); [discriminate|].
  exists room, p, room', p'. split; [reflexivity|]. split; [exact Hp|].
  split; [exact Hroom'|]. split; [exact Hp'|].
  vm_compute in Hroom. injection Hroom as <-. vm_compute in Hp. injection Hp as <-.
  split; [exact Hws|]. split; [by apply Hready|by apply Hst].
Defined.

Lemma messages_reach_roommates_only_witness :
  (2%nat, MGotShot 0 0 true false None false)
    ∈ sent (handle 1 "uuid" "ROOM01" (Some (msgShot 0 0)) afterSetup) ∧
  ∃ i room idx, findRoom 1 afterSetup = Some (i, room, idx) ∧ 2%nat ∈ roomConnections room.
Proof.
  assert (Hin : (2%nat, MGotShot 0 0 true false None false)
                  ∈ sent (handle 1 "uuid" "ROOM01" (Some (msgShot 0 0)) afterSetup))
    by in_sent.
  split; [exact Hin|].
  destruct (messages_reach_roommates_only (strings := sampleStrings) 1 "uuid" "ROOM01"
              (Some (msgShot 0 0)) afterSetup 2 _ Hin)
    as [Heq|[Hroom|(msg & token & i & room & [= <-] & Hty & _)]].
  - discriminate Heq.
  - exact Hroom.
  - vm_compute in Hty. discriminate Hty.
Defined.

Lemma message_changes_one_slot_witness :
  ∃ room room',
    findRoom 1 afterSetup = Some (0%nat, room, 0%nat) ∧
    rooms_after (handle 1 "uuid" "ROOM01" (Some (msgShot 0 0)) afterSetup) !! 0%nat
      = Some ("ROOM01", room') ∧
    Room.players room' !! 0%nat = Room.players room !! 0%nat.
Proof.
  destruct (findRoom 1 afterSetup) as [[[i room] idx]|] eqn:Hfind;
    [|vm_compute in Hfind; discriminate Hfind].
  assert (Hi : i = 0%nat ∧ idx = 0%nat) by (vm_compute in Hfind; by injection Hfind as <- _ <-).
  destruct Hi as [-> ->].
  destruct (proj2 (message_changes_one_slot (strings := sampleStrings) 1 "uuid" "ROOM01"
                     (msgShot 0 0) afterSetup 0 room 0 Hfind) eq_refl)
    as (key & room' & Hroom' & Hsame).
  exists room, room'. split; [reflexivity|].
  assert (Hkey : key = "ROOM01").
  { unfold handle in *. vm_compute in Hroom'. by injection Hroom' as <- _. }
  subst key. split; [exact Hroom'|]. apply Hsame. discriminate.
Defined.

Lemma validator_raises_only_on_null_or_unsortable_witness :
  validatePlacement (VObj [("ships", VArr [jship [(0, 0); (1, 0)]; VNull])]) = VThrow ∧
  validatePlacement
    (VObj [("ships",
            VArr [jship [(0, 0); (1, 0)];
                  VObj [("cells", VObj [("length", VObj [("toString", VNum 0)])])]])])
    = VThrow.
Proof.
  split.
  - apply (proj1 (proj2 (validator_raises_only_on_null_or_unsortable
                           (VObj [("ships", VArr [jship [(0, 0); (1, 0)]; VNull])])))
             [jship [(0, 0); (1, 0)]; VNull] VNull).
    + reflexivity.
    + apply list_elem_of_further, list_elem_of_here.
    + by left.
  - eapply (proj2 (proj2 (validator_raises_only_on_null_or_unsortable _))
              _ [VNum 2; VObj [("toString", VNum 0)]] (VObj [("toString", VNum 0)])).
    + reflexivity.
    + reflexivity.
    + apply Nat.leb_le. vm_compute. reflexivity.
    + apply list_elem_of_further, list_elem_of_here.
    + reflexivity.
Defined.

Lemma accepted_fleet_covers_17_cells_witness :
  ∃ g fleet,
    validatePlacement (jplacement fleetA) = VOk g fleet ∧
    length (concat fleet) = 17%nat ∧ NoDup (concat fleet).
Proof.
  destruct (validatePlacement (jplacement fleetA)) as [g fleet|e|] eqn:Hv;
    [|vm_compute in Hv; discriminate Hv|vm_compute in Hv; discriminate Hv].
  destruct (accepted_fleet_covers_17_cells (jplacement fleetA) g fleet Hv)
    as (Hlen & Hnd & _).
  by exists g, fleet.
Defined.

Lemma wrong_ship_count_iff_witness :
  validatePlacement (VObj [("ships", VArr [])]) = VErr "Wrong ship count".
Proof.
  apply (proj2 (wrong_ship_count_iff (VObj [("ships", VArr [])]))).
  exists [], []. split_and!; try reflexivity; [constructor|]. cbn. lia.
Defined.

Lemma acceptance_ignores_order_witness :
  sameFleet fleetA fleetAReversed ∧
  accepted (jplacement fleetA) ∧ accepted (jplacement fleetAReversed).
Proof.
  assert (Hsame : sameFleet fleetA fleetAReversed).
  { exists (rev fleetA). split; [apply Permutation_rev|].
    vm_compute. repeat constructor; apply (Permutation_rev (A := Z * Z)). }
  assert (Hacc : accepted (jplacement fleetA)).
  { destruct (validatePlacement (jplacement fleetA)) as [g fleet|e|] eqn:Hv;
      [by exists g, fleet|vm_compute in Hv; discriminate Hv|vm_compute in Hv; discriminate Hv]. }
  split; [exact Hsame|]. split; [exact Hacc|].
  apply (proj1 (acceptance_ignores_order (jplacement fleetA) (jplacement fleetAReversed)
                  fleetA fleetAReversed eq_refl eq_refl Hsame)).
  exact Hacc.
Defined.

Lemma validation_reads_cells_only_witness :
  ∃ g fleet,
    validatePlacement (jplacement fleetA) = VOk g fleet ∧
    validatePlacement (jplacementTagged fleetA) = VOk g fleet.
Proof.
  destruct (validatePlacement (jplacement fleetA)) as [g fleet|e|] eqn:Hv;
    [|vm_compute in Hv; discriminate Hv|vm_compute in Hv; discriminate Hv].
  exists g, fleet. split; [reflexivity|].
  apply (validation_reads_cells_only (jplacement fleetA) (jplacementTagged fleetA) g fleet Hv).
  vm_compute in Hv. injection Hv as _ <-. vm_compute. reflexivity.
Defined.

Lemma legal_shot_is_accepted_witness :
  ∃ hit sunk sz win,
    (1%nat, MShotResult 0 0 hit sunk sz win)
      ∈ sent (handle 1 "uuid" "ROOM01" (Some (msgShot 0 0)) afterSetup) ∧
    (2%nat, MGotShot 0 0 hit sunk sz win)
      ∈ sent (handle 1 "uuid" "ROOM01" (Some (msgShot 0 0)) afterSetup).
Proof.
  destruct (findRoom 1 afterSetup) as [[[i room] idx]|] eqn:Hfind;
    [|vm_compute in Hfind; discriminate Hfind].
  destruct (Room.players room !! otherIndex idx) as [defender|] eqn:Hd.
  2:{ vm_compute in Hfind. injection Hfind as _ <- <-. vm_compute in Hd. discriminate Hd. }
  destruct (Player.grid defender) as [g|] eqn:Hg.
  2:{ vm_compute in Hfind. injection Hfind as _ <- <-. vm_compute in Hd.
      injection Hd as <-. vm_compute in Hg. discriminate Hg. }
  assert (Hfacts : Room.started room = true ∧ idx = Room.turn room ∧
                   Player.ws defender = 2%nat ∧ cellAt g 0 0 = Some Ship).
  { vm_compute in Hfind. injection Hfind as _ <- <-. vm_compute in Hd.
    injection Hd as <-. vm_compute in Hg. injection Hg as <-. by vm_compute. }
  destruct Hfacts as (Hst & Hturn & Hws & Hc).
  assert (Hb : inBounds (0, 0)) by (unfold inBounds, SIZE; cbn; lia).
  assert (Hhit : cellAt g 0 0 ≠ Some Hit) by (by rewrite Hc).
  assert (Hmiss : cellAt g 0 0 ≠ Some Miss) by (by rewrite Hc).
  destruct (legal_shot_is_accepted (strings := sampleStrings) 1 "uuid" "ROOM01"
              (msgShot 0 0) afterSetup i room idx 0 0 defender g
              afterSetup_sound eq_refl Hfind Hst Hturn eq_refl eq_refl Hb Hd Hg Hhit Hmiss)
    as (hit & sunk & sz & win & H1 & H2 & _).
  exists hit, sunk, sz, win. rewrite Hws in H2. by split.
Defined.

(** A fleet whose last ship is bent. *)
Lemma rejection_reasons_are_sound_witness :
  validatePlacement
    (jplacement (removelast fleetA ++ [[(3, 8); (4, 9)]])) = VErr "Ship must be straight" ∧
  ∃ ships before s after fleet0,
    getProp (jplacement (removelast fleetA ++ [[(3, 8); (4, 9)]])) "ships"
      = Some (VArr ships) ∧
    ships = before ++ s :: after ∧ mapM shipOf before = Some fleet0 ∧
    shipDefect (concat fleet0) s "Ship must be straight".
Proof.
  assert (Hv : validatePlacement
                 (jplacement (removelast fleetA ++ [[(3, 8); (4, 9)]]))
               = VErr "Ship must be straight") by (vm_compute; reflexivity).
  split; [exact Hv|].
  destruct (rejection_reasons_are_sound _ _ Hv)
    as [[Hbad _]|(ships & Hships & [[Hbad _]|[[Hbad _]|(before & s & after & fleet0 & H)]])];
    try discriminate Hbad.
  by exists ships, before, s, after, fleet0.
Defined.

End MoreScenarios.
